(** * Vela: operator legality, pass packing, LUT allocation and API version

    A shallow embedding of the parts of [ethosu/vela] that the
    specification's testable properties are about:
    - [api.py]                 : [npu_get_API_version], [NpuDataType]
    - [lut.py]                 : [LUTState], [get_lut_index],
                                 [optimize_high_level_cmd_stream]
    - [supported_operators.py] : the generic tensor constraints and the
                                 constraints on weights, bias, data
                                 types, batch sizes and shapes
    - [pass_packing.py]        : [test_sequence], [build_pass],
                                 [create_primary_op]
    - [tensor.py]              : [shape_num_elements],
                                 [shape_fully_defined],
                                 [shape_round_to_quantum],
                                 [storage_shape_for_sub_purpose]

    Python integers are unbounded, so they are modelled by [Z]. *)

From Stdlib Require Import ZArith List Bool Lia String Sorted.
Import ListNotations.
Local Open Scope Z_scope.

(* ================================================================= *)
(** ** api.py *)

Module Api.

Definition API_version_major : Z := 1.
Definition API_version_minor : Z := 0.

(** The expression of [npu_get_API_version], abstracted over the two
    module constants. *)
Definition encode_version (major minor : Z) : Z :=
  Z.lor (Z.shiftl major 16) (Z.land minor 65535).

Definition npu_get_API_version : Z :=
  encode_version API_version_major API_version_minor.

(** What [test_npu_get_API_version] computes from the result. *)
Definition version_major (int_version : Z) : Z := Z.shiftr int_version 16.
Definition version_minor (int_version : Z) : Z := Z.land 65535 int_version.

End Api.

(* ================================================================= *)
(** ** Shared helpers: objects, heaps and Python built-ins *)

(** Python objects that the code mutates are modelled by an identifier
    and a heap of their mutable attributes: a total map from
    identifiers to values, updated at one identifier. *)
Definition ObjId : Type := nat.

Definition upd {A : Type} (h : ObjId -> A) (k : ObjId) (v : A) : ObjId -> A :=
  fun k' => if Nat.eqb k' k then v else h k'.

(** [range(start, stop, step)]; [None] is Python's [ValueError] for a
    zero step. *)
Definition py_range (start stop step : Z) : option (list Z) :=
  if step =? 0 then None
  else
    let len :=
      if 0 <? step then (stop - start + step - 1) / step
      else (start - stop - step - 1) / (- step) in
    Some (map (fun k => start + Z.of_nat k * step) (seq 0 (Z.to_nat len))).

(** Floor division [a // b]; [None] is [ZeroDivisionError]. *)
Definition py_floordiv (a b : Z) : option Z :=
  if b =? 0 then None else Some (a / b).

(* ================================================================= *)
(** ** lut.py *)

Module Lut.

(** [tensor.TensorPurpose].  Modelled from the spec: the member [LUT],
    which [lut.py] compares [purpose] with, is not in the enumeration
    of [tensor.py] in the sources ([Unknown], [Weights], [FeatureMap],
    [Scratch], [Size]); it is the purpose of a tensor that holds a
    lookup table.  [Size], the number of purposes, is no purpose of a
    tensor and is left out. *)
Inductive TensorPurpose : Type :=
| Unknown | Weights | FeatureMap | Scratch | LUT.

Definition TensorPurpose_eqb (p q : TensorPurpose) : bool :=
  match p, q with
  | Unknown, Unknown | Weights, Weights | FeatureMap, FeatureMap
  | Scratch, Scratch | LUT, LUT => true
  | _, _ => false
  end.

(** [cmd.ps]: the pass a command belongs to.  [primary_op] may be
    [None] (see [build_pass]). *)
Record Pass : Type := mkPass {
  lut_tensor : option ObjId;
  primary_op : option ObjId
}.

(** The two command classes of the high-level command stream;
    [cmdtype] is fixed by the class. *)
Inductive CommandType : Type := CT_NpuStripe | CT_DMA.

Inductive Command : Type :=
| NpuStripe (ps : Pass)
| DMA (ps : Pass) (in_tensor out_tensor : ObjId).

Definition cmdtype (cmd : Command) : CommandType :=
  match cmd with NpuStripe _ => CT_NpuStripe | DMA _ _ _ => CT_DMA end.

Definition ps (cmd : Command) : Pass :=
  match cmd with NpuStripe p => p | DMA p _ _ => p end.

Record Arch : Type := mkArch {
  shram_lut_address : Z;
  shram_lut_size : Z;
  shram_reserved_unused_banks : Z
}.

(** Modelled from the spec: [numeric_util.overlaps] is not part of the
    sources; two half-open intervals overlap iff they intersect. *)
Definition overlaps (start1 end1 start2 end2 : Z) : bool :=
  (start1 <? end2) && (start2 <? end1).

(** [LUTState.tensors]: the resident LUT tensors, newest first. *)
Definition LUTState : Type := list ObjId.

Section Tensors.
(** Attributes of the tensor objects that the LUT pass only reads. *)
Variable purpose : ObjId -> TensorPurpose.
Variable equivalence_id : ObjId -> nat.
Variable storage_size : ObjId -> Z.

(** Modelled from the spec: [Tensor.equivalent] is not part of the
    sources; equivalent tensors are those with equal
    [equivalence_id]. *)
Definition equivalent (t lut_tens : ObjId) : bool :=
  Nat.eqb (equivalence_id t) (equivalence_id lut_tens).

Definition get_equivalent (tensors : LUTState) (lut_tens : ObjId)
  : option ObjId :=
  find (fun t => equivalent t lut_tens) tensors.

Section Addresses.
(** The mutable attribute [Tensor.address]. *)
Variable address : ObjId -> Z.

Definition put (tensors : LUTState) (lut_tens : ObjId) : LUTState :=
  let start := address lut_tens in
  let end_ := start + storage_size lut_tens in
  lut_tens ::
  filter (fun tens =>
            let start2 := address tens in
            let end2 := start2 + storage_size tens in
            negb (overlaps start end_ start2 end2)) tensors.

(** The inner loop of [find_best_address]. *)
Definition nr_overlaps (tensors : LUTState) (addr step : Z) : Z :=
  fold_left
    (fun n tens =>
       let start2 := address tens in
       let end2 := start2 + storage_size tens in
       if overlaps addr (addr + step) start2 end2 then n + 1 else n)
    tensors 0.

(** The outer loop body: the pair is
    [(best_addr, best_nr_overlaps)]. *)
Definition best_step (tensors : LUTState) (step : Z)
           (best : Z * Z) (addr : Z) : Z * Z :=
  let n := nr_overlaps tensors addr step in
  if n <? snd best then (addr, n) else best.

Definition find_best_address (tensors : LUTState)
           (start stop step : Z) : option Z :=
  match py_range start stop step with
  | None => None
  | Some addrs =>
      Some (fst (fold_left (best_step tensors step) addrs (start, stop)))
  end.

(** [None] is a failed [assert] or a division by zero. *)
Definition get_lut_index (arch : Arch) (lut_tensor : ObjId) : option Z :=
  match py_floordiv (address lut_tensor - shram_lut_address arch)
                    (storage_size lut_tensor) with
  | None => None
  | Some slot => if (0 <=? slot) && (slot <? 8) then Some slot else None
  end.
End Addresses.

(** The variables of [optimize_high_level_cmd_stream] and the heap
    attributes it writes: [Tensor.address] and
    [Operation.attrs["lut_index"]]. *)
Record RewriteState : Type := mkState {
  cmd_stream : list Command;
  lut_state : LUTState;
  address : ObjId -> Z;
  lut_index : ObjId -> option Z
}.

Definition slot_size : Z := 256.

Definition is_lut_dma (cmd : Command) : bool :=
  match cmd with
  | DMA _ _ out_tensor => TensorPurpose_eqb (purpose out_tensor) LUT
  | NpuStripe _ => false
  end.

(** One iteration of the loop over [sg.high_level_command_stream];
    [None] when the iteration raises. *)
Definition rewrite_cmd (arch : Arch) (st : RewriteState) (cmd : Command)
  : option RewriteState :=
  let lut_start := shram_lut_address arch in
  let lut_end := lut_start + shram_lut_size arch in
  let lut_state1 :=
    match cmd with
    | NpuStripe p =>
        match lut_tensor p with
        | None => if shram_reserved_unused_banks arch =? 0
                  then [] else lut_state st
        | Some _ => lut_state st
        end
    | DMA _ _ _ => lut_state st
    end in
  match cmd with
  | DMA p _ lut_tens =>
      if negb (TensorPurpose_eqb (purpose lut_tens) LUT) then
        Some (mkState (cmd_stream st ++ [cmd]) lut_state1
                      (address st) (lut_index st))
      else
        match get_equivalent lut_state1 lut_tens with
        | Some existing_tens =>
            let address1 :=
              upd (address st) lut_tens (address st existing_tens) in
            match primary_op p, get_lut_index address1 arch existing_tens with
            | Some op, Some slot =>
                Some (mkState (cmd_stream st) lut_state1 address1
                              (upd (lut_index st) op (Some slot)))
            | _, _ => None
            end
        | None =>
            match find_best_address (address st) lut_state1
                    lut_start lut_end (storage_size lut_tens) with
            | None => None
            | Some addr =>
                let address1 := upd (address st) lut_tens addr in
                match primary_op p with
                | None => None
                | Some op =>
                    Some (mkState
                            (cmd_stream st ++ [cmd])
                            (put address1 lut_state1 lut_tens)
                            address1
                            (upd (lut_index st) op
                                 (Some ((addr - lut_start) / slot_size))))
                end
            end
        end
  | NpuStripe _ =>
      Some (mkState (cmd_stream st ++ [cmd]) lut_state1
                    (address st) (lut_index st))
  end.

Fixpoint rewrite_cmds (arch : Arch) (st : RewriteState)
         (cmds : list Command) : option RewriteState :=
  match cmds with
  | [] => Some st
  | cmd :: rest =>
      match rewrite_cmd arch st cmd with
      | None => None
      | Some st' => rewrite_cmds arch st' rest
      end
  end.

(** The state on entry: empty output stream, empty [LUTState], and
    the heap as the caller left it. *)
Definition initial_state (address0 : ObjId -> Z)
           (lut_index0 : ObjId -> option Z) : RewriteState :=
  mkState [] [] address0 lut_index0.

(** [optimize_high_level_cmd_stream(sg, arch)]: the final state holds
    the new [sg.high_level_command_stream] and the mutated heap. *)
Definition optimize_high_level_cmd_stream (arch : Arch)
           (address0 : ObjId -> Z) (lut_index0 : ObjId -> option Z)
           (high_level_command_stream : list Command)
  : option RewriteState :=
  rewrite_cmds arch (initial_state address0 lut_index0)
               high_level_command_stream.

(** [elides cmds out]: [out] is [cmds] with some commands left out,
    each of them a DMA whose output tensor has purpose LUT; the
    commands kept are the same objects in the same order. *)
Inductive elides : list Command -> list Command -> Prop :=
| elides_nil : elides [] []
| elides_keep cmd cmds out :
    elides cmds out -> elides (cmd :: cmds) (cmd :: out)
| elides_drop cmd cmds out :
    is_lut_dma cmd = true -> elides cmds out -> elides (cmd :: cmds) out.

(** The address interval [[address, address + storage_size)] of a
    tensor holds [x]. *)
Definition in_interval (address : ObjId -> Z) (t : ObjId) (x : Z) : Prop :=
  address t <= x < address t + storage_size t.

(** The invariant of the rewrite: resident tensors have pairwise
    distinct equivalence ids and pairwise non-overlapping
    intervals. *)
Definition lut_inv (address : ObjId -> Z) (tensors : LUTState) : Prop :=
  NoDup (map equivalence_id tensors)
  /\ ForallOrdPairs
       (fun t1 t2 =>
          overlaps (address t1) (address t1 + storage_size t1)
                   (address t2) (address t2 + storage_size t2) = false)
       tensors.

(** An address of the range walked by [find_best_address]. *)
Definition candidate (start stop step a : Z) : Prop :=
  start <= a < stop /\ exists k, 0 <= k /\ a = start + k * step.

End Tensors.

End Lut.

(** Concrete tensors, passes and command streams used to run the LUT
    pass. *)
Module LutExamples.
Import Lut.

(** Tensors 0, 1 and 2 are 1024-byte LUTs; 1 and 2 share an
    equivalence id.  Tensors 10..12 are LUTs for
    [find_best_address]; every other tensor is a feature map. *)
Definition purpose (t : ObjId) : TensorPurpose :=
  match t with
  | 0%nat | 1%nat | 2%nat | 10%nat | 11%nat | 12%nat => LUT
  | _ => FeatureMap
  end.

Definition equivalence_id (t : ObjId) : nat :=
  match t with
  | 2%nat => 1%nat
  | _ => t
  end.

Definition storage_size (t : ObjId) : Z :=
  match t with
  | 0%nat | 1%nat | 2%nat => 1024
  | 10%nat | 11%nat => 2
  | 12%nat => 1
  | _ => 16
  end.

Definition arch : Arch := mkArch 4096 2048 2.

(** Three LUT DMAs, each in a pass whose primary op is 100, 101, 102,
    followed by the stripe that uses the table. *)
Definition stream : list Command :=
  [ DMA (mkPass (Some 0%nat) (Some 100%nat)) 20%nat 0%nat;
    NpuStripe (mkPass (Some 0%nat) (Some 100%nat));
    DMA (mkPass (Some 1%nat) (Some 101%nat)) 21%nat 1%nat;
    NpuStripe (mkPass (Some 1%nat) (Some 101%nat));
    DMA (mkPass (Some 2%nat) (Some 102%nat)) 22%nat 2%nat;
    NpuStripe (mkPass (Some 2%nat) (Some 102%nat)) ].

Definition address0 : ObjId -> Z := fun _ => 0.
Definition lut_index0 : ObjId -> option Z := fun _ => None.

(** A state holding three LUTs that all cover address 0. *)
Definition crowded : LUTState := [10%nat; 11%nat; 12%nat].

End LutExamples.

(* ================================================================= *)
(** ** supported_operators.py *)

Module SupportedOperators.

(** The operator kinds that [supported_operators.py] and its tests
    name. *)
Inductive Op : Type :=
| SplitSliceRead | Conv2DBias | Conv2D | QuantizedConv2D
| DepthwiseConv2DBias | Conv2DBackpropInput
| ReduceSum | AvgPool | MaxPool | ResizeBilinear
| QuantizedMatMul | MatMul | FullyConnected | BlockLSTM
| Minimum | Maximum | SHL | SHR | Add | Mul | Sub
| CLZ | LeakyRelu | Relu | Tanh | Sigmoid | Softmax | LUT
| ConcatSliceWrite | Quantize
| Split | SplitV | StridedSlice | Slice | UnpackReshaped | Unpack
| Concat | ConcatTFLite | PackReshaped | Pack
| Squeeze | Reshape | QuantizedReshape
| Placeholder | SubgraphInput | Const.

Definition Op_eq_dec (a b : Op) : {a = b} + {a <> b}.
Proof. decide equality. Defined.

(** [op in (a, b, ...)]. *)
Definition op_in (ops : list Op) (op : Op) : bool :=
  existsb (fun o => if Op_eq_dec o op then true else false) ops.

Inductive DataType : Type :=
| uint8 | int8 | uint16 | int16 | int32 | int64 | float32.

Definition DataType_eq_dec (a b : DataType) : {a = b} + {a <> b}.
Proof. decide equality. Defined.

Definition dtype_in (dtypes : list DataType) (d : DataType) : bool :=
  existsb (fun o => if DataType_eq_dec o d then true else false) dtypes.

(** Modelled from the spec: [data_type.py] is not part of the sources;
    signedness and bit width are intrinsic to the data type. *)
Definition is_signed (d : DataType) : bool :=
  match d with
  | int8 | int16 | int32 | int64 | float32 => true
  | uint8 | uint16 => false
  end.

Definition is_unsigned (d : DataType) : bool :=
  match d with
  | uint8 | uint16 => true
  | _ => false
  end.

Definition size_in_bits (d : DataType) : Z :=
  match d with
  | uint8 | int8 => 8
  | uint16 | int16 => 16
  | int32 | float32 => 32
  | int64 => 64
  end.

(** A float as far as the checker looks at it: [np.isinf] only. *)
Inductive Float : Type :=
| Finite (mantissa exponent : Z)
| Infinity (negative : bool)
| NaN.

Definition isinf (f : Float) : bool :=
  match f with Infinity _ => true | _ => false end.

(** [QuantizationParameters]: [scale_f32] is [None], a float or an array
    of floats (a float is an array of one); [zero_point] likewise, of
    integers. *)
Record QuantizationParameters : Type := mkQuant {
  scale_f32 : option (list Float);
  zero_point : list Z
}.

(** Modelled from the spec: [is_per_axis] is not part of the sources; a
    tensor is per-axis quantized iff [zero_point] is a multi-element
    array. *)
Definition is_per_axis (q : QuantizationParameters) : bool :=
  (1 <? List.length (zero_point q))%nat.

(** [Tensor], restricted to the attributes the checker reads.  A shape
    is [None] or a list of dimensions, each an integer or [None]. *)
Record Tensor : Type := mkTensor {
  shape : option (list (option Z));
  dtype : DataType;
  values : option (list Z);
  quant_values : option (list Z);
  quantization : option QuantizationParameters;
  element_size_bytes : Z
}.

Definition has_fully_defined_shape (tens : Tensor) : bool :=
  match shape tens with
  | None => false
  | Some shp => forallb (fun d => match d with None => false | Some _ => true end) shp
  end.

(** [tens.shape == []]. *)
Definition shape_is_empty (tens : Tensor) : bool :=
  match shape tens with
  | Some [] => true
  | _ => false
  end.

(** [Tensor.element_size], in eighths of a byte so that the division of
    the bit width by 8 stays exact. *)
Definition element_size_bits (tens : Tensor) : Z :=
  if element_size_bytes tens =? 0 then size_in_bits (dtype tens)
  else 8 * element_size_bytes tens.

(** [Operation].  [operation.py] is not part of the sources: the
    tensors its accessors [ifm], [ifm2], [weights], [bias] and [ofm]
    return are recorded with the operation.  Entries of [inputs] and
    [outputs] may be [None]. *)
Record Operation : Type := mkOperation {
  type : Op;
  inputs : list (option Tensor);
  outputs : list (option Tensor);
  ifm : option Tensor;
  ifm2 : option Tensor;
  weights : option Tensor;
  bias : option Tensor;
  ofm : option Tensor;
  activation : option Op
}.

Definition get_ifm_ifm2_weights_ofm (op : Operation) : list (option Tensor) :=
  [ifm op; ifm2 op; weights op; ofm op].

(** [[tens for tens in l if tens]]. *)
Fixpoint present (l : list (option Tensor)) : list Tensor :=
  match l with
  | [] => []
  | Some tens :: rest => tens :: present rest
  | None :: rest => present rest
  end.

(** A constraint returns [Some valid], or [None] when it raises; the
    diagnostic string is left out. *)
Definition Constraint : Type := Operation -> option bool.

(** A [for] loop that clears [valid] at every failing element and does
    not stop early: it raises if the test raises at any element. *)
Fixpoint for_all {A : Type} (test : A -> option bool) (l : list A)
  : option bool :=
  match l with
  | [] => Some true
  | x :: rest =>
      match test x, for_all test rest with
      | Some b, Some bs => Some (b && bs)
      | _, _ => None
      end
  end.

(** [all(...)] over a generator: stops at the first false element. *)
Fixpoint py_all {A : Type} (test : A -> option bool) (l : list A)
  : option bool :=
  match l with
  | [] => Some true
  | x :: rest =>
      match test x with
      | Some true => py_all test rest
      | other => other
      end
  end.

(** *** Categorised operator sets *)

(** The specific constraints that read [op.kernel] and [op.attrs]
    (defined in [operation.py]), float attributes or numpy arrays are
    not embedded; the checker takes them as given. *)
Record AttributeConstraints : Type := mkAttributeConstraints {
  constraint_stride_type : Constraint;
  constraint_stride_range : Constraint;
  constraint_dilation_type : Constraint;
  constraint_dilation_range : Constraint;
  constraint_dilated_height_range : Constraint;
  constraint_dilated_product_range : Constraint;
  constraint_weights_limit : Constraint;
  constraint_depth_multiplier : Constraint;
  constraint_tconv_stride : Constraint;
  constraint_tconv_same : Constraint;
  constraint_tconv_valid : Constraint;
  constraint_filter_type : Constraint;
  constraint_filter_range : Constraint;
  constraint_filter_height_range_valid_pad : Constraint;
  constraint_filter_product_range_valid_pad : Constraint;
  constraint_filter_height_range : Constraint;
  constraint_filter_product_range : Constraint;
  constraint_quant_scale_inf : Constraint;
  constraint_resize : Constraint;
  constraint_axis_exists : Constraint;
  constraint_axis_valid : Constraint;
  constraint_matching_dimensionality : Constraint;
  constraint_valid_dimensions : Constraint;
  constraint_matching_quantization_parameters : Constraint;
  constraint_beta_value_range : Constraint;
  constraint_splitv_inferred : Constraint;
  constraint_stridedslice_input_count : Constraint;
  constraint_stridedslice_inputs_const : Constraint;
  constraint_stridedslice_stride_values : Constraint;
  constraint_ellipsis_mask : Constraint;
  constraint_axis_masks : Constraint;
  constraint_slice_ranges : Constraint;
  constraint_alpha_valid : Constraint
}.

Section Sets.
(** [Op.op_set(Op.is_..._op)]: the predicates are defined in
    [operation.py]. *)
Variable is_maxpool_op is_avgpool_op : Op -> bool.
Variable is_unary_elementwise_op is_relu_op : Op -> bool.
Variable attribute_constraints : AttributeConstraints.

Definition npu_pre_ops (o : Op) : bool := op_in [SplitSliceRead] o.
Definition convolution_ops (o : Op) : bool :=
  op_in [Conv2DBias; Conv2D; QuantizedConv2D] o.
Definition depthwise_convolution_ops (o : Op) : bool :=
  op_in [DepthwiseConv2DBias] o.
Definition transpose_convolution_ops (o : Op) : bool :=
  op_in [Conv2DBackpropInput] o.
Definition convolution_like_ops (o : Op) : bool :=
  convolution_ops o || depthwise_convolution_ops o
  || transpose_convolution_ops o.
Definition max_pooling_ops : Op -> bool := is_maxpool_op.
Definition avg_pooling_ops : Op -> bool := is_avgpool_op.
Definition pooling_ops (o : Op) : bool :=
  op_in [ReduceSum] o || max_pooling_ops o || avg_pooling_ops o.
Definition resizing_ops (o : Op) : bool := op_in [ResizeBilinear] o.
Definition fc_vector_products (o : Op) : bool :=
  op_in [QuantizedMatMul; MatMul; FullyConnected] o.
Definition mac_main_ops (o : Op) : bool :=
  op_in [BlockLSTM] o || convolution_like_ops o || pooling_ops o
  || resizing_ops o || fc_vector_products o.
Definition unary_elem_wise_main_ops : Op -> bool := is_unary_elementwise_op.
Definition binary_elem_wise_min_max_ops (o : Op) : bool :=
  op_in [Minimum; Maximum] o.
Definition binary_elem_wise_shift_ops (o : Op) : bool := op_in [SHL; SHR] o.
Definition binary_elem_wise_add_mul_sub (o : Op) : bool :=
  op_in [Add; Mul; Sub] o.
Definition binary_elem_wise_main_ops (o : Op) : bool :=
  binary_elem_wise_min_max_ops o || binary_elem_wise_add_mul_sub o
  || binary_elem_wise_shift_ops o.
Definition elem_wise_main_ops (o : Op) : bool :=
  binary_elem_wise_main_ops o || unary_elem_wise_main_ops o.
Definition supported_int32_tensor_ops (o : Op) : bool :=
  op_in [ReduceSum; CLZ] o || binary_elem_wise_add_mul_sub o
  || binary_elem_wise_shift_ops o.
Definition relu_ops : Op -> bool := is_relu_op.
Definition activation_ops (o : Op) : bool :=
  relu_ops o || op_in [Tanh; Sigmoid; Softmax] o.
Definition npu_post_ops (o : Op) : bool :=
  activation_ops o || op_in [ConcatSliceWrite] o || op_in [Quantize] o.
Definition split_ops (o : Op) : bool :=
  op_in [Split; SplitV; StridedSlice; Slice; UnpackReshaped; Unpack] o.
Definition concat_ops (o : Op) : bool :=
  op_in [Concat; ConcatTFLite; PackReshaped; Pack] o.
Definition memory_only_ops (o : Op) : bool :=
  op_in [Squeeze; Reshape; QuantizedReshape] o || concat_ops o || split_ops o.
Definition shapeless_input_ops (o : Op) : bool :=
  binary_elem_wise_main_ops o || op_in [Split; SplitV] o.
Definition per_axis_quant_ops : Op -> bool := convolution_like_ops.
Definition supported_fused_activations (o : Op) : bool :=
  relu_ops o || op_in [Tanh; Sigmoid; LUT] o.
Definition supported_operators (o : Op) : bool :=
  npu_pre_ops o || mac_main_ops o || elem_wise_main_ops o
  || npu_post_ops o || memory_only_ops o.

Definition supported_op_dtypes : list DataType := [uint8; int8; int16; int32].
Definition supported_bias_dtypes : list DataType := [int32; int64].
Definition tens_dim_range : Z * Z := (1, 65535).

(** *** Generic constraints *)

Definition constraint_tens_no_dynamic : Constraint := fun op =>
  for_all (fun tens =>
             Some (negb (shape_is_empty tens
                         && match values tens with None => true | _ => false end)))
          (present (inputs op ++ outputs op)).

Definition constraint_tens_defined_shape : Constraint := fun op =>
  for_all (fun tens => Some (has_fully_defined_shape tens))
          (present (inputs op ++ outputs op)).

Definition constraint_tens_output_scalar : Constraint := fun op =>
  match ofm op with
  | None => None
  | Some t => Some (negb (shape_is_empty t))
  end.

Definition constraint_tens_input_scalar : Constraint := fun op =>
  for_all (fun tens =>
             Some (negb (shape_is_empty tens
                         && negb (shapeless_input_ops (type op)))))
          (present (inputs op)).

Definition constraint_tens_shape_size : Constraint := fun op =>
  for_all (fun tens =>
             match shape tens with
             | None => None
             | Some shp => Some (negb (4 <? List.length shp)%nat)
             end)
          (present (inputs op ++ outputs op)).

(** The tensors looked at by the data type, int32 and dimension
    checks. *)
Definition checked_tensors (op : Operation) : list Tensor :=
  match present (get_ifm_ifm2_weights_ofm op) with
  | [] => present (inputs op)
  | tensors => tensors
  end.

Definition constraint_tens_dtype : Constraint := fun op =>
  for_all (fun tens => Some (dtype_in supported_op_dtypes (dtype tens)))
          (checked_tensors op).

Definition constraint_tens_int32_ops : Constraint := fun op =>
  for_all (fun tens =>
             Some (negb ((if DataType_eq_dec (dtype tens) int32
                          then true else false)
                         && negb (supported_int32_tensor_ops (type op)))))
          (checked_tensors op).

(** [tens_min <= dim <= tens_max]; comparing [None] raises. *)
Definition dim_in_range (d : option Z) : option bool :=
  match d with
  | None => None
  | Some dim => Some ((fst tens_dim_range <=? dim) && (dim <=? snd tens_dim_range))
  end.

Definition constraint_tens_dimension : Constraint := fun op =>
  for_all (fun tens =>
             match shape tens with
             | None => None
             | Some shp => py_all dim_in_range shp
             end)
          (checked_tensors op).

Definition constraint_tens_quant_none_check : Constraint := fun op =>
  for_all (fun tens =>
             Some (match quantization tens with None => false | _ => true end))
          (present (get_ifm_ifm2_weights_ofm op)).

Definition constraint_tens_quant_scale : Constraint := fun op =>
  for_all (fun tens =>
             match quantization tens with
             | None => None
             | Some q =>
                 Some (negb (match scale_f32 q with
                             | None => false
                             | Some scale => existsb isinf scale
                             end))
             end)
          (present (get_ifm_ifm2_weights_ofm op)).

Definition constraint_tens_quant_per_axis : Constraint := fun op =>
  if per_axis_quant_ops (type op) then Some true
  else
    for_all (fun tens =>
               match quantization tens with
               | None => None
               | Some q => Some (negb (is_per_axis q))
               end)
            (present (get_ifm_ifm2_weights_ofm op)).

Definition constraint_faf : Constraint := fun op =>
  match activation op with
  | None => Some true
  | Some faf => Some (supported_fused_activations faf)
  end.

Definition generic_constraints : list Constraint :=
  [ constraint_tens_no_dynamic;
    constraint_tens_defined_shape;
    constraint_tens_output_scalar;
    constraint_tens_input_scalar;
    constraint_tens_shape_size;
    constraint_tens_dtype;
    constraint_tens_int32_ops;
    constraint_tens_dimension;
    constraint_tens_quant_none_check;
    constraint_tens_quant_scale;
    constraint_tens_quant_per_axis;
    constraint_faf ].

(** *** Specific constraints *)

Definition constraint_weights_type : Constraint := fun op =>
  match weights op with
  | None => None
  | Some w => Some (element_size_bits w =? 8)
  end.

Definition constraint_weights_const : Constraint := fun op =>
  match weights op with
  | None => None
  | Some w => Some (match values w with None => false | _ => true end)
  end.

Definition constraint_bias_type : Constraint := fun op =>
  match bias op with
  | Some b => Some (dtype_in supported_bias_dtypes (dtype b))
  | None => Some true
  end.

(** [len(bin(quant_value)[2:])]: the binary digits of a natural number,
    one character more after the sign of a negative one. *)
Definition bin_digits (quant_value : Z) : Z :=
  if quant_value <? 0 then Z.log2 (- quant_value) + 2
  else if quant_value =? 0 then 1
  else Z.log2 quant_value + 1.

Definition constraint_bias_40bit : Constraint := fun op =>
  match bias op with
  | Some b =>
      match (if DataType_eq_dec (dtype b) int64 then quant_values b else None) with
      | Some qv => Some (forallb (fun q => bin_digits q <=? 40) qv)
      | None => Some true
      end
  | None => Some true
  end.

(** [shape[0]]; [None] when the shape is [None] or empty. *)
Definition shape_0 (tens : Tensor) : option (option Z) :=
  match shape tens with
  | Some (d :: _) => Some d
  | _ => None
  end.

Definition dim_eqb (a b : option Z) : bool :=
  match a, b with
  | Some x, Some y => x =? y
  | None, None => true
  | _, _ => false
  end.

Fixpoint dims_eqb (a b : list (option Z)) : bool :=
  match a, b with
  | [], [] => true
  | x :: a', y :: b' => dim_eqb x y && dims_eqb a' b'
  | _, _ => false
  end.

(** [shape1 == shape2]. *)
Definition shape_eqb (a b : option (list (option Z))) : bool :=
  match a, b with
  | Some x, Some y => dims_eqb x y
  | None, None => true
  | _, _ => false
  end.

Definition dtype_eqb (a b : DataType) : bool :=
  if DataType_eq_dec a b then true else false.

Definition constraint_batch_size : Constraint := fun op =>
  match ifm op with
  | None => None
  | Some t =>
      match shape_0 t with
      | None => None
      | Some d => Some (dim_eqb d (Some 1))
      end
  end.

Definition constraint_matching_in_out_types : Constraint := fun op =>
  match ifm op, ofm op with
  | Some i, Some o => Some (dtype_eqb (dtype i) (dtype o))
  | _, _ => None
  end.

Definition constraint_matching_shapes : Constraint := fun op =>
  match ifm op, ofm op with
  | Some i, Some o => Some (shape_eqb (shape i) (shape o))
  | _, _ => None
  end.

Definition constraint_matching_inputs_types : Constraint := fun op =>
  match ifm op, ifm2 op with
  | Some i, Some i2 => Some (dtype_eqb (dtype i) (dtype i2))
  | _, _ => None
  end.

Definition constraint_matching_signed : Constraint := fun op =>
  match ifm op, ofm op with
  | Some i, Some o =>
      Some (if is_signed (dtype i) then is_signed (dtype o) else true)
  | _, _ => None
  end.

Definition constraint_unsigned_valid : Constraint := fun op =>
  match ifm op, ofm op with
  | Some i, Some o =>
      Some (if is_unsigned (dtype i)
            then dtype_eqb (dtype i) (dtype o) || dtype_eqb (dtype o) int32
            else true)
  | _, _ => None
  end.

Definition constraint_inputs_int32 : Constraint := fun op =>
  match ifm op, ifm2 op with
  | Some i, Some i2 =>
      Some (dtype_eqb (dtype i) int32 && dtype_eqb (dtype i2) int32)
  | _, _ => None
  end.

Definition constraint_output_int32 : Constraint := fun op =>
  match ofm op with
  | Some o => Some (dtype_eqb (dtype o) int32)
  | None => None
  end.

Definition constraint_elemwise_batch_size : Constraint := fun op =>
  for_all (fun tens =>
             match shape tens with
             | None => None
             | Some shp =>
                 Some (negb ((2 <? List.length shp)%nat
                             && negb (dim_eqb (hd None shp) (Some 1))))
             end)
          (present [ifm op; ifm2 op]).

Definition constraint_matching_either_shapes : Constraint := fun op =>
  match ifm op, ofm op with
  | Some i, Some o =>
      let ifm_shape := shape i in
      let ifm2_shape := match ifm2 op with Some i2 => shape i2 | None => None end in
      let ofm_shape := shape o in
      Some (shape_eqb ifm_shape ofm_shape || shape_eqb ifm2_shape ofm_shape)
  | _, _ => None
  end.

(** [l[-size:]]: the last [size] elements, and the whole list when
    [size] is 0 or exceeds the length. *)
Definition last_n {A : Type} (size : nat) (l : list A) : list A :=
  match size with
  | O => l
  | _ => skipn (List.length l - size) l
  end.

Fixpoint zip3 {A B C : Type} (a : list A) (b : list B) (c : list C)
  : list (A * B * C) :=
  match a, b, c with
  | x :: a', y :: b', z :: c' => (x, y, z) :: zip3 a' b' c'
  | _, _, _ => []
  end.

(** The loop of [constraint_broadcast_shapes]: [max(i, i2)] raises on a
    [None] dimension; the loop breaks at the first invalid triple. *)
Fixpoint broadcast_loop (l : list (option Z * option Z * option Z))
  : option bool :=
  match l with
  | [] => Some true
  | (Some i, Some i2, o) :: rest =>
      let mi := Z.max i i2 in
      if negb ((i =? i2) || (i =? 1) || (i2 =? 1)) || negb (dim_eqb o (Some mi))
      then Some false
      else broadcast_loop rest
  | _ :: _ => None
  end.

Definition constraint_broadcast_shapes : Constraint := fun op =>
  match ifm op, ofm op with
  | Some i, Some o =>
      let ifm_shape := shape i in
      let ifm2_shape := match ifm2 op with Some i2 => shape i2 | None => None end in
      let ofm_shape := shape o in
      match ifm_shape, ifm2_shape with
      | Some s1, Some s2 =>
          let size := Nat.min (List.length s1) (List.length s2) in
          match ofm_shape with
          | None => None
          | Some so =>
              broadcast_loop (zip3 (last_n size s1) (last_n size s2) (last_n size so))
          end
      | _, _ => Some true
      end
  | _, _ => None
  end.

Definition op_is (a b : Op) : bool := if Op_eq_dec a b then true else false.

(** [specific_constraints[op_type]] after [__init__]: every block of
    [__init__] appends its constraints to the list of the operator
    types it ranges over, in this order. *)
Definition specific_constraints (op_type : Op) : list Constraint :=
  let ac := attribute_constraints in
  (if convolution_like_ops op_type then
     [ constraint_stride_type ac; constraint_stride_range ac;
       constraint_dilation_type ac; constraint_dilation_range ac;
       constraint_dilated_height_range ac; constraint_dilated_product_range ac;
       constraint_weights_type; constraint_weights_const;
       constraint_weights_limit ac;
       constraint_bias_type; constraint_bias_40bit; constraint_batch_size ]
   else [])
  ++ (if depthwise_convolution_ops op_type
      then [constraint_depth_multiplier ac] else [])
  ++ (if transpose_convolution_ops op_type
      then [ constraint_tconv_stride ac; constraint_tconv_same ac;
             constraint_tconv_valid ac ]
      else [])
  ++ (if pooling_ops op_type
      then [ constraint_batch_size; constraint_stride_type ac;
             constraint_stride_range ac ]
      else [])
  ++ (if avg_pooling_ops op_type
      then [ constraint_matching_in_out_types; constraint_filter_type ac;
             constraint_filter_range ac;
             constraint_filter_height_range_valid_pad ac;
             constraint_filter_product_range_valid_pad ac ]
      else [])
  ++ (if max_pooling_ops op_type
      then [ constraint_matching_in_out_types; constraint_filter_type ac;
             constraint_filter_height_range ac;
             constraint_filter_product_range ac ]
      else [])
  ++ (if relu_ops op_type then [constraint_quant_scale_inf ac] else [])
  ++ (if resizing_ops op_type then [constraint_resize ac] else [])
  ++ (if fc_vector_products op_type
      then [ constraint_weights_type; constraint_weights_const;
             constraint_bias_type; constraint_bias_40bit ]
      else [])
  ++ (if op_in [Concat; ConcatTFLite] op_type
      then [ constraint_axis_exists ac; constraint_axis_valid ac;
             constraint_matching_dimensionality ac;
             constraint_valid_dimensions ac ]
      else [])
  ++ (if elem_wise_main_ops op_type
      then [constraint_elemwise_batch_size; constraint_matching_either_shapes]
      else [])
  ++ (if unary_elem_wise_main_ops op_type
      then [constraint_matching_in_out_types] else [])
  ++ (if binary_elem_wise_min_max_ops op_type
      then [ constraint_matching_in_out_types;
             constraint_matching_quantization_parameters ac;
             constraint_broadcast_shapes ]
      else [])
  ++ (if binary_elem_wise_add_mul_sub op_type
      then [ constraint_matching_inputs_types; constraint_matching_signed;
             constraint_unsigned_valid; constraint_broadcast_shapes ]
      else [])
  ++ (if binary_elem_wise_shift_ops op_type
      then [constraint_inputs_int32; constraint_broadcast_shapes] else [])
  ++ (if op_is op_type SHL then [constraint_output_int32] else [])
  ++ (if op_is op_type CLZ then [constraint_output_int32] else [])
  ++ (if op_is op_type Softmax
      then [ constraint_matching_shapes; constraint_matching_in_out_types;
             constraint_beta_value_range ac ]
      else [])
  ++ (if op_is op_type SplitV then [constraint_splitv_inferred ac] else [])
  ++ (if op_is op_type StridedSlice
      then [ constraint_stridedslice_input_count ac;
             constraint_stridedslice_inputs_const ac;
             constraint_stridedslice_stride_values ac;
             constraint_ellipsis_mask ac; constraint_axis_masks ac;
             constraint_slice_ranges ac ]
      else [])
  ++ (if op_is op_type LeakyRelu then [constraint_alpha_valid ac] else []).

(** The loop of [is_operator_supported]: the first constraint that is
    not valid ends it. *)
Fixpoint check_constraints (constraints : list Constraint) (op : Operation)
  : option bool :=
  match constraints with
  | [] => Some true
  | constraint :: rest =>
      match constraint op with
      | Some true => check_constraints rest op
      | other => other
      end
  end.

Definition is_operator_supported (op : Operation) : option bool :=
  if negb (supported_operators (type op)) then Some false
  else check_constraints (generic_constraints ++ specific_constraints (type op)) op.

End Sets.

(** *** What the spec asks of an accepted operator's tensors *)

Definition dtype_supported (tens : Tensor) : Prop :=
  In (dtype tens) [uint8; int8; int16; int32].

(** A quantization record with a scale, all of whose components are
    finite. *)
Definition finite_scale (tens : Tensor) : Prop :=
  exists q scale,
    quantization tens = Some q /\ scale_f32 q = Some scale
    /\ Forall (fun f => exists m e, f = Finite m e) scale.

(** A quantization record whose scale, if there is one, has no
    infinite component. *)
Definition no_infinite_scale (tens : Tensor) : Prop :=
  exists q,
    quantization tens = Some q
    /\ forall scale, scale_f32 q = Some scale -> existsb isinf scale = false.

Definition dims_in_range (tens : Tensor) : Prop :=
  exists shp,
    shape tens = Some shp
    /\ Forall (fun d => exists dim, d = Some dim /\ 1 <= dim <= 65535) shp.

Definition rank_at_most_4 (tens : Tensor) : Prop :=
  exists shp, shape tens = Some shp /\ (List.length shp <= 4)%nat.

(** Shapes whose dimensions are all integers. *)
Definition defined (shp : list Z) : option (list (option Z)) :=
  Some (map Some shp).

(** The rule for one aligned dimension of a binary element-wise
    operator: the input dimensions are equal or one of them is 1, and
    the output dimension is the larger of the two. *)
Definition broadcast_dim (i i2 o : Z) : Prop :=
  (i = i2 \/ i = 1 \/ i2 = 1) /\ o = Z.max i i2.

(** The rule along every aligned trailing dimension: [k] counts the
    dimensions from the last one. *)
Definition broadcast_trailing (ifm_shape ifm2_shape ofm_shape : list Z) : Prop :=
  forall k,
    (k < Nat.min (List.length ifm_shape) (List.length ifm2_shape))%nat ->
    broadcast_dim (nth k (rev ifm_shape) 0) (nth k (rev ifm2_shape) 0)
                  (nth k (rev ofm_shape) 0).

(** Three integer dimensions as the checker finds them in shapes. *)
Definition lift_dims (t : Z * Z * Z) : option Z * option Z * option Z :=
  let '(i, i2, o) := t in (Some i, Some i2, Some o).

End SupportedOperators.

(** Operators used to run the checker. *)
Module SupportedExamples.
Import SupportedOperators.

(** The members of the [Op.op_set] families among the operator kinds
    above. *)
Definition is_maxpool_op : Op -> bool := op_in [MaxPool].
Definition is_avgpool_op : Op -> bool := op_in [AvgPool].
Definition is_unary_elementwise_op : Op -> bool := op_in [CLZ; LeakyRelu].
Definition is_relu_op : Op -> bool := op_in [Relu].

Definition attribute_ok : Constraint := fun _ => Some true.

Definition attribute_constraints : AttributeConstraints :=
  mkAttributeConstraints
    attribute_ok attribute_ok attribute_ok attribute_ok attribute_ok
    attribute_ok attribute_ok attribute_ok attribute_ok attribute_ok
    attribute_ok attribute_ok attribute_ok attribute_ok attribute_ok
    attribute_ok attribute_ok attribute_ok attribute_ok attribute_ok
    attribute_ok attribute_ok attribute_ok attribute_ok attribute_ok
    attribute_ok attribute_ok attribute_ok attribute_ok attribute_ok
    attribute_ok attribute_ok attribute_ok.

Definition supported : Operation -> option bool :=
  is_operator_supported is_maxpool_op is_avgpool_op
    is_unary_elementwise_op is_relu_op attribute_constraints.

(** Scale 1.0, zero point 0. *)
Definition quant : QuantizationParameters := mkQuant (Some [Finite 1 0]) [0].
Definition quant_nan : QuantizationParameters := mkQuant (Some [NaN]) [0].

Definition feature_map (shp : list Z) (d : DataType) : Tensor :=
  mkTensor (defined shp) d None None (Some quant) 0.

Definition const_tensor (shp : list Z) (d : DataType) (vals : list Z) : Tensor :=
  mkTensor (defined shp) d (Some vals) (Some vals) (Some quant) 0.

(** A fully connected layer with inputs [ifm, weights, bias], the bias
    being an [int64] constant. *)
Definition fc_ifm : Tensor := feature_map [1; 2] uint8.
Definition fc_weights : Tensor := const_tensor [2; 2] uint8 [1; 2; 3; 4].
Definition fc_bias : Tensor := const_tensor [2] int64 [5; -6].
Definition fc_ofm : Tensor := feature_map [1; 2] uint8.

Definition fc_op : Operation :=
  mkOperation FullyConnected
    [Some fc_ifm; Some fc_weights; Some fc_bias] [Some fc_ofm]
    (Some fc_ifm) None (Some fc_weights) (Some fc_bias) (Some fc_ofm) None.

(** [create_elemwise_op] of the tests: a binary operator on two feature
    maps. *)
Definition elemwise_op (t : Op) (ifm_shape ifm2_shape ofm_shape : list Z)
  : Operation :=
  let i := feature_map ifm_shape uint8 in
  let i2 := feature_map ifm2_shape uint8 in
  let o := feature_map ofm_shape uint8 in
  mkOperation t [Some i; Some i2] [Some o]
              (Some i) (Some i2) None None (Some o) None.

(** An [Add] whose first input has a NaN quantization scale. *)
Definition nan_ifm : Tensor :=
  mkTensor (defined [1; 4]) uint8 None None (Some quant_nan) 0.

Definition nan_add : Operation :=
  let i2 := feature_map [1; 4] uint8 in
  let o := feature_map [1; 4] uint8 in
  mkOperation Add [Some nan_ifm; Some i2] [Some o]
              (Some nan_ifm) (Some i2) None None (Some o) None.

End SupportedExamples.

(* ================================================================= *)
(** ** pass_packing.py *)

(** The outcome of code that may raise: [Raise] carries the failed
    assertion or the name of the exception; [OutOfFuel] belongs to the
    model only, whose recursion is bounded by a counter. *)
Inductive Result (A : Type) : Type :=
| Ok (a : A)
| Raise (what : string)
| OutOfFuel.
Arguments Ok {A} a.
Arguments Raise {A} what.
Arguments OutOfFuel {A}.

Module PassFlags.
Definition Empty : Z := 0.
Definition Pre : Z := 1.
Definition Main : Z := 2.
Definition Post : Z := 4.
Definition Mac : Z := 8.
Definition Dma : Z := 32.
Definition ElementWise : Z := 256.
Definition Npu : Z := 512.
Definition Cpu : Z := 1024.
Definition StartupInit : Z := 2048.
Definition MemoryOnly : Z := 4096.
Definition PostFusingLimited : Z := 8192.
End PassFlags.

(** The sets of operator type names. *)
Module OpNames.
Local Open Scope string_scope.

(** [x in ops_set] for a set of operator type names. *)
Definition mem (x : string) (ops_set : list string) : bool :=
  existsb (String.eqb x) ops_set.

Definition npu_pre_ops : list string :=
  ["QuantizedResizeBilinear"; "SplitSliceRead"].

Definition mac_main_ops : list string :=
  [ "Conv2DBiasAct"; "Conv2D"; "QuantizedConv2D";
    "Conv2DBackpropInputSwitched";
    "DepthwiseConv2dBiasAct"; "DepthwiseConv2dNative";
    "QuantizedDepthwiseConv2D";
    "QuantizedMatMul"; "MatMul"; "FullyConnectedAct";
    "BlockLSTM";
    "QuantizedMaxPool"; "QuantizedAvgPool"; "AvgPool"; "MaxPool";
    "AvgPoolAct"; "MaxPoolAct" ].

Definition binary_elem_wise_main_ops : list string :=
  [ "AddAct"; "MulAct"; "SubAct"; "QuantizedAdd"; "QuantizedSub";
    "QuantizedMul"; "Mul"; "Add"; "Sub"; "Minimum"; "Maximum" ].

Definition unary_elem_wise_main_ops : list string := ["LeakyRelu"; "Abs"].

Definition elem_wise_main_ops : list string :=
  (binary_elem_wise_main_ops ++ unary_elem_wise_main_ops)%list.

Definition activation_ops : list string :=
  ["QuantizedRelu"; "QuantizedRelu1"; "QuantizedRelu6"; "Relu"; "Relu6";
   "ReluN1To1"].

Definition npu_post_ops : list string :=
  (activation_ops ++
   ["Mul"; "Add"; "QuantizedBiasAdd"; "Requantize"; "QuantizedBatchNorm";
    "BiasAdd"; "FusedBatchNorm"])%list.

Definition npu_post_fuse_limited_ops : list string :=
  ["ConcatSliceWrite"; "Sigmoid"; "Tanh"].

Definition elem_wise_ops : list string :=
  (elem_wise_main_ops ++ activation_ops ++ ["Sigmoid"; "Tanh"])%list.

Definition quantization_ops : list string :=
  ["Dequantize"; "QuantizeV2"; "Max"; "Min"].

Definition cpu_ops : list string :=
  (["Softmax"; "QuantizedSoftmax"; "LRN"; "Shape"; "QuantizedPad"; "Pad";
    "AddN"]
   ++ quantization_ops)%list.

Definition npu_dma_ops : list string := ["DMA"].
Definition startup_init_ops : list string :=
  ["Const"; "VariableV2"; "Placeholder"; "SubgraphInput"].
Definition memory_only_ops : list string :=
  ["Squeeze"; "Reshape"; "QuantizedReshape"; "ExpandDims"].

End OpNames.

Module PassPacking.
Import OpNames.

Inductive NpuBlockType : Type :=
| Default | ConvolutionMxN | ConvolutionDepthWise | Pooling
| ElementWise | ReduceSum | VectorProduct.

Definition NpuBlockType_eqb (a b : NpuBlockType) : bool :=
  match a, b with
  | Default, Default | ConvolutionMxN, ConvolutionMxN
  | ConvolutionDepthWise, ConvolutionDepthWise | Pooling, Pooling
  | ElementWise, ElementWise | ReduceSum, ReduceSum
  | VectorProduct, VectorProduct => true
  | _, _ => false
  end.

Inductive PassPlacement : Type :=
| Unknown | Cpu | Npu | MemoryOnly | StartupInit.

(** [flags & mask], as a truth value. *)
Definition has (flags mask : Z) : bool := negb (Z.land flags mask =? 0).

(** A row of [test_sequence]; [operation_set = None] is the fallback. *)
Record Row : Type := mkRow {
  operation_set : option (list string);
  incompatible_pack_flags : Z;
  flags_to_set : Z;
  flags_to_clear : Z
}.

Definition test_sequence : list Row :=
  let lor := Z.lor in
  [ mkRow (Some npu_post_ops)
      (lor (lor (lor PassFlags.Cpu PassFlags.MemoryOnly) PassFlags.Pre) PassFlags.Main)
      (lor PassFlags.Npu PassFlags.Post)
      PassFlags.Empty;
    mkRow (Some npu_post_fuse_limited_ops)
      (lor (lor (lor PassFlags.Cpu PassFlags.MemoryOnly) PassFlags.Pre) PassFlags.Main)
      (lor PassFlags.Npu PassFlags.PostFusingLimited)
      PassFlags.Empty;
    mkRow (Some mac_main_ops)
      (lor (lor (lor (lor (lor PassFlags.Cpu PassFlags.MemoryOnly)
                          PassFlags.ElementWise) PassFlags.Pre) PassFlags.Main)
           PassFlags.PostFusingLimited)
      (lor (lor PassFlags.Npu PassFlags.Mac) PassFlags.Main)
      PassFlags.Empty;
    mkRow (Some elem_wise_main_ops)
      (lor (lor (lor (lor (lor PassFlags.Cpu PassFlags.MemoryOnly)
                          PassFlags.Mac) PassFlags.Pre) PassFlags.Main)
           PassFlags.PostFusingLimited)
      (lor (lor PassFlags.Npu PassFlags.ElementWise) PassFlags.Main)
      PassFlags.Empty;
    mkRow (Some npu_pre_ops)
      (lor PassFlags.Cpu PassFlags.MemoryOnly)
      (lor (lor (lor PassFlags.Npu PassFlags.Mac) PassFlags.Pre) PassFlags.ElementWise)
      PassFlags.Empty;
    mkRow (Some npu_dma_ops)
      (lor PassFlags.Cpu PassFlags.MemoryOnly)
      (lor PassFlags.Npu PassFlags.Dma)
      PassFlags.Empty;
    mkRow (Some startup_init_ops)
      (lor (lor PassFlags.Npu PassFlags.Cpu) PassFlags.MemoryOnly)
      (lor PassFlags.StartupInit PassFlags.Main)
      PassFlags.Empty;
    mkRow (Some memory_only_ops)
      (lor PassFlags.Npu PassFlags.Cpu)
      (lor PassFlags.MemoryOnly PassFlags.Main)
      PassFlags.Empty;
    mkRow (Some cpu_ops)
      (lor (lor PassFlags.Npu PassFlags.MemoryOnly) PassFlags.Main)
      (lor PassFlags.Cpu PassFlags.Main)
      PassFlags.Empty;
    mkRow None
      (lor (lor PassFlags.Npu PassFlags.MemoryOnly) PassFlags.Main)
      (lor PassFlags.Cpu PassFlags.Main)
      PassFlags.Empty ].

(** *** The graph

    Operations and tensors are objects on a heap.  The packer reads
    an operation's [type], [run_on_npu] and [attrs["npu_block_type"]]
    and its input and output lists; of a tensor it reads [purpose],
    [ops] (the producers) and [consumer_list], whose entries are
    operations or [None].  Names are left out.  Input lists hold
    tensors: a [None] input would raise at [len(inp.ops)]. *)
Record Operation : Type := mkOperation {
  type : string;
  run_on_npu : bool;
  attr_npu_block_type : option NpuBlockType;
  inputs : list ObjId;
  outputs : list ObjId
}.

Record Tensor : Type := mkTensor {
  purpose : Lut.TensorPurpose;
  ops : list ObjId;
  consumer_list : list (option ObjId)
}.

(** Objects [0 .. n_ops - 1] and [0 .. n_tensors - 1] are allocated. *)
Record Graph : Type := mkGraph {
  op : ObjId -> Operation;
  tens : ObjId -> Tensor;
  n_ops : nat;
  n_tensors : nat
}.

(** [Pass], without its name and the weight and scale tensors, which
    [build_pass] gets from methods of [nn_graph.py]; the back pointer
    [op.scheduled_pass] is left out as well. *)
Record Pass : Type := mkPass {
  placement : PassPlacement;
  is_element_wise : bool;
  npu_block_type : NpuBlockType;
  ps_ops : list ObjId;
  primary_op : option ObjId;
  ps_inputs : list ObjId;
  intermediates : list ObjId;
  ps_outputs : list ObjId;
  ifm_tensor : option ObjId;
  ifm2_tensor : option ObjId;
  ofm_tensor : option ObjId
}.

Definition id_in (x : ObjId) (l : list ObjId) : bool := existsb (Nat.eqb x) l.

(** [s.add(x)] on a set kept as a list without repetition. *)
Definition set_add (x : ObjId) (s : list ObjId) : list ObjId :=
  if id_in x s then s else s ++ [x].

Definition is_some_id (o : option ObjId) (x : ObjId) : bool :=
  match o with Some y => Nat.eqb y x | None => false end.

(** *** The [while to_process] loop of [build_pass] *)

Record LoopState : Type := mkLoop {
  to_process : list (ObjId * option ObjId);
  reverse_ops_list : list ObjId;
  curr_flags : Z;
  loop_npu_block_type : NpuBlockType;
  loop_primary_op : option ObjId;
  loop_ifm_tensor : option ObjId;
  reverse_intermediates : list ObjId;
  input_set : list ObjId
}.

(** The first row that the [for ... in test_sequence] loop does not skip:
    the operator type is in the row's set (or the row is the fallback),
    the accumulated flags are compatible, and a row that sets [Npu]
    needs [run_on_npu]. *)
Definition row_applies (ty : string) (on_npu : bool) (flags : Z) (r : Row) : bool :=
  match operation_set r with None => true | Some s => mem ty s end
  && negb (has flags (incompatible_pack_flags r))
  && (if has (flags_to_set r) PassFlags.Npu then on_npu else true).

Definition find_row (ty : string) (on_npu : bool) (flags : Z) : option Row :=
  find (row_applies ty on_npu flags) test_sequence.

(** The decision taken for one input of a packed operator: [Some next_op]
    when the producer can join the pass. *)
Definition can_pack (g : Graph) (curr_op inp : ObjId) : option ObjId :=
  match ops (tens g inp) with
  | [next_op] =>
      if forallb
           (fun outp =>
              let consumers := consumer_list (tens g outp) in
              negb ((1 <? List.length consumers)%nat
                    || ((List.length consumers =? 1)%nat
                        && negb (is_some_id (hd None consumers) curr_op))))
           (outputs (op g next_op))
      then Some next_op else None
  | _ => None
  end.

(** [for inp in curr_op.inputs]. *)
Fixpoint pack_inputs (g : Graph) (curr_op : ObjId) (inps : list ObjId)
         (to_proc : list (ObjId * option ObjId)) (in_set : list ObjId)
  : list (ObjId * option ObjId) * list ObjId :=
  match inps with
  | [] => (to_proc, in_set)
  | inp :: rest =>
      match can_pack g curr_op inp with
      | Some next_op =>
          pack_inputs g curr_op rest (to_proc ++ [(next_op, Some inp)]) in_set
      | None =>
          pack_inputs g curr_op rest to_proc (set_add inp in_set)
      end
  end.

Definition assert_block_type : string :=
  "assert npu_block_type == NpuBlockType.Default"%string.
Definition assert_primary_none : string := "assert primary_op is None"%string.
Definition assert_has_input : string := "assert len(curr_op.inputs) >= 1"%string.
Definition assert_feature_map : string :=
  "assert ifm_tensor.purpose == TensorPurpose.FeatureMap"%string.
Definition assert_tens : string := "assert tens is not None"%string.
Definition assert_placement_unknown : string :=
  "assert placement == PassPlacement.Unknown"%string.
Definition assert_placement_known : string :=
  "assert placement != PassPlacement.Unknown"%string.
Definition assert_ofm : string :=
  "assert ps.placement != PassPlacement.Npu or ps.ofm_tensor is not None"%string.
Definition assert_tensor_refcount : string :=
  "assert visit_tensor_refcount[tens] <= len(tens.consumers())"%string.
Definition assert_op_refcount : string :=
  "assert visit_op_refcount[op] <= len(op.outputs)"%string.
Definition index_error : string := "IndexError"%string.
Definition key_error : string := "KeyError"%string.

(** The IFM chosen when a row sets [Npu] and one of [Mac], [ElementWise],
    [Post], [PostFusingLimited]. *)
Definition pick_ifm (g : Graph) (curr_op : ObjId) : Result ObjId :=
  let o := op g curr_op in
  if (List.length (inputs o) <? 1)%nat then Raise assert_has_input
  else
    match nth_error (inputs o) (if String.eqb (type o) "BlockLSTM"%string then 3 else 0) with
    | None => Raise index_error
    | Some ifm =>
        if Lut.TensorPurpose_eqb (purpose (tens g ifm)) Lut.FeatureMap
        then Ok ifm else Raise assert_feature_map
    end.

(** One iteration, after [to_process.popleft()] gave [(curr_op, tens)]. *)
Definition process (g : Graph) (curr_op : ObjId) (tens_ : option ObjId)
           (ls : LoopState) : Result LoopState :=
  if id_in curr_op (reverse_ops_list ls) then Ok ls
  else
    let o := op g curr_op in
    match find_row (type o) (run_on_npu o) (curr_flags ls) with
    | None =>
        match tens_ with
        | None => Raise assert_tens
        | Some t =>
            Ok (mkLoop (to_process ls) (reverse_ops_list ls) (curr_flags ls)
                       (loop_npu_block_type ls) (loop_primary_op ls)
                       (loop_ifm_tensor ls) (reverse_intermediates ls)
                       (set_add t (input_set ls)))
        end
    | Some r =>
        let ops1 := reverse_ops_list ls ++ [curr_op] in
        let new_block_type :=
          match attr_npu_block_type o with Some b => b | None => Default end in
        let block :=
          if NpuBlockType_eqb new_block_type Default
          then Ok (loop_npu_block_type ls, loop_primary_op ls)
          else if negb (NpuBlockType_eqb (loop_npu_block_type ls) Default)
               then Raise assert_block_type
               else match loop_primary_op ls with
                    | Some _ => Raise assert_primary_none
                    | None => Ok (new_block_type, Some curr_op)
                    end in
        match block with
        | Raise what => Raise what
        | OutOfFuel => OutOfFuel
        | Ok (block_type1, primary1) =>
            let flags1 :=
              Z.lor (Z.land (curr_flags ls) (Z.lnot (flags_to_clear r)))
                    (flags_to_set r) in
            let ifm :=
              if has (flags_to_set r) PassFlags.Npu
                 && has (flags_to_set r)
                        (Z.lor (Z.lor (Z.lor PassFlags.Mac PassFlags.ElementWise)
                                      PassFlags.Post) PassFlags.PostFusingLimited)
              then match pick_ifm g curr_op with
                   | Ok t => Ok (Some t)
                   | Raise what => Raise what
                   | OutOfFuel => OutOfFuel
                   end
              else Ok (loop_ifm_tensor ls) in
            match ifm with
            | Raise what => Raise what
            | OutOfFuel => OutOfFuel
            | Ok ifm1 =>
                let intermediates1 :=
                  if has (flags_to_set r) PassFlags.Dma
                  then match tens_ with
                       | Some t => reverse_intermediates ls ++ [t]
                       | None => reverse_intermediates ls
                       end
                  else reverse_intermediates ls in
                let '(to_proc1, in_set1) :=
                  pack_inputs g curr_op (inputs o) (to_process ls) (input_set ls) in
                Ok (mkLoop to_proc1 ops1 flags1 block_type1 primary1 ifm1
                           intermediates1 in_set1)
            end
        end
    end.

Definition pop (ls : LoopState) (rest : list (ObjId * option ObjId)) : LoopState :=
  mkLoop rest (reverse_ops_list ls) (curr_flags ls) (loop_npu_block_type ls)
         (loop_primary_op ls) (loop_ifm_tensor ls) (reverse_intermediates ls)
         (input_set ls).

Fixpoint build_pass_loop (fuel : nat) (g : Graph) (ls : LoopState)
  : Result LoopState :=
  match to_process ls with
  | [] => Ok ls
  | (curr_op, tens_) :: rest =>
      match fuel with
      | O => OutOfFuel
      | S fuel' =>
          match process g curr_op tens_ (pop ls rest) with
          | Ok ls' => build_pass_loop fuel' g ls'
          | other => other
          end
      end
  end.

Definition start_loop (start_ops_to_process : list ObjId) : LoopState :=
  mkLoop (map (fun start_op => (start_op, None)) start_ops_to_process)
         [] PassFlags.Empty Default None None [] [].

(** *** The rest of [build_pass] *)

Definition bind {A B : Type} (c : Result A) (k : A -> Result B) : Result B :=
  match c with
  | Ok a => k a
  | Raise what => Raise what
  | OutOfFuel => OutOfFuel
  end.

Notation "x <- c ;; k" := (bind c (fun x => k))
  (at level 61, c at next level, right associativity).

(** [if curr_flags & flag: assert placement == Unknown; placement = p]. *)
Definition assign_placement (flags flag : Z) (p : PassPlacement)
           (placement_ : PassPlacement) : Result PassPlacement :=
  if has flags flag then
    match placement_ with
    | Unknown => Ok p
    | _ => Raise assert_placement_unknown
    end
  else Ok placement_.

Definition choose_placement (flags : Z) : Result PassPlacement :=
  p1 <- assign_placement flags PassFlags.Npu Npu Unknown ;;
  p2 <- assign_placement flags PassFlags.Cpu Cpu p1 ;;
  p3 <- assign_placement flags PassFlags.MemoryOnly MemoryOnly p2 ;;
  p4 <- assign_placement flags PassFlags.StartupInit StartupInit p3 ;;
  match p4 with
  | Unknown => Raise assert_placement_known
  | _ => Ok p4
  end.

(** The flags after the loop: a pass with [Npu] and neither
    [ElementWise] nor [Mac] goes to the element-wise unit. *)
Definition final_flags (flags : Z) : Z :=
  if has flags PassFlags.Npu
     && negb (has flags (Z.lor PassFlags.ElementWise PassFlags.Mac))
  then Z.lor flags PassFlags.ElementWise
  else flags.

Definition is_synthesis_trigger (ty : string) : bool :=
  mem ty (npu_pre_ops ++ npu_post_ops ++ npu_post_fuse_limited_ops).

(** The mutation made by [create_primary_op] for [op = ops_list[0]]
    and [inp = op.inputs[0]]: a new [AvgPool] operation and a clone of
    [inp] for its output take the next free identifiers; [inp] gets the
    new operation as a consumer, the clone gets [op], and the first
    input of [op] becomes the clone.  The new operation has
    [run_on_npu] as [Operation.__init__] sets it. *)
Definition splice_avgpool (g : Graph) (op_ inp : ObjId) : Graph :=
  let avgpool_op := n_ops g in
  let avgpool_out := n_tensors g in
  let t_inp := tens g inp in
  let tens1 :=
    upd (tens g) inp
        (mkTensor (purpose t_inp) (ops t_inp)
                  (consumer_list t_inp ++ [Some avgpool_op])) in
  let tens2 :=
    upd tens1 avgpool_out (mkTensor (purpose t_inp) [avgpool_op] [Some op_]) in
  let op1 :=
    upd (op g) avgpool_op
        (mkOperation "AvgPool"%string true (Some Pooling) [inp] [avgpool_out]) in
  let o := op1 op_ in
  let op2 :=
    upd op1 op_
        (mkOperation (type o) (run_on_npu o) (attr_npu_block_type o)
                     (avgpool_out :: tl (inputs o)) (outputs o)) in
  mkGraph op2 tens2 (S (n_ops g)) (S (n_tensors g)).

(** [create_primary_op]: returns the graph after the mutation, the
    [ops_list] after the insertion, and the new operation. *)
Definition create_primary_op (g : Graph) (ops_list : list ObjId)
  : Result (Graph * list ObjId * option ObjId) :=
  if existsb (fun o => is_synthesis_trigger (type (op g o))) ops_list then
    match ops_list with
    | [] => Raise index_error
    | op_ :: _ =>
        match inputs (op g op_) with
        | [] => Raise index_error
        | inp :: _ =>
            Ok (splice_avgpool g op_ inp, n_ops g :: ops_list, Some (n_ops g))
        end
    end
  else Ok (g, ops_list, None).

(** [input_refcounts], a dictionary in insertion order. *)
Fixpoint refcount_incr (inp : ObjId) (d : list (ObjId * nat))
  : list (ObjId * nat) :=
  match d with
  | [] => [(inp, 1%nat)]
  | (k, n) :: rest =>
      if Nat.eqb k inp then (k, S n) :: rest else (k, n) :: refcount_incr inp rest
  end.

(** The loop that fills [ordered_input_list] and [input_refcounts]: the
    keys of the dictionary, in order, are the ordered input list. *)
Definition count_inputs (g : Graph) (ops_list in_set : list ObjId)
  : list (ObjId * nat) :=
  fold_left
    (fun d o =>
       fold_left (fun d inp => if id_in inp in_set then refcount_incr inp d else d)
                 (inputs (op g o)) d)
    ops_list [].

(** What [build_pass] hands back to the traversal. *)
Record Built : Type := mkBuilt {
  built_graph : Graph;
  built_refcount : ObjId -> nat;
  built_pass : Pass;
  built_input_refcounts : list (ObjId * nat)
}.

(** [if primary_op == None: primary_op = create_primary_op(ops_list)]
    and what follows it: the graph, [ops_list], [primary_op],
    [visit_tensor_refcount], [npu_block_type] and [input_set]
    afterwards. *)
Definition synthesize_primary (g : Graph) (visit_tensor_refcount : ObjId -> nat)
           (ls : LoopState) (ops_list : list ObjId)
  : Result (Graph * list ObjId * option ObjId * (ObjId -> nat)
            * NpuBlockType * list ObjId) :=
  match loop_primary_op ls with
  | Some p =>
      Ok (g, ops_list, Some p, visit_tensor_refcount,
          loop_npu_block_type ls, input_set ls)
  | None =>
      created <- create_primary_op g ops_list ;;
      let '(g1, ops_list1, primary) := created in
      match primary with
      | None =>
          Ok (g1, ops_list1, None, visit_tensor_refcount,
              loop_npu_block_type ls, input_set ls)
      | Some p =>
          match inputs (op g1 p), attr_npu_block_type (op g1 p) with
          | [], _ => Raise index_error
          | _, None => Raise key_error
          | inp0 :: _, Some block_type =>
              Ok (g1, ops_list1, Some p,
                  upd visit_tensor_refcount inp0 (S (visit_tensor_refcount inp0)),
                  block_type,
                  fold_left (fun s t => set_add t s) (inputs (op g1 p))
                            (input_set ls))
          end
      end
  end.

(** From [ordered_input_list = []] to the end of [build_pass], the
    visits of the inputs apart. *)
Definition make_pass (g1 : Graph) (refcount1 : ObjId -> nat) (ls : LoopState)
           (placement_ : PassPlacement) (is_element_wise_ : bool)
           (ops_list1 : list ObjId) (primary : option ObjId)
           (block_type : NpuBlockType) (in_set : list ObjId)
           (ofm_tensor_ : option ObjId) : Result Built :=
  let input_refcounts := count_inputs g1 ops_list1 in_set in
  let ordered_input_list := map fst input_refcounts in
  let intermediates_ := rev (reverse_intermediates ls) in
  match ops_list1 with
  | [] => Raise index_error
  | _ :: _ =>
      let outputs_ := outputs (op g1 (last ops_list1 0%nat)) in
      ifms <-
        match primary with
        | Some p =>
            if mem (type (op g1 p)) binary_elem_wise_main_ops then
              match ordered_input_list with
              | [] => Raise index_error
              | [i0] => Ok (Some i0, Some i0)
              | i0 :: i1 :: _ => Ok (Some i0, Some i1)
              end
            else Ok (loop_ifm_tensor ls, None)
        | None => Ok (loop_ifm_tensor ls, None)
        end ;;
      match placement_, ofm_tensor_ with
      | Npu, None => Raise assert_ofm
      | _, _ =>
          Ok (mkBuilt g1 refcount1
                (mkPass placement_ is_element_wise_ block_type ops_list1 primary
                        ordered_input_list intermediates_ outputs_
                        (fst ifms) (snd ifms) ofm_tensor_)
                input_refcounts)
      end
  end.

Definition build_pass_body (fuel : nat) (g : Graph)
           (visit_tensor_refcount : ObjId -> nat)
           (start_ops_to_process : list ObjId) (ofm_tensor_ : option ObjId)
  : Result Built :=
  ls <- build_pass_loop fuel g (start_loop start_ops_to_process) ;;
  let flags := final_flags (curr_flags ls) in
  let is_element_wise_ :=
    forallb (fun o => mem (type (op g o)) elem_wise_ops
                      || mem (type (op g o)) npu_dma_ops)
            (reverse_ops_list ls) in
  placement_ <- choose_placement flags ;;
  let ops_list := rev (reverse_ops_list ls) in
  synth <- synthesize_primary g visit_tensor_refcount ls ops_list ;;
  let '(g1, ops_list1, primary, refcount1, block_type, in_set) := synth in
  make_pass g1 refcount1 ls placement_ is_element_wise_ ops_list1 primary
            block_type in_set ofm_tensor_.

(** *** The traversal *)

Record PackState : Type := mkPackState {
  graph : Graph;
  visit_op_refcount : ObjId -> nat;
  visit_tensor_refcount : ObjId -> nat;
  startup_list : list ObjId;
  reverse_pass_list : list Pass
}.

Inductive Call : Type :=
| VisitTensor (tens_ : ObjId)
| VisitOp (op_ : ObjId)
| BuildPass (start_ops_to_process : list ObjId) (ofm_tensor_ : option ObjId).

(** A [for] loop whose body may raise. *)
Fixpoint for_each {A S : Type} (body : A -> S -> Result S) (l : list A) (s : S)
  : Result S :=
  match l with
  | [] => Ok s
  | x :: rest => s' <- body x s ;; for_each body rest s'
  end.

Section Traversal.
(** The OFM that [op.get_ifm_ifm2_weights_ofm()] returns; the method is
    defined in [operation.py]. *)
Variable get_ofm : Graph -> ObjId -> option ObjId.

(** [visit_tensor], [visit_op] and [build_pass] call each other; [fuel]
    bounds the depth of the calls and the iterations of the loop of
    [build_pass]. *)
Fixpoint run (fuel : nat) (c : Call) (st : PackState) : Result PackState :=
  match fuel with
  | O => OutOfFuel
  | S fuel' =>
      match c with
      | VisitTensor tens_ =>
          let count := S (visit_tensor_refcount st tens_) in
          let st1 :=
            mkPackState (graph st) (visit_op_refcount st)
                        (upd (visit_tensor_refcount st) tens_ count)
                        (startup_list st) (reverse_pass_list st) in
          let consumers := consumer_list (tens (graph st) tens_) in
          if (List.length consumers <? count)%nat then Raise assert_tensor_refcount
          else if (count =? List.length consumers)%nat then
            for_each (fun op_ => run fuel' (VisitOp op_))
                     (rev (ops (tens (graph st) tens_))) st1
          else Ok st1
      | VisitOp op_ =>
          let g := graph st in
          let count1 := S (visit_op_refcount st op_) in
          let count :=
            if (count1 =? 1)%nat then
              (count1
               + List.length
                   (filter (fun t => (List.length (consumer_list (tens g t)) =? 0)%nat)
                           (outputs (op g op_))))%nat
            else count1 in
          let st1 :=
            mkPackState g (upd (visit_op_refcount st) op_ count)
                        (visit_tensor_refcount st)
                        (startup_list st) (reverse_pass_list st) in
          if (List.length (outputs (op g op_)) <? count)%nat
          then Raise assert_op_refcount
          else if (count =? List.length (outputs (op g op_)))%nat then
            if mem (type (op g op_)) startup_init_ops then
              Ok (mkPackState g (visit_op_refcount st1) (visit_tensor_refcount st1)
                              (startup_list st1 ++ [op_]) (reverse_pass_list st1))
            else
              match (match get_ofm g op_ with
                     | Some t => Some t
                     | None => hd_error (outputs (op g op_))
                     end) with
              | None => Raise index_error
              | Some ofm => run fuel' (BuildPass [op_] (Some ofm)) st1
              end
          else Ok st1
      | BuildPass start_ops_to_process ofm_tensor_ =>
          b <- build_pass_body fuel' (graph st) (visit_tensor_refcount st)
                               start_ops_to_process ofm_tensor_ ;;
          let st1 :=
            mkPackState (built_graph b) (visit_op_refcount st) (built_refcount b)
                        (startup_list st)
                        (reverse_pass_list st ++ [built_pass b]) in
          for_each (fun inp => run fuel' (VisitTensor inp))
                   (flat_map (fun e => repeat (fst e) (snd e))
                             (built_input_refcounts b))
                   st1
      end
  end.

(** [startup_ps.outputs = [op.outputs[0] for op in startup_list]]. *)
Fixpoint first_outputs (g : Graph) (ops_ : list ObjId) : Result (list ObjId) :=
  match ops_ with
  | [] => Ok []
  | o :: rest =>
      match outputs (op g o) with
      | [] => Raise index_error
      | t :: _ => ts <- first_outputs g rest ;; Ok (t :: ts)
      end
  end.

Definition set_outputs (ps : Pass) (outs : list ObjId) : Pass :=
  mkPass (placement ps) (is_element_wise ps) (npu_block_type ps) (ps_ops ps)
         (primary_op ps) (ps_inputs ps) (intermediates ps) outs
         (ifm_tensor ps) (ifm2_tensor ps) (ofm_tensor ps).

Fixpoint update_nth {A : Type} (n : nat) (f : A -> A) (l : list A) : list A :=
  match n, l with
  | _, [] => []
  | O, x :: rest => f x :: rest
  | S n', x :: rest => x :: update_nth n' f rest
  end.

(** The body of [for sg in nng.subgraphs]: the graph after packing and
    [sg.passes].  [build_pass] is given [startup_list] as it is when
    the outputs have been visited; the outputs of the startup pass are
    read from [startup_list] as it is after [build_pass]. *)
Definition pack_subgraph (fuel : nat) (g : Graph) (output_tensors : list ObjId)
  : Result (Graph * list Pass) :=
  let st0 := mkPackState g (fun _ => O) (fun _ => O) [] [] in
  st <- for_each (fun t => run fuel (VisitTensor t)) output_tensors st0 ;;
  st' <-
    match startup_list st with
    | [] => Ok st
    | _ :: _ =>
        let startup_ps := List.length (reverse_pass_list st) in
        st2 <- run fuel (BuildPass (startup_list st) None) st ;;
        outs <- first_outputs (graph st2) (startup_list st2) ;;
        Ok (mkPackState (graph st2) (visit_op_refcount st2)
                        (visit_tensor_refcount st2) (startup_list st2)
                        (update_nth startup_ps (fun ps => set_outputs ps outs)
                                    (reverse_pass_list st2)))
    end ;;
  Ok (graph st', rev (reverse_pass_list st')).

(** [pack_into_passes]: a network is its graph and the output tensors
    of its subgraphs; the result is the graph and the passes of every
    subgraph. *)
Fixpoint pack_into_passes (fuel : nat) (g : Graph) (subgraphs : list (list ObjId))
  : Result (Graph * list (list Pass)) :=
  match subgraphs with
  | [] => Ok (g, [])
  | output_tensors :: rest =>
      r <- pack_subgraph fuel g output_tensors ;;
      r' <- pack_into_passes fuel (fst r) rest ;;
      Ok (fst r', snd r :: snd r')
  end.

End Traversal.

(** *** Vocabulary for the properties of the packer *)

(** The heap is well formed: the producers of every tensor are
    allocated operations, and the inputs of allocated operations are
    allocated tensors. *)
Definition wf_graph (g : Graph) : Prop :=
  (forall t o, In o (ops (tens g t)) -> (o < n_ops g)%nat)
  /\ (forall o t, (o < n_ops g)%nat -> In t (inputs (op g o)) ->
                  (t < n_tensors g)%nat).

(** The number of allocated operations that list [t] among their
    inputs. *)
Definition listing_count (g : Graph) (t : ObjId) : nat :=
  List.length (filter (fun o => id_in t (inputs (op g o))) (seq 0 (n_ops g))).

Definition consumer_count (g : Graph) (t : ObjId) : nat :=
  List.length (consumer_list (tens g t)).

(** The equation of the data model, for every allocated tensor. *)
Definition consumers_match (g : Graph) : Prop :=
  forall t, (t < n_tensors g)%nat -> consumer_count g t = listing_count g t.

(** [evolves g0 g]: [g] comes from [g0] by primary-op syntheses. *)
Inductive evolves (g0 : Graph) : Graph -> Prop :=
| evolves_refl : evolves g0 g0
| evolves_splice g op_ inp rest :
    evolves g0 g ->
    (op_ < n_ops g)%nat ->
    inputs (op g op_) = inp :: rest ->
    evolves g0 (splice_avgpool g op_ inp).

Definition carries_block_typeb (g : Graph) (o : ObjId) : bool :=
  match attr_npu_block_type (op g o) with
  | Some b => negb (NpuBlockType_eqb b Default)
  | None => false
  end.

(** What holds of the primary op of a pass.  If an operation of the
    pass carries a non-default [npu_block_type] or has a pre, post or
    post-fusing-limited type, the pass has a primary op: an operation
    of the pass whose [npu_block_type], not [Default], is that of the
    pass, and the only operation of the pass that carries one.
    Otherwise there is no primary op. *)
Definition primary_op_spec (g : Graph) (ps : Pass) : Prop :=
  if existsb (fun o => carries_block_typeb g o
                       || is_synthesis_trigger (type (op g o))) (ps_ops ps)
  then exists p,
      primary_op ps = Some p /\ In p (ps_ops ps)
      /\ attr_npu_block_type (op g p) = Some (npu_block_type ps)
      /\ npu_block_type ps <> Default
      /\ (forall o, In o (ps_ops ps) -> o <> p -> carries_block_typeb g o = false)
  else primary_op ps = None.

(** A pass as the packer leaves it in a graph [g]. *)
Definition pass_ok (g : Graph) (ps : Pass) : Prop :=
  Forall (fun o => (o < n_ops g)%nat) (ps_ops ps) /\ primary_op_spec g ps.

(** The invariant of the loop of [build_pass]: queued and packed
    operations are allocated, and [primary_op] is the one packed
    operation that carries a block type. *)
Definition loop_ok (g : Graph) (ls : LoopState) : Prop :=
  Forall (fun e => (fst e < n_ops g)%nat) (to_process ls)
  /\ Forall (fun o => (o < n_ops g)%nat) (reverse_ops_list ls)
  /\ match loop_primary_op ls with
     | Some p =>
         In p (reverse_ops_list ls)
         /\ attr_npu_block_type (op g p) = Some (loop_npu_block_type ls)
         /\ loop_npu_block_type ls <> Default
         /\ (forall o, In o (reverse_ops_list ls) -> o <> p ->
                       carries_block_typeb g o = false)
     | None =>
         loop_npu_block_type ls = Default
         /\ (forall o, In o (reverse_ops_list ls) ->
                       carries_block_typeb g o = false)
     end.

(** The invariant of the traversal, started on the graph [g0]. *)
Definition pack_inv (g0 : Graph) (st : PackState) : Prop :=
  wf_graph (graph st)
  /\ evolves g0 (graph st)
  /\ Forall (fun o => (o < n_ops (graph st))%nat
                      /\ mem (type (op (graph st) o)) startup_init_ops = true)
            (startup_list st)
  /\ Forall (pass_ok (graph st)) (reverse_pass_list st).

(** The operations a call starts from are allocated. *)
Definition call_ok (g : Graph) (c : Call) : Prop :=
  match c with
  | VisitTensor _ => True
  | VisitOp o => (o < n_ops g)%nat
  | BuildPass start_ops _ => Forall (fun o => (o < n_ops g)%nat) start_ops
  end.

(** An operation added to [g] on the way to [g']: an average pool. *)
Definition synthesized (g g' : Graph) (a : ObjId) : Prop :=
  (n_ops g <= a < n_ops g')%nat /\ type (op g' a) = "AvgPool"%string.

(** What syntheses do to consumer lists.  The consumer list of a
    tensor of [g] is, in [g'], the list it had followed by added
    average pools: nothing is removed.  The number of operations
    listing the tensor does not decrease and grows by at most the
    number of average pools appended.  The consumer list of a tensor
    added to [g] is one operation, the one re-routed to it, followed by
    added average pools; at least one operation lists it, and at most
    as many as its consumer list is long. *)
Definition consumers_kept (g g' : Graph) : Prop :=
  (forall t, (t < n_tensors g)%nat ->
     exists added,
       consumer_list (tens g' t)
       = consumer_list (tens g t) ++ map Some added
       /\ Forall (synthesized g g') added
       /\ (listing_count g t <= listing_count g' t
           <= listing_count g t + List.length added)%nat)
  /\ (forall t, (n_tensors g <= t < n_tensors g')%nat ->
       exists op_ added,
         consumer_list (tens g' t) = Some op_ :: map Some added
         /\ Forall (synthesized g g') added
         /\ (1 <= listing_count g' t <= 1 + List.length added)%nat).

(** Exactly one of the flags [Npu], [Cpu], [MemoryOnly], [StartupInit]. *)
Definition one_placement_flag (flags : Z) : bool :=
  match has flags PassFlags.Npu, has flags PassFlags.Cpu,
        has flags PassFlags.MemoryOnly, has flags PassFlags.StartupInit with
  | true, false, false, false
  | false, true, false, false
  | false, false, true, false
  | false, false, false, true => true
  | _, _, _, _ => false
  end.

(** The flags after a row is applied. *)
Definition apply_row (flags : Z) (r : Row) : Z :=
  Z.lor (Z.land flags (Z.lnot (flags_to_clear r))) (flags_to_set r).

(** The flags of a pass grown from an operator that is not a startup
    operator: one of [Npu], [Cpu], [MemoryOnly], and not [StartupInit]. *)
Definition placed_flags (flags : Z) : bool :=
  one_placement_flag flags && negb (has flags PassFlags.StartupInit).

(** All flags lie below [2 ^ 14].  [flags_check f] tests that a
    compatible row keeps [placed_flags] and the bound, and that
    [final_flags] keeps [one_placement_flag]; [flags_closed] runs the
    test on every value below the bound. *)
Definition flags_bound : Z := 16384.

Definition flags_check (f : Z) : bool :=
  forallb
    (fun r =>
       implb (placed_flags f && negb (has f (incompatible_pack_flags r)))
             (placed_flags (apply_row f r)
              && (0 <=? apply_row f r) && (apply_row f r <? flags_bound)))
    test_sequence
  && implb (one_placement_flag f) (one_placement_flag (final_flags f)).

(** The integers [z, z + 1, ..., z + n - 1]. *)
Fixpoint zrange (n : nat) (z : Z) : list Z :=
  match n with
  | O => []
  | S n' => z :: zrange n' (z + 1)
  end.

Definition flags_closed : bool :=
  forallb flags_check (zrange (Z.to_nat flags_bound) 0).

(** The flags of the startup pass. *)
Definition startup_flags : Z := Z.lor PassFlags.StartupInit PassFlags.Main.

(** The two ways [pack_into_passes] calls [build_pass]: on one operator
    that is not a startup operator, or on the list of the startup
    operators. *)
Definition single_start (g : Graph) (start_ops : list ObjId) : Prop :=
  exists o, start_ops = [o] /\ mem (type (op g o)) startup_init_ops = false.

Definition startup_start (g : Graph) (start_ops : list ObjId) : Prop :=
  start_ops <> []
  /\ Forall (fun o => mem (type (op g o)) startup_init_ops = true
                      /\ inputs (op g o) = []) start_ops.

(** The invariants of the loop of [build_pass] on the flags, in the two
    cases. *)
Definition single_inv (g : Graph) (ls : LoopState) : Prop :=
  (placed_flags (curr_flags ls) = true /\ 0 <= curr_flags ls < flags_bound)
  \/ (curr_flags ls = PassFlags.Empty /\ reverse_ops_list ls = []
      /\ exists o t rest,
           to_process ls = (o, t) :: rest
           /\ mem (type (op g o)) startup_init_ops = false).

Definition startup_inv (g : Graph) (ls : LoopState) : Prop :=
  Forall (fun e => mem (type (op g (fst e))) startup_init_ops = true
                   /\ inputs (op g (fst e)) = []) (to_process ls)
  /\ ((curr_flags ls = PassFlags.Empty /\ reverse_ops_list ls = []
       /\ to_process ls <> [])
      \/ curr_flags ls = startup_flags).

(** Startup operators ([Const], [VariableV2], [Placeholder],
    [SubgraphInput]) have no inputs. *)
Definition startup_ops_have_no_inputs (g : Graph) : Prop :=
  forall o, mem (type (op g o)) startup_init_ops = true -> inputs (op g o) = [].

(** [build_pass] is called in one of the two ways. *)
Definition call_start (g : Graph) (c : Call) : Prop :=
  match c with
  | BuildPass start_ops _ => single_start g start_ops \/ startup_start g start_ops
  | _ => True
  end.

(** The two assertions on [placement] in [build_pass]. *)
Definition placement_assertion (what : string) : bool :=
  String.eqb what assert_placement_unknown
  || String.eqb what assert_placement_known.

(** The outcome is not a failure of an assertion on [placement]. *)
Definition no_placement_failure {A : Type} (r : Result A) : Prop :=
  match r with
  | Raise what => placement_assertion what = false
  | _ => True
  end.

(** [extends g g']: [g'] has the operations and tensors of [g] and
    more.  An operation of [g] keeps its type, [run_on_npu], block
    type, outputs and every input but possibly the first; a tensor of
    [g] keeps its purpose and producers, and its consumer list grows at
    the end; an added operation is an [AvgPool] of block type
    [Pooling] with one input and one output. *)
Definition extends (g g' : Graph) : Prop :=
  (n_ops g <= n_ops g')%nat /\ (n_tensors g <= n_tensors g')%nat
  /\ (forall o, (o < n_ops g)%nat ->
        type (op g' o) = type (op g o)
        /\ run_on_npu (op g' o) = run_on_npu (op g o)
        /\ attr_npu_block_type (op g' o) = attr_npu_block_type (op g o)
        /\ outputs (op g' o) = outputs (op g o)
        /\ List.length (inputs (op g' o)) = List.length (inputs (op g o))
        /\ tl (inputs (op g' o)) = tl (inputs (op g o)))
  /\ (forall t, (t < n_tensors g)%nat ->
        purpose (tens g' t) = purpose (tens g t)
        /\ ops (tens g' t) = ops (tens g t)
        /\ exists added,
             consumer_list (tens g' t) = consumer_list (tens g t) ++ added)
  /\ (forall o, (n_ops g <= o < n_ops g')%nat ->
        type (op g' o) = "AvgPool"%string
        /\ attr_npu_block_type (op g' o) = Some Pooling
        /\ List.length (inputs (op g' o)) = 1%nat
        /\ List.length (outputs (op g' o)) = 1%nat).

End PassPacking.

(** Graphs used to run the packer. *)
Module PassExamples.
Import PassPacking.

Definition get_ofm (g : Graph) (o : ObjId) : option ObjId :=
  hd_error (outputs (op g o)).

Definition no_op : Operation := mkOperation "Unused"%string false None [] [].
Definition no_tensor : Tensor := mkTensor Lut.Unknown [] [].

Definition graph_of (operations : list Operation) (tensors : list Tensor) : Graph :=
  mkGraph (fun o => nth o operations no_op) (fun t => nth t tensors no_tensor)
          (List.length operations) (List.length tensors).

(** Placeholder -> t0 -> Relu -> t1 -> Softmax -> t2; the subgraph
    output is t1. *)
Definition relu_graph : Graph :=
  graph_of
    [ mkOperation "Placeholder"%string false None [] [0%nat];
      mkOperation "Relu"%string true None [0%nat] [1%nat];
      mkOperation "Softmax"%string false None [1%nat] [2%nat] ]
    [ mkTensor Lut.FeatureMap [0%nat] [Some 1%nat];
      mkTensor Lut.FeatureMap [1%nat] [Some 2%nat];
      mkTensor Lut.FeatureMap [2%nat] [] ].

(** Placeholder -> t0 -> Relu -> t1, the subgraph output, whose only
    consumer is the graph: [None]. *)
Definition relu_output_graph : Graph :=
  graph_of
    [ mkOperation "Placeholder"%string false None [] [0%nat];
      mkOperation "Relu"%string true None [0%nat] [1%nat] ]
    [ mkTensor Lut.FeatureMap [0%nat] [Some 1%nat];
      mkTensor Lut.FeatureMap [1%nat] [None] ].

(** Const -> t0 -> DMA -> t1, read by two convolutions whose outputs t2
    and t3 are the subgraph outputs; the graph is their [None]
    consumer. *)
Definition dma_graph : Graph :=
  graph_of
    [ mkOperation "Const"%string false None [] [0%nat];
      mkOperation "DMA"%string true None [0%nat] [1%nat];
      mkOperation "Conv2D"%string true (Some ConvolutionMxN) [1%nat] [2%nat];
      mkOperation "Conv2D"%string true (Some ConvolutionMxN) [1%nat] [3%nat] ]
    [ mkTensor Lut.Weights [0%nat] [Some 1%nat];
      mkTensor Lut.FeatureMap [1%nat] [Some 2%nat; Some 3%nat];
      mkTensor Lut.FeatureMap [2%nat] [None];
      mkTensor Lut.FeatureMap [3%nat] [None] ].

(** Reshape -> t0 -> Placeholder -> t1: a startup operator with an
    input. *)
Definition fed_placeholder_graph : Graph :=
  graph_of
    [ mkOperation "Placeholder"%string false None [0%nat] [1%nat];
      mkOperation "Reshape"%string false None [] [0%nat] ]
    [ mkTensor Lut.FeatureMap [1%nat] [Some 0%nat];
      mkTensor Lut.FeatureMap [0%nat] [None] ].

End PassExamples.

(* ================================================================= *)
(** ** tensor.py: shapes *)

Module TensorShapes.

(** A shape is [None] or a list of dimensions, each an integer or
    [None]. *)
Definition Shape : Type := list (option Z).

(** The loop of [shape_num_elements], [elems] being the product so
    far. *)
Fixpoint num_elements_loop (elems : Z) (shp : Shape) : option Z :=
  match shp with
  | [] => Some elems
  | None :: _ => None
  | Some d :: rest => num_elements_loop (elems * d) rest
  end.

Definition shape_num_elements (shp : option Shape) : option Z :=
  match shp with
  | None => None
  | Some dims => num_elements_loop 1 dims
  end.

Definition shape_fully_defined (shp : option Shape) : bool :=
  match shp with
  | None => false
  | Some dims =>
      forallb (fun d => match d with None => false | Some _ => true end) dims
  end.

(** [Tensor.elements] and [Tensor.storage_elements]. *)
Definition elements (shp : option Shape) : Z :=
  match shape_num_elements shp with
  | None => 0
  | Some elems => elems
  end.

Section RoundToQuantum.
(** [numeric_util.round_up] is defined outside the sources. *)
Variable round_up : Z -> Z -> Z.

(** [shape_round_to_quantum] walks [new_shp[i]] and [quantum[i]] for
    [i = -1, -2, ...]: both lists from the end.  [None] is the
    [IndexError] of [quantum[i]] when [quantum] is shorter than the
    shape at a dimension that is not [None]. *)
Fixpoint round_from_end (shp_rev : Shape) (quantum_rev : list Z)
  : option Shape :=
  match shp_rev with
  | [] => Some []
  | None :: rest =>
      option_map (cons None) (round_from_end rest (tl quantum_rev))
  | Some d :: rest =>
      match quantum_rev with
      | [] => None
      | q :: quantum_rest =>
          option_map (cons (Some (round_up d q)))
                     (round_from_end rest quantum_rest)
      end
  end.

Definition shape_round_to_quantum (shp : Shape) (quantum : list Z)
  : option Shape :=
  option_map (@rev (option Z)) (round_from_end (rev shp) (rev quantum)).

End RoundToQuantum.

Inductive TensorSubPurpose : Type :=
| Standard | DoubleBuffer | RollingBufferX | RollingBufferY | RollingBufferXY.

(** What a method returns or raises. *)
Inductive Outcome (A : Type) : Type :=
| Value (a : A)
| AssertionError
| TypeError.
Arguments Value {A} a.
Arguments AssertionError {A}.
Arguments TypeError {A}.

(** [min(a, b)] on dimensions or parameters that may be [None]. *)
Definition py_min (a b : option Z) : Outcome (option Z) :=
  match a, b with
  | Some x, Some y => Value (Some (Z.min x y))
  | _, _ => TypeError
  end.

(** [param_a * 2]. *)
Definition double (a : option Z) : option Z :=
  match a with Some x => Some (x * 2) | None => None end.

(** [Tensor.storage_shape_for_sub_purpose], as a function of
    [self.storage_shape]. *)
Definition storage_shape_for_sub_purpose (storage_shape : Shape)
           (sub_purpose : TensorSubPurpose) (param_a param_b : option Z)
  : Outcome Shape :=
  match sub_purpose with
  | Standard => Value storage_shape
  | DoubleBuffer =>
      if (List.length storage_shape <? 2)%nat then AssertionError
      else
        match rev storage_shape with
        | [] => AssertionError
        | last_dim :: front_rev =>
            match py_min last_dim (double param_a) with
            | Value d => Value (rev (d :: front_rev))
            | AssertionError => AssertionError
            | TypeError => TypeError
            end
        end
  | RollingBufferX =>
      match storage_shape with
      | [_; h; w; c] =>
          match py_min w param_a with
          | Value w' => Value [Some 1; h; w'; c]
          | AssertionError => AssertionError
          | TypeError => TypeError
          end
      | _ => AssertionError
      end
  | RollingBufferY =>
      match storage_shape with
      | [_; h; w; c] =>
          match py_min h param_a with
          | Value h' => Value [Some 1; h'; w; c]
          | AssertionError => AssertionError
          | TypeError => TypeError
          end
      | _ => AssertionError
      end
  | RollingBufferXY =>
      match storage_shape with
      | [_; h; w; c] =>
          match py_min w param_a with
          | Value w' =>
              match py_min h param_b with
              | Value h' => Value [Some 1; h'; w'; c]
              | AssertionError => AssertionError
              | TypeError => TypeError
              end
          | AssertionError => AssertionError
          | TypeError => TypeError
          end
      | _ => AssertionError
      end
  end.

End TensorShapes.

(* ================================================================= *)
(** ** api.py: data types *)

Module NpuDataTypes.

(** [NpuDataType]: the value of a member is
    [(size in bits, signed, auto())]. *)
Inductive NpuDataType : Type := UINT8 | INT8 | UINT16 | INT16 | INT32.

Definition is_signed (d : NpuDataType) : bool :=
  match d with
  | UINT8 | UINT16 => false
  | INT8 | INT16 | INT32 => true
  end.

Definition size_in_bits (d : NpuDataType) : Z :=
  match d with
  | UINT8 | INT8 => 8
  | UINT16 | INT16 => 16
  | INT32 => 32
  end.

Definition size_in_bytes (d : NpuDataType) : Z := size_in_bits d / 8.

Definition min_value (d : NpuDataType) : Z :=
  if is_signed d then - Z.shiftl 1 (size_in_bits d - 1) else 0.

Definition max_value (d : NpuDataType) : Z :=
  if is_signed d then Z.shiftl 1 (size_in_bits d - 1) - 1
  else Z.shiftl 1 (size_in_bits d) - 1.

End NpuDataTypes.
(* ================================================================= *)
(** * Properties *)

(** ** api.py *)

Lemma encode_version_major (major minor : Z) :
  Api.version_major (Api.encode_version major minor) = major.
Proof.
  unfold Api.version_major, Api.encode_version.
  rewrite Z.shiftr_lor, Z.shiftr_shiftl_l, Z.sub_diag, Z.shiftl_0_r by lia.
  replace (Z.shiftr (Z.land minor 65535) 16) with 0; [apply Z.lor_0_r|].
  symmetry. apply Z.bits_inj'. intros n Hn.
  rewrite Z.shiftr_spec, Z.land_spec, Z.bits_0 by lia.
  change 65535 with (Z.ones 16).
  rewrite Z.ones_spec_high by lia. apply andb_false_r.
Qed.

Lemma encode_version_minor (major minor : Z) :
  0 <= minor < 65536 ->
  Api.version_minor (Api.encode_version major minor) = minor.
Proof.
  intros Hm. unfold Api.version_minor, Api.encode_version.
  rewrite Z.land_comm, Z.land_lor_distr_l.
  change 65535 with (Z.ones 16).
  rewrite !Z.land_ones by lia.
  rewrite Z.shiftl_mul_pow2 by lia.
  rewrite Z.mod_mul by lia.
  rewrite Z.mod_mod by lia. rewrite Z.lor_0_l.
  apply Z.mod_small. change (2 ^ 16) with 65536. lia.
Qed.

(** C10: [npu_get_API_version] returns
    [(major << 16) | (minor & 0xFFFF)].  For every major version and
    every minor version below [2 ^ 16], shifting that value right by
    16 gives back the major version and masking it with [0xFFFF] the
    minor version; when the major version is below [2 ^ 16] as well,
    the value has 32 bits. *)
Theorem npu_get_API_version_round_trip major minor :
  0 <= minor < 2 ^ 16 ->
  Z.shiftr (Api.encode_version major minor) 16 = major
  /\ Z.land (Api.encode_version major minor) 65535 = minor
  /\ (0 <= major < 2 ^ 16 -> 0 <= Api.encode_version major minor < 2 ^ 32).
Proof.
  intros Hminor.
  pose proof (encode_version_major major minor) as Hmajor.
  pose proof (encode_version_minor major minor Hminor) as Hlow.
  unfold Api.version_major, Api.version_minor in *.
  rewrite Z.land_comm in Hlow.
  split; [exact Hmajor |]. split; [exact Hlow |]. intros Hmaj.
  rewrite Z.shiftr_div_pow2 in Hmajor by lia.
  change 65535 with (Z.ones 16) in Hlow. rewrite Z.land_ones in Hlow by lia.
  pose proof (Z.div_mod (Api.encode_version major minor) (2 ^ 16)
                        ltac:(lia)) as Hdiv.
  rewrite Hmajor, Hlow in Hdiv. lia.
Qed.

(** The version of the module: major 1, minor 0. *)
Lemma npu_get_API_version_round_trip_witness :
  0 <= Api.API_version_minor < 2 ^ 16
  /\ Z.shiftr Api.npu_get_API_version 16 = Api.API_version_major
  /\ Z.land Api.npu_get_API_version 65535 = Api.API_version_minor
  /\ (0 <= Api.API_version_major < 2 ^ 16 ->
      0 <= Api.npu_get_API_version < 2 ^ 32).
Proof.
  split; [vm_compute; split; congruence |].
  apply (npu_get_API_version_round_trip Api.API_version_major
                                        Api.API_version_minor).
  vm_compute. split; congruence.
Defined.
(** ** lut.py *)

Module LutFacts.
Import Lut.

Lemma overlaps_sym s1 e1 s2 e2 : overlaps s1 e1 s2 e2 = overlaps s2 e2 s1 e1.
Proof. unfold overlaps. apply andb_comm. Qed.

Lemma overlaps_false_disjoint s1 e1 s2 e2 x :
  overlaps s1 e1 s2 e2 = false -> ~ (s1 <= x < e1 /\ s2 <= x < e2).
Proof.
  unfold overlaps. intros H [H1 H2].
  apply andb_false_iff in H. destruct H as [H | H]; apply Z.ltb_ge in H; lia.
Qed.

Lemma upd_same {A} (h : ObjId -> A) k v : upd h k v k = v.
Proof. unfold upd. now rewrite Nat.eqb_refl. Qed.

Lemma upd_other {A} (h : ObjId -> A) k v k' : k' <> k -> upd h k v k' = h k'.
Proof. unfold upd. intros H. apply Nat.eqb_neq in H. now rewrite H. Qed.

Lemma NoDup_map_inj {A B} (f : A -> B) l a b :
  NoDup (map f l) -> In a l -> In b l -> f a = f b -> a = b.
Proof.
  induction l as [| x l IH]; simpl; [tauto|].
  intros Hnd Ha Hb Hab. inversion Hnd as [| ? ? Hx Hl]; subst.
  destruct Ha as [-> | Ha], Hb as [-> | Hb]; auto.
  - exfalso. apply Hx. rewrite Hab. now apply in_map.
  - exfalso. apply Hx. rewrite <- Hab. now apply in_map.
Qed.

Lemma NoDup_map_filter {A B} (f : A -> B) p l :
  NoDup (map f l) -> NoDup (map f (filter p l)).
Proof.
  induction l as [| x l IH]; simpl; auto.
  intros Hnd. inversion Hnd as [| ? ? Hx Hl]; subst.
  destruct (p x); simpl; auto.
  constructor; auto.
  intros Hin. apply Hx. apply in_map_iff in Hin.
  destruct Hin as (y & Hy & Hin). apply filter_In in Hin.
  rewrite <- Hy. apply in_map. tauto.
Qed.

Section Tensors.
Variable purpose : ObjId -> TensorPurpose.
Variable equivalence_id : ObjId -> nat.
Variable storage_size : ObjId -> Z.

Local Notation rewrite_cmd :=
  (Lut.rewrite_cmd purpose equivalence_id storage_size).
Local Notation rewrite_cmds :=
  (Lut.rewrite_cmds purpose equivalence_id storage_size).
Local Notation elides := (Lut.elides purpose).
Local Notation lut_inv := (Lut.lut_inv equivalence_id storage_size).
Local Notation nr_overlaps := (Lut.nr_overlaps storage_size).
Local Notation overlap_of address t1 t2 :=
  (overlaps (address t1) (address t1 + storage_size t1)
            (address t2) (address t2 + storage_size t2)).

(** *** The rewritten stream *)

Lemma rewrite_cmd_stream arch st cmd st' :
  rewrite_cmd arch st cmd = Some st' ->
  cmd_stream st' = cmd_stream st ++ [cmd]
  \/ (cmd_stream st' = cmd_stream st /\ is_lut_dma purpose cmd = true).
Proof.
  unfold Lut.rewrite_cmd.
  destruct cmd as [p | p i lut_tens]; simpl.
  - intros [= <-]. now left.
  - destruct (TensorPurpose_eqb (purpose lut_tens) LUT) eqn:Hp; simpl.
    + destruct (get_equivalent _ _ _) as [existing |].
      * destruct (primary_op p); [| discriminate].
        destruct (get_lut_index _ _ _ _); [| discriminate].
        intros [= <-]. now right.
      * destruct (find_best_address _ _ _ _ _ _); [| discriminate].
        destruct (primary_op p); [| discriminate].
        intros [= <-]. now left.
    + intros [= <-]. now left.
Qed.

Lemma rewrite_cmds_elides arch cmds : forall st st',
  rewrite_cmds arch st cmds = Some st' ->
  exists out, cmd_stream st' = cmd_stream st ++ out /\ elides cmds out.
Proof.
  induction cmds as [| cmd cmds IH]; simpl; intros st st' H.
  - injection H as <-. exists []. split; [now rewrite app_nil_r | constructor].
  - destruct (Lut.rewrite_cmd purpose equivalence_id storage_size arch st cmd)
      as [st1 |] eqn:Hcmd; [| discriminate].
    apply IH in H. destruct H as (out & Hout & Hel).
    apply rewrite_cmd_stream in Hcmd. destruct Hcmd as [Hk | [Hd Hlut]].
    + exists (cmd :: out). rewrite Hout, Hk, <- app_assoc. split; auto.
      now constructor.
    + exists out. rewrite Hout, Hd. split; auto.
      now apply elides_drop.
Qed.

(** C9: the command stream left by [optimize_high_level_cmd_stream]
    is the original one with some commands removed; every removed
    command is a DMA whose output tensor has purpose LUT, and the
    others are kept as they are, in their original order. *)
Theorem optimize_stream_elides arch address0 lut_index0 cmds st :
  optimize_high_level_cmd_stream purpose equivalence_id storage_size
    arch address0 lut_index0 cmds = Some st ->
  elides cmds (cmd_stream st).
Proof.
  unfold optimize_high_level_cmd_stream. intros H.
  apply rewrite_cmds_elides in H. destruct H as (out & Hout & Hel).
  simpl in Hout. now rewrite Hout.
Qed.

(** *** The resident LUTs *)

Lemma lut_inv_nil address : lut_inv address [].
Proof. split; constructor. Qed.

Lemma lut_inv_ext address address' tensors :
  (forall t, In t tensors -> address' t = address t) ->
  lut_inv address tensors -> lut_inv address' tensors.
Proof.
  intros Hext [Hnd Hfop]. split; auto.
  induction Hfop as [| t l Hall Hfop IH]; constructor.
  - rewrite Forall_forall in *. intros t2 Ht2.
    rewrite !Hext by (simpl; auto). auto.
  - apply IH.
    + intros t' Ht'. apply Hext. now right.
    + simpl in Hnd. now inversion Hnd.
Qed.

Lemma get_equivalent_some tensors lut_tens t :
  get_equivalent equivalence_id tensors lut_tens = Some t ->
  In t tensors /\ equivalence_id t = equivalence_id lut_tens.
Proof.
  unfold get_equivalent. intros H. apply find_some in H.
  unfold equivalent in H. now rewrite Nat.eqb_eq in H.
Qed.

Lemma get_equivalent_none tensors lut_tens t :
  get_equivalent equivalence_id tensors lut_tens = None ->
  In t tensors -> equivalence_id t <> equivalence_id lut_tens.
Proof.
  unfold get_equivalent. intros H Hin.
  apply (find_none _ _ H) in Hin.
  unfold equivalent in Hin. now apply Nat.eqb_neq.
Qed.

Lemma put_inv address tensors lut_tens :
  get_equivalent equivalence_id tensors lut_tens = None ->
  lut_inv address tensors ->
  lut_inv address (put storage_size address tensors lut_tens).
Proof.
  intros Hnone [Hnd Hfop]. unfold put. split.
  - simpl. constructor; [| now apply NoDup_map_filter].
    intros Hin. apply in_map_iff in Hin. destruct Hin as (t & Ht & Hin).
    apply filter_In in Hin.
    apply (get_equivalent_none _ _ t Hnone); tauto.
  - constructor.
    + apply Forall_forall. intros t Ht. apply filter_In in Ht.
      destruct Ht as [_ Ht]. now apply negb_true_iff in Ht.
    + clear Hnd Hnone. induction Hfop as [| t l Hall Hfop IH]; simpl.
      * constructor.
      * destruct (negb _); auto. constructor; auto.
        rewrite Forall_forall in *. intros t2 Ht2.
        apply filter_In in Ht2. apply Hall. tauto.
Qed.

Lemma rewrite_cmd_inv arch st cmd st' :
  rewrite_cmd arch st cmd = Some st' ->
  lut_inv (address st) (lut_state st) ->
  lut_inv (address st') (lut_state st').
Proof.
  unfold Lut.rewrite_cmd. intros H Hinv.
  destruct cmd as [p | p i lut_tens]; simpl in H.
  - injection H as <-. simpl.
    destruct (lut_tensor p); auto.
    destruct (_ =? 0); auto using lut_inv_nil.
  - destruct (TensorPurpose_eqb (purpose lut_tens) LUT); simpl in H.
    2: { injection H as <-. auto. }
    destruct (get_equivalent _ _ _) as [existing |] eqn:Heq.
    + destruct (primary_op p); [| discriminate].
      destruct (get_lut_index _ _ _ _); [| discriminate].
      injection H as <-. simpl.
      apply get_equivalent_some in Heq. destruct Heq as [Hin Hid].
      apply lut_inv_ext with (address := address st); auto.
      intros t Ht. destruct (Nat.eq_dec t lut_tens) as [-> | Hne].
      * rewrite upd_same. f_equal.
        apply (NoDup_map_inj equivalence_id (lut_state st)); auto.
        apply Hinv.
      * now apply upd_other.
    + destruct (find_best_address _ _ _ _ _ _) as [addr |]; [| discriminate].
      destruct (primary_op p); [| discriminate].
      injection H as <-. simpl.
      apply put_inv; auto.
      apply lut_inv_ext with (address := address st); auto.
      intros t Ht. apply upd_other. intros ->.
      now apply (get_equivalent_none _ _ _ Heq Ht).
Qed.

Lemma rewrite_cmds_inv arch cmds : forall st st',
  rewrite_cmds arch st cmds = Some st' ->
  lut_inv (address st) (lut_state st) ->
  lut_inv (address st') (lut_state st').
Proof.
  induction cmds as [| cmd cmds IH]; simpl; intros st st' H Hinv.
  - now injection H as <-.
  - destruct (rewrite_cmd arch st cmd) as [st1 |] eqn:Hcmd; [| discriminate].
    eauto using rewrite_cmd_inv.
Qed.

Lemma lut_inv_disjoint address tensors t1 t2 x :
  lut_inv address tensors ->
  In t1 tensors -> In t2 tensors ->
  equivalence_id t1 <> equivalence_id t2 ->
  ~ (in_interval storage_size address t1 x
     /\ in_interval storage_size address t2 x).
Proof.
  intros [_ Hfop] H1 H2 Hne. unfold in_interval.
  destruct (ForallOrdPairs_In Hfop _ _ H1 H2) as [-> | [H | H]].
  - congruence.
  - now apply overlaps_false_disjoint.
  - intros [Ha Hb]. revert H. rewrite overlaps_sym. intros H.
    now apply (overlaps_false_disjoint _ _ _ _ x H).
Qed.

(** C5: in the LUT state reached after any command stream, started
    from the empty state, two resident LUT tensors with distinct
    equivalence ids have no address in common: their half-open
    intervals [[address, address + storage_size)] do not overlap. *)
Theorem reachable_luts_disjoint arch address0 lut_index0 cmds st t1 t2 :
  optimize_high_level_cmd_stream purpose equivalence_id storage_size
    arch address0 lut_index0 cmds = Some st ->
  In t1 (lut_state st) -> In t2 (lut_state st) ->
  equivalence_id t1 <> equivalence_id t2 ->
  overlap_of (address st) t1 t2 = false
  /\ forall x, ~ (in_interval storage_size (address st) t1 x
                  /\ in_interval storage_size (address st) t2 x).
Proof.
  unfold optimize_high_level_cmd_stream. intros H H1 H2 Hne.
  apply rewrite_cmds_inv in H; [| apply lut_inv_nil].
  split; [| intros x; eapply lut_inv_disjoint; eauto].
  destruct H as [_ Hfop].
  destruct (ForallOrdPairs_In Hfop _ _ H1 H2) as [-> | [H | H]];
    [congruence | auto | now rewrite overlaps_sym].
Qed.

(** *** [find_best_address] *)

Lemma range_sorted start step (Hstep : 0 < step) n : forall s,
  StronglySorted Z.lt
    (map (fun k => start + Z.of_nat k * step) (seq s n)).
Proof.
  induction n as [| n IH]; intros s; simpl; constructor; auto.
  apply Forall_forall. intros x Hx. apply in_map_iff in Hx.
  destruct Hx as (k & <- & Hk). apply in_seq in Hk. nia.
Qed.

Lemma range_candidates start stop step l a :
  0 < step ->
  py_range start stop step = Some l ->
  In a l <-> candidate start stop step a.
Proof.
  intros Hstep. unfold py_range, candidate.
  destruct (Z.eqb_spec step 0) as [| _]; [lia|].
  destruct (Z.ltb_spec 0 step) as [_ |]; [| lia].
  intros [= <-]. rewrite in_map_iff.
  set (q := (stop - start + step - 1) / step).
  assert (Hq : forall k, k < q <-> k * step < stop - start).
  { intros k. unfold q. split; intros H.
    - assert (k + 1 <= (stop - start + step - 1) / step) as H1 by lia.
      pose proof (Z.mul_div_le (stop - start + step - 1) step Hstep). nia.
    - assert (k + 1 <= (stop - start + step - 1) / step); [| lia].
      apply Z.div_le_lower_bound; lia. }
  split.
  - intros (k & <- & Hk). apply in_seq in Hk.
    assert (Z.of_nat k < q) as Hkq by lia.
    apply Hq in Hkq. split; [nia|]. exists (Z.of_nat k). lia.
  - intros (Hrange & k & Hk & ->). exists (Z.to_nat k).
    rewrite Z2Nat.id by lia. split; auto. apply in_seq.
    assert (k < q) by (apply Hq; lia). lia.
Qed.

Lemma fold_best_step address tensors step l :
  StronglySorted Z.lt l -> forall best,
  let r := fold_left (best_step storage_size address tensors step) l best in
  (r = best /\ forall x, In x l -> snd best <= nr_overlaps address tensors x step)
  \/ (In (fst r) l
      /\ snd r = nr_overlaps address tensors (fst r) step
      /\ snd r < snd best
      /\ (forall x, In x l ->
            nr_overlaps address tensors (fst r) step
            <= nr_overlaps address tensors x step)
      /\ (forall x, In x l ->
            nr_overlaps address tensors x step
            = nr_overlaps address tensors (fst r) step -> fst r <= x)).
Proof.
  induction 1 as [| a l Hsorted IH Hlt]; intros best; cbv zeta.
  - left. split; auto. intros x [].
  - rewrite Forall_forall in Hlt. simpl fold_left.
    specialize (IH (best_step storage_size address tensors step best a)).
    cbv zeta in IH. revert IH.
    generalize (fold_left (best_step storage_size address tensors step) l
                  (best_step storage_size address tensors step best a)).
    intros r. unfold best_step.
    destruct (Z.ltb_spec (nr_overlaps address tensors a step) (snd best))
      as [Hless | Hge]; simpl;
      intros [[Hr Hall] | (Hin & Hn & Hlt' & Hmin & Htie)].
    + right. subst r. simpl. repeat split; auto.
      * intros x [<- | Hx]; [lia | auto].
      * intros x [<- | Hx] _; [lia |]. specialize (Hlt x Hx). lia.
    + right. repeat split; auto; try lia.
      * intros x [<- | Hx]; [lia | auto].
      * intros x [<- | Hx] Heq; [lia | auto].
    + left. split; auto. intros x [<- | Hx]; auto.
    + right. repeat split; auto.
      * intros x [<- | Hx]; [lia | auto].
      * intros x [<- | Hx] Heq; [lia | auto].
Qed.


(** *** Resident LUTs met by an interval *)





(** *** Reuse of a resident LUT *)

Lemma rewrite_cmd_reuse arch st p i lut_tens existing_tens st' :
  purpose lut_tens = LUT ->
  get_equivalent equivalence_id (lut_state st) lut_tens
  = Some existing_tens ->
  rewrite_cmd arch st (DMA p i lut_tens) = Some st' ->
  cmd_stream st' = cmd_stream st
  /\ address st' lut_tens = address st existing_tens
  /\ exists op, primary_op p = Some op
      /\ lut_index st' op
         = Some ((address st' existing_tens - shram_lut_address arch)
                 / storage_size existing_tens).
Proof.
  intros Hp Heq. unfold Lut.rewrite_cmd. simpl.
  rewrite Hp, Heq. simpl.
  destruct (primary_op p) as [op |]; [| discriminate].
  unfold get_lut_index, py_floordiv.
  destruct (storage_size existing_tens =? 0); [discriminate |].
  destruct (_ && _); [| discriminate].
  intros [= <-]. simpl. rewrite !upd_same.
  split; [reflexivity |]. split; [reflexivity |].
  exists op. split; [reflexivity | apply upd_same].
Qed.

End Tensors.

Import LutExamples.


Lemma optimize_stream_elides_witness :
  exists st,
    optimize_high_level_cmd_stream purpose equivalence_id storage_size
      arch address0 lut_index0 stream = Some st
    /\ Lut.elides purpose stream (cmd_stream st).
Proof.
  eexists. split; [vm_compute; reflexivity |].
  apply (optimize_stream_elides purpose equivalence_id storage_size
           arch address0 lut_index0 stream).
  vm_compute. reflexivity.
Defined.

Lemma reachable_luts_disjoint_witness :
  exists st,
    optimize_high_level_cmd_stream purpose equivalence_id storage_size
      arch address0 lut_index0 stream = Some st
    /\ lut_state st = [1%nat; 0%nat]
    /\ overlaps (address st 1%nat) (address st 1%nat + storage_size 1%nat)
                (address st 0%nat) (address st 0%nat + storage_size 0%nat)
       = false
    /\ forall x, ~ (in_interval storage_size (address st) 1%nat x
                    /\ in_interval storage_size (address st) 0%nat x).
Proof.
  eexists. split; [vm_compute; reflexivity |]. split; [reflexivity |].
  apply (reachable_luts_disjoint purpose equivalence_id storage_size
           arch address0 lut_index0 stream);
    [vm_compute; reflexivity | simpl; auto | simpl; auto | discriminate].
Defined.

(** C2, at a 1024-byte LUT: the third DMA of [stream] brings a table
    equivalent to tensor 1, resident at address 5120.  The DMA is
    dropped and tensor 2 gets address 5120, but [get_lut_index]
    divides by the storage size: the primary op gets [lut_index] 1,
    where [(5120 - 4096) / 256] is 4, the index that the DMA of
    tensor 1 itself stored for the same address. *)
Theorem reused_lut_index_uses_storage_size :
  exists st,
    optimize_high_level_cmd_stream purpose equivalence_id storage_size
      arch address0 lut_index0 stream = Some st
    /\ cmd_stream st
       = [ DMA (mkPass (Some 0%nat) (Some 100%nat)) 20%nat 0%nat;
           NpuStripe (mkPass (Some 0%nat) (Some 100%nat));
           DMA (mkPass (Some 1%nat) (Some 101%nat)) 21%nat 1%nat;
           NpuStripe (mkPass (Some 1%nat) (Some 101%nat));
           NpuStripe (mkPass (Some 2%nat) (Some 102%nat)) ]
    /\ address st 1%nat = 5120
    /\ address st 2%nat = address st 1%nat
    /\ (address st 1%nat - shram_lut_address arch) / 256 = 4
    /\ lut_index st 101%nat = Some 4
    /\ lut_index st 102%nat = Some 1.
Proof.
  eexists. split; [vm_compute; reflexivity |].
  repeat split; vm_compute; reflexivity.
Qed.

End LutFacts.

(** ** lut.py, continued *)

Module LutMore.
Import Lut LutFacts.

Lemma find_filter {A} (p q : A -> bool) l :
  find p (filter q l) = find (fun x => p x && q x) l.
Proof.
  induction l as [| x l IH]; simpl; auto.
  destruct (q x) eqn:Hq; simpl.
  - rewrite andb_true_r. destruct (p x); auto.
  - rewrite andb_false_r. exact IH.
Qed.

Section Tensors.
Variable purpose : ObjId -> TensorPurpose.
Variable equivalence_id : ObjId -> nat.
Variable storage_size : ObjId -> Z.

Local Notation get_equivalent := (Lut.get_equivalent equivalence_id).
Local Notation put := (Lut.put storage_size).
Local Notation find_best_address := (Lut.find_best_address storage_size).
Local Notation nr_overlaps := (Lut.nr_overlaps storage_size).
Local Notation best_step := (Lut.best_step storage_size).

(** Lookup after [put]: a tensor equivalent to the one put finds it;
    any other tensor finds the first equivalent resident tensor that
    the new one does not overlap. *)
Theorem put_get_equivalent address tensors lut_tens q :
  get_equivalent (put address tensors lut_tens) q
  = if equivalent equivalence_id lut_tens q then Some lut_tens
    else find (fun t =>
                 equivalent equivalence_id t q
                 && negb (overlaps (address lut_tens)
                                   (address lut_tens + storage_size lut_tens)
                                   (address t) (address t + storage_size t)))
              tensors.
Proof.
  unfold Lut.get_equivalent, Lut.put. cbn [find].
  destruct (equivalent equivalence_id lut_tens q); [reflexivity |].
  apply find_filter.
Qed.

(** With a positive step [find_best_address] returns [start + k * step]
    for some [k >= 0], and an address below [stop] unless it returns
    [start]. *)
Theorem find_best_address_aligned address tensors start stop step :
  0 < step ->
  exists a k,
    find_best_address address tensors start stop step = Some a
    /\ 0 <= k /\ a = start + k * step /\ (a = start \/ a < stop).
Proof.
  intros Hstep. unfold Lut.find_best_address.
  destruct (py_range start stop step) as [l |] eqn:Hrange.
  2: { unfold py_range in Hrange.
       destruct (Z.eqb_spec step 0); [lia | discriminate]. }
  assert (Hsorted : StronglySorted Z.lt l).
  { unfold py_range in Hrange. destruct (step =? 0); [discriminate |].
    injection Hrange as <-. now apply range_sorted. }
  destruct (fold_best_step storage_size address tensors step l Hsorted
                           (start, stop)) as [[-> _] | (Hin & _)].
  - exists start, 0. simpl. repeat split; auto; lia.
  - apply (range_candidates start stop step l _ Hstep Hrange) in Hin.
    destruct Hin as [[_ Hlt] (k & Hk & Ha)].
    eexists; exists k. repeat split; eauto.
Qed.

Lemma py_range_head start stop step l :
  py_range start stop step = Some l -> l = [] \/ exists l', l = start :: l'.
Proof.
  unfold py_range. destruct (step =? 0); [discriminate |].
  intros [= <-]. destruct (Z.to_nat _) as [| n]; [now left |].
  right. simpl. rewrite Z.add_0_r. eauto.
Qed.

Lemma fold_best_step_fixed address step l a n :
  n <= 0 -> fold_left (best_step address [] step) l (a, n) = (a, n).
Proof.
  intros Hn. induction l as [| x l IH]; simpl; auto.
  unfold Lut.best_step at 2. cbn [snd].
  change (Lut.nr_overlaps storage_size address [] x step) with 0.
  destruct (Z.ltb_spec 0 n); [lia | exact IH].
Qed.

(** Edge cases of [find_best_address]: a zero step raises, as
    [range] does; with no resident LUT the result is [start], for
    every other step and every [stop]. *)
Theorem find_best_address_empty address start stop step :
  find_best_address address [] start stop step
  = if step =? 0 then None else Some start.
Proof.
  unfold Lut.find_best_address.
  destruct (py_range start stop step) as [l |] eqn:Hrange.
  2: { unfold py_range in Hrange. destruct (step =? 0); [auto | discriminate]. }
  assert (Hstep : (step =? 0) = false).
  { unfold py_range in Hrange. destruct (step =? 0); [discriminate | auto]. }
  rewrite Hstep.
  apply py_range_head in Hrange. destruct Hrange as [-> | [l' ->]];
    [reflexivity |].
  cbn [fold_left]. unfold Lut.best_step at 2. cbn [snd].
  change (Lut.nr_overlaps storage_size address [] start step) with 0.
  destruct (Z.ltb_spec 0 stop); rewrite fold_best_step_fixed by (simpl; lia);
    reflexivity.
Qed.

Local Notation rewrite_cmd :=
  (Lut.rewrite_cmd purpose equivalence_id storage_size).
Local Notation rewrite_cmds :=
  (Lut.rewrite_cmds purpose equivalence_id storage_size).
Local Notation optimize_high_level_cmd_stream :=
  (Lut.optimize_high_level_cmd_stream purpose equivalence_id storage_size).

Lemma rewrite_cmds_no_lut arch cmds : forall st,
  forallb (fun cmd => negb (is_lut_dma purpose cmd)) cmds = true ->
  lut_state st = [] ->
  rewrite_cmds arch st cmds
  = Some (mkState (cmd_stream st ++ cmds) [] (address st) (lut_index st)).
Proof.
  induction cmds as [| cmd cmds IH]; intros st Hall Hstate; simpl.
  { rewrite app_nil_r, <- Hstate. now destruct st. }
  simpl in Hall. apply andb_true_iff in Hall. destruct Hall as [Hcmd Hall].
  destruct cmd as [p | p i t]; simpl in *.
  - rewrite IH; simpl; auto.
    + now rewrite <- app_assoc.
    + rewrite Hstate. destruct (lut_tensor p); auto.
      destruct (_ =? 0); auto.
  - rewrite Hcmd. rewrite IH; simpl; auto. now rewrite <- app_assoc.
Qed.

(** A command stream without LUT DMAs comes back as it is: the
    optimization does not raise, keeps every command, and writes no
    address and no [lut_index]. *)
Theorem optimize_without_lut_dma arch address0 lut_index0 cmds :
  forallb (fun cmd => negb (is_lut_dma purpose cmd)) cmds = true ->
  optimize_high_level_cmd_stream arch address0 lut_index0 cmds
  = Some (mkState cmds [] address0 lut_index0).
Proof.
  intros Hall. unfold Lut.optimize_high_level_cmd_stream.
  now rewrite rewrite_cmds_no_lut.
Qed.

Lemma find_best_address_in_range address tensors start stop step a :
  start < stop ->
  find_best_address address tensors start stop step = Some a ->
  start <= a < stop.
Proof.
  intros Hlt Hfind. destruct (Z.lt_trichotomy step 0) as [Hneg | [-> | Hpos]].
  - unfold Lut.find_best_address, py_range in Hfind.
    destruct (Z.eqb_spec step 0); [lia |].
    destruct (Z.ltb_spec 0 step); [lia |].
    replace (Z.to_nat ((start - stop - step - 1) / - step)) with 0%nat
      in Hfind.
    + simpl in Hfind. injection Hfind as <-. lia.
    + assert ((start - stop - step - 1) / - step < 1); [| lia].
      apply Z.div_lt_upper_bound; lia.
  - discriminate Hfind.
  - destruct (find_best_address_aligned address tensors start stop step Hpos)
      as (a' & k & Hfind' & Hk & -> & Hcase).
    rewrite Hfind in Hfind'. injection Hfind' as ->. nia.
Qed.

Lemma rewrite_cmd_region arch st cmd st' :
  0 < shram_lut_size arch ->
  let in_region a :=
    shram_lut_address arch <= a < shram_lut_address arch + shram_lut_size arch in
  rewrite_cmd arch st cmd = Some st' ->
  (forall t, In t (lut_state st) -> in_region (address st t)) ->
  (forall t, in_region (address st t) -> in_region (address st' t))
  /\ (forall t, In t (lut_state st') -> in_region (address st' t))
  /\ (forall p i t, cmd = DMA p i t -> purpose t = LUT ->
                    in_region (address st' t)).
Proof.
  intros Hsize in_region Hcmd Hinv.
  set (lut_state1 :=
         match cmd with
         | NpuStripe p =>
             match lut_tensor p with
             | None => if shram_reserved_unused_banks arch =? 0
                       then [] else lut_state st
             | Some _ => lut_state st
             end
         | DMA _ _ _ => lut_state st
         end).
  assert (Hinv1 : forall t, In t lut_state1 -> in_region (address st t)).
  { subst lut_state1. destruct cmd as [p | p i t]; auto.
    destruct (lut_tensor p); auto. destruct (_ =? 0); auto. intros t []. }
  destruct cmd as [p | p i lut_tens]; simpl in Hcmd.
  { injection Hcmd as <-. simpl. split; auto. split; auto. discriminate. }
  destruct (TensorPurpose_eqb (purpose lut_tens) LUT) eqn:Hpurpose;
    simpl in Hcmd.
  2: { injection Hcmd as <-. simpl. split; auto. split; auto.
       intros p' i' t [= <- <- <-] Hlut. rewrite Hlut in Hpurpose.
       discriminate Hpurpose. }
  destruct (Lut.get_equivalent equivalence_id (lut_state st) lut_tens)
    as [existing_tens |] eqn:Hget.
  - destruct (primary_op p) as [o |]; [| discriminate].
    destruct (get_lut_index _ _ _ _); [| discriminate].
    injection Hcmd as <-. simpl.
    apply get_equivalent_some in Hget. destruct Hget as [Hin _].
    assert (Hupd : forall t, in_region (address st t) ->
              in_region (upd (address st) lut_tens
                             (address st existing_tens) t)).
    { intros t Ht. unfold upd. destruct (Nat.eqb t lut_tens); auto. }
    split; auto. split; auto.
    intros p' i' t [= <- <- <-] _. rewrite upd_same. auto.
  - destruct (find_best_address (address st) (lut_state st) _ _ _)
      as [addr |] eqn:Hfind; [| discriminate].
    destruct (primary_op p) as [o |]; [| discriminate].
    injection Hcmd as <-. simpl.
    apply find_best_address_in_range in Hfind; [| lia].
    assert (Hupd : forall t, in_region (address st t) ->
              in_region (upd (address st) lut_tens addr t)).
    { intros t Ht. unfold upd. destruct (Nat.eqb t lut_tens); auto. }
    split; auto. split.
    + intros t [<- | Ht]; [now rewrite upd_same |].
      apply filter_In in Ht. destruct Ht as [Ht _]. auto.
    + intros p' i' t [= <- <- <-] _. now rewrite upd_same.
Qed.

Lemma rewrite_cmds_region arch cmds :
  0 < shram_lut_size arch ->
  let in_region a :=
    shram_lut_address arch <= a < shram_lut_address arch + shram_lut_size arch in
  forall st st',
  rewrite_cmds arch st cmds = Some st' ->
  (forall t, In t (lut_state st) -> in_region (address st t)) ->
  (forall t, in_region (address st t) -> in_region (address st' t))
  /\ (forall p i t, In (DMA p i t) cmds -> purpose t = LUT ->
                    in_region (address st' t)).
Proof.
  intros Hsize in_region.
  induction cmds as [| cmd cmds IH]; intros st st' Hrun Hinv; simpl in Hrun.
  { injection Hrun as <-. split; auto. intros p i t []. }
  destruct (rewrite_cmd arch st cmd) as [st1 |] eqn:Hcmd; [| discriminate].
  destruct (rewrite_cmd_region arch st cmd st1 Hsize Hcmd Hinv)
    as (Hkeep & Hinv1 & Hnew).
  destruct (IH st1 st' Hrun Hinv1) as (Hkeep' & Hrest).
  split; [intros t Ht; apply Hkeep', Hkeep, Ht |].
  intros p i t [-> | Hin] Hlut; [| eauto].
  apply Hkeep'. eapply Hnew; eauto.
Qed.

(** When the LUT area of SHRAM is not empty, the optimization leaves
    the output tensor of every LUT DMA of the stream, kept or dropped,
    at an address inside that area. *)
Theorem optimize_places_luts_in_shram arch address0 lut_index0 cmds st :
  0 < shram_lut_size arch ->
  optimize_high_level_cmd_stream arch address0 lut_index0 cmds = Some st ->
  forall p i t, In (DMA p i t) cmds -> purpose t = LUT ->
    shram_lut_address arch <= address st t
    < shram_lut_address arch + shram_lut_size arch.
Proof.
  intros Hsize Hrun.
  apply (rewrite_cmds_region arch cmds Hsize) in Hrun; [apply Hrun |].
  intros t [].
Qed.

(** When [get_lut_index] returns, the slot lies in [0, 8) and the
    LUT size is not zero; for a positive size, the offset of the LUT in
    the LUT area lies in the slot-th interval of that size. *)
Theorem get_lut_index_slot address arch lut_tensor slot :
  Lut.get_lut_index storage_size address arch lut_tensor = Some slot ->
  0 <= slot < 8 /\ storage_size lut_tensor <> 0
  /\ (0 < storage_size lut_tensor ->
      slot * storage_size lut_tensor
      <= address lut_tensor - shram_lut_address arch
      < (slot + 1) * storage_size lut_tensor).
Proof.
  unfold Lut.get_lut_index, py_floordiv.
  destruct (Z.eqb_spec (storage_size lut_tensor) 0) as [| Hsize];
    [discriminate |].
  destruct (_ && _) eqn:Hslot; [| discriminate]. intros [= <-].
  apply andb_true_iff in Hslot. destruct Hslot as [Hlo Hhi].
  apply Z.leb_le in Hlo. apply Z.ltb_lt in Hhi.
  split; [lia |]. split; [exact Hsize |]. intros Hpos.
  pose proof (Z.div_mod (address lut_tensor - shram_lut_address arch)
                        (storage_size lut_tensor) Hsize) as Hdiv.
  pose proof (Z.mod_pos_bound (address lut_tensor - shram_lut_address arch)
                              (storage_size lut_tensor) Hpos) as Hmod.
  nia.
Qed.

End Tensors.

Lemma find_best_address_aligned_witness :
  0 < 1
  /\ exists a k,
       Lut.find_best_address LutExamples.storage_size LutExamples.address0
                             LutExamples.crowded 0 2 1 = Some a
       /\ 0 <= k /\ a = 0 + k * 1 /\ (a = 0 \/ a < 2).
Proof.
  split; [lia |].
  apply (find_best_address_aligned LutExamples.storage_size
           LutExamples.address0 LutExamples.crowded 0 2 1).
  lia.
Defined.

Lemma optimize_places_luts_in_shram_witness :
  0 < shram_lut_size LutExamples.arch
  /\ exists st,
       Lut.optimize_high_level_cmd_stream
         LutExamples.purpose LutExamples.equivalence_id LutExamples.storage_size
         LutExamples.arch LutExamples.address0 LutExamples.lut_index0
         LutExamples.stream = Some st
       /\ forall p i t, In (DMA p i t) LutExamples.stream ->
            LutExamples.purpose t = LUT ->
            shram_lut_address LutExamples.arch <= address st t
            < shram_lut_address LutExamples.arch
              + shram_lut_size LutExamples.arch.
Proof.
  split; [reflexivity |].
  eexists. split; [vm_compute; reflexivity |].
  apply (optimize_places_luts_in_shram
           LutExamples.purpose LutExamples.equivalence_id
           LutExamples.storage_size LutExamples.arch LutExamples.address0
           LutExamples.lut_index0 LutExamples.stream);
    [reflexivity | vm_compute; reflexivity].
Defined.

Lemma optimize_without_lut_dma_witness :
  forallb (fun cmd => negb (is_lut_dma LutExamples.purpose cmd))
          [NpuStripe (mkPass None None); DMA (mkPass None None) 20%nat 21%nat]
  = true
  /\ Lut.optimize_high_level_cmd_stream
       LutExamples.purpose LutExamples.equivalence_id LutExamples.storage_size
       LutExamples.arch LutExamples.address0 LutExamples.lut_index0
       [NpuStripe (mkPass None None); DMA (mkPass None None) 20%nat 21%nat]
     = Some (mkState
               [NpuStripe (mkPass None None);
                DMA (mkPass None None) 20%nat 21%nat]
               [] LutExamples.address0 LutExamples.lut_index0).
Proof.
  split; [reflexivity |].
  apply (optimize_without_lut_dma
           LutExamples.purpose LutExamples.equivalence_id
           LutExamples.storage_size LutExamples.arch LutExamples.address0
           LutExamples.lut_index0).
  reflexivity.
Defined.

Lemma get_lut_index_slot_witness :
  Lut.get_lut_index LutExamples.storage_size (fun _ => 5120)
                    LutExamples.arch 1%nat = Some 1
  /\ 0 <= 1 < 8 /\ LutExamples.storage_size 1%nat <> 0
  /\ (0 < LutExamples.storage_size 1%nat ->
      1 * LutExamples.storage_size 1%nat
      <= 5120 - shram_lut_address LutExamples.arch
      < (1 + 1) * LutExamples.storage_size 1%nat).
Proof.
  split; [reflexivity |].
  apply (get_lut_index_slot LutExamples.storage_size (fun _ => 5120)
                            LutExamples.arch 1%nat 1).
  reflexivity.
Defined.

End LutMore.

(** ** supported_operators.py *)

Module SupportedFacts.
Import SupportedOperators.

Lemma present_In l tens : In tens (present l) <-> In (Some tens) l.
Proof.
  induction l as [| [t |] l IH]; simpl; [tauto | |].
  - rewrite IH. split; intros [H | H]; auto; left; congruence.
  - rewrite IH. split; [auto | intros [H | H]; [discriminate | auto]].
Qed.

Lemma for_all_true {A} (test : A -> option bool) l :
  for_all test l = Some true -> forall x, In x l -> test x = Some true.
Proof.
  induction l as [| a l IH]; simpl; [tauto |].
  destruct (test a) as [b |] eqn:Ha; [| discriminate].
  destruct (for_all test l) as [bs |]; [| discriminate].
  intros [= H]. apply andb_true_iff in H. destruct H as [-> ->].
  intros x [<- | Hx]; auto.
Qed.

Lemma py_all_true {A} (test : A -> option bool) l :
  py_all test l = Some true -> forall x, In x l -> test x = Some true.
Proof.
  induction l as [| a l IH]; simpl; [tauto |].
  destruct (test a) as [[|] |] eqn:Ha; try discriminate.
  intros H x [<- | Hx]; auto.
Qed.

Lemma check_constraints_true constraints op :
  check_constraints constraints op = Some true ->
  forall c, In c constraints -> c op = Some true.
Proof.
  induction constraints as [| a l IH]; simpl; [tauto |].
  destruct (a op) as [[|] |] eqn:Ha; try discriminate.
  intros H c [<- | Hc]; auto.
Qed.

Section Checker.
Variable is_maxpool_op is_avgpool_op : Op -> bool.
Variable is_unary_elementwise_op is_relu_op : Op -> bool.
Variable attribute_constraints : AttributeConstraints.

Local Notation is_operator_supported :=
  (SupportedOperators.is_operator_supported
     is_maxpool_op is_avgpool_op is_unary_elementwise_op is_relu_op
     attribute_constraints).
Local Notation generic_constraints :=
  (SupportedOperators.generic_constraints is_relu_op).
Local Notation specific_constraints :=
  (SupportedOperators.specific_constraints
     is_maxpool_op is_avgpool_op is_unary_elementwise_op is_relu_op
     attribute_constraints).

Lemma supported_generic op c :
  is_operator_supported op = Some true ->
  In c generic_constraints -> c op = Some true.
Proof.
  unfold SupportedOperators.is_operator_supported.
  destruct (negb _); [discriminate |].
  intros H Hc. apply (check_constraints_true _ _ H).
  apply in_or_app. now left.
Qed.

Lemma supported_specific op c :
  is_operator_supported op = Some true ->
  In c (specific_constraints (type op)) -> c op = Some true.
Proof.
  unfold SupportedOperators.is_operator_supported.
  destruct (negb _); [discriminate |].
  intros H Hc. apply (check_constraints_true _ _ H).
  apply in_or_app. now right.
Qed.

Lemma checked_tensors_In op tens :
  In (Some tens) (get_ifm_ifm2_weights_ofm op) -> In tens (checked_tensors op).
Proof.
  intros H. apply present_In in H. unfold checked_tensors.
  destruct (present (get_ifm_ifm2_weights_ofm op)); [destruct H | exact H].
Qed.

(** C1, as the code has it: in an accepted operator, every tensor of
    the input and output lists has rank at most 4, and each of the
    tensors IFM, IFM2, weights and OFM has a data type in
    {UINT8, INT8, INT16, INT32}, a quantization record whose scale, if
    there is one, has no infinite component, and every dimension in
    [1, 65535]. *)
Theorem supported_tensors op :
  is_operator_supported op = Some true ->
  (forall tens, In (Some tens) (inputs op ++ outputs op) ->
                rank_at_most_4 tens)
  /\ (forall tens, In (Some tens) (get_ifm_ifm2_weights_ofm op) ->
                   dtype_supported tens
                   /\ no_infinite_scale tens
                   /\ dims_in_range tens).
Proof.
  intros Hsup.
  pose proof (fun c => supported_generic op c Hsup) as Hgen.
  split.
  - intros tens Hin. apply present_In in Hin.
    assert (Hc : constraint_tens_shape_size op = Some true)
      by (apply Hgen; simpl; tauto).
    apply (for_all_true _ _ Hc) in Hin.
    unfold rank_at_most_4. destruct (shape tens) as [shp |]; [| discriminate].
    exists shp. split; auto.
    injection Hin as Hin. apply negb_true_iff, Nat.ltb_ge in Hin. exact Hin.
  - intros tens Hin.
    pose proof (checked_tensors_In op tens Hin) as Hchk.
    apply present_In in Hin. repeat split.
    + assert (Hc : constraint_tens_dtype op = Some true)
        by (apply Hgen; simpl; tauto).
      apply (for_all_true _ _ Hc) in Hchk. injection Hchk as Hchk.
      unfold dtype_supported, dtype_in, supported_op_dtypes in *.
      destruct (dtype tens); simpl in *; try discriminate; tauto.
    + assert (Hnone : constraint_tens_quant_none_check op = Some true)
        by (apply Hgen; simpl; tauto).
      assert (Hscale : constraint_tens_quant_scale op = Some true)
        by (apply Hgen; simpl; tauto).
      apply (for_all_true _ _ Hscale) in Hin.
      unfold no_infinite_scale.
      destruct (quantization tens) as [q |]; [| discriminate].
      exists q. split; auto. intros scale Hs. rewrite Hs in Hin.
      injection Hin as Hin. now apply negb_true_iff in Hin.
    + assert (Hc : constraint_tens_dimension op = Some true)
        by (apply Hgen; simpl; tauto).
      apply (for_all_true _ _ Hc) in Hchk.
      unfold dims_in_range. destruct (shape tens) as [shp |]; [| discriminate].
      exists shp. split; auto. apply Forall_forall. intros d Hd.
      apply (py_all_true _ _ Hchk) in Hd.
      destruct d as [dim |]; [| discriminate]. exists dim. split; auto.
      injection Hd as Hd. simpl in Hd. lia.
Qed.

End Checker.

(** *** Element-wise shape constraints *)

Lemma dims_eqb_defined a : forall b,
  dims_eqb (map Some a) (map Some b) = true <-> a = b.
Proof.
  induction a as [| x a IH]; intros [| y b]; simpl;
    try (split; [discriminate | congruence]); [tauto |].
  rewrite andb_true_iff, Z.eqb_eq, IH. split; [intros [-> ->] | intros [= -> ->]]; auto.
Qed.

Lemma shape_eqb_defined a b :
  shape_eqb (defined a) (defined b) = true <-> a = b.
Proof. apply dims_eqb_defined. Qed.

Lemma last_n_map {A B} (f : A -> B) n l :
  last_n n (map f l) = map f (last_n n l).
Proof.
  destruct n; simpl; auto. now rewrite length_map, skipn_map.
Qed.

Lemma zip3_map a : forall b c,
  zip3 (map Some a) (map Some b) (map Some c) = map lift_dims (zip3 a b c).
Proof.
  induction a as [| x a IH]; intros [| y b] [| z c]; simpl; auto.
  now rewrite IH.
Qed.

Lemma broadcast_loop_defined l :
  broadcast_loop (map lift_dims l) = Some true
  <-> Forall (fun t => let '(i, i2, o) := t in broadcast_dim i i2 o) l.
Proof.
  unfold broadcast_dim.
  induction l as [| [[i i2] o] l IH]; simpl.
  - split; auto.
  - destruct (negb ((i =? i2) || (i =? 1) || (i2 =? 1))
              || negb (o =? Z.max i i2)) eqn:Hc.
    + split; [discriminate |]. intros H. inversion H as [| ? ? Hd _]; subst.
      apply orb_true_iff in Hc.
      destruct Hc as [Hc | Hc]; apply negb_true_iff in Hc.
      * apply orb_false_iff in Hc. destruct Hc as [Hc H3].
        apply orb_false_iff in Hc. destruct Hc as [H1 H2].
        apply Z.eqb_neq in H1, H2, H3. lia.
      * apply Z.eqb_neq in Hc. lia.
    + apply orb_false_iff in Hc. destruct Hc as [H1 H2].
      apply negb_false_iff in H1, H2. apply Z.eqb_eq in H2.
      rewrite IH. split.
      * intros H. constructor; auto. split; auto.
        apply orb_true_iff in H1. destruct H1 as [H1 | H1].
        -- apply orb_true_iff in H1. destruct H1 as [H1 | H1];
             apply Z.eqb_eq in H1; auto.
        -- apply Z.eqb_eq in H1. auto.
      * intros H. now inversion H.
Qed.

Lemma zip3_nth {P : Z * Z * Z -> Prop} a : forall b c n,
  List.length a = n -> List.length b = n -> List.length c = n ->
  Forall P (zip3 a b c)
  <-> forall j, (j < n)%nat -> P (nth j a 0, nth j b 0, nth j c 0).
Proof.
  induction a as [| x a IH]; intros [| y b] [| z c] n Ha Hb Hc;
    simpl in *; subst; try discriminate.
  - split; [intros _ j Hj; lia | constructor].
  - injection Hb as Hb. injection Hc as Hc.
    split.
    + intros H. inversion H as [| ? ? Hx Hrest]; subst.
      intros [| j] Hj; auto.
      apply (proj1 (IH b c _ eq_refl Hb Hc) Hrest). lia.
    + intros H. constructor; [apply (H 0%nat); lia |].
      apply (IH b c _ eq_refl Hb Hc). intros j Hj. apply (H (S j)). lia.
Qed.

Lemma zip3_last_n {P : Z * Z * Z -> Prop} a b c :
  let n := Nat.min (List.length a) (List.length b) in
  (n <= List.length c)%nat ->
  Forall P (zip3 (last_n n a) (last_n n b) (last_n n c))
  <-> forall k, (k < n)%nat ->
        P (nth k (rev a) 0, nth k (rev b) 0, nth k (rev c) 0).
Proof.
  intros n Hc. destruct n as [| m] eqn:Hn.
  - assert (H0 : zip3 (last_n 0 a) (last_n 0 b) (last_n 0 c) = []).
    { simpl. destruct a, b; simpl in *; try discriminate; auto. }
    rewrite H0. split; [intros _ k Hk; lia | constructor].
  - assert (Hla : (S m <= List.length a)%nat) by lia.
    assert (Hlb : (S m <= List.length b)%nat) by lia.
    unfold last_n.
    rewrite (zip3_nth _ _ _ (S m)) by (rewrite length_skipn; lia).
    split; intros H k Hk.
    + rewrite !rev_nth by lia.
      specialize (H (m - k)%nat ltac:(lia)).
      rewrite !nth_skipn in H.
      replace (List.length a - S k)%nat
        with (List.length a - S m + (m - k))%nat by lia.
      replace (List.length b - S k)%nat
        with (List.length b - S m + (m - k))%nat by lia.
      replace (List.length c - S k)%nat
        with (List.length c - S m + (m - k))%nat by lia.
      exact H.
    + rewrite !nth_skipn.
      specialize (H (m - k)%nat ltac:(lia)).
      rewrite !rev_nth in H by lia.
      replace (List.length a - S (m - k))%nat
        with (List.length a - S m + k)%nat in H by lia.
      replace (List.length b - S (m - k))%nat
        with (List.length b - S m + k)%nat in H by lia.
      replace (List.length c - S (m - k))%nat
        with (List.length c - S m + k)%nat in H by lia.
      exact H.
Qed.

Lemma broadcast_shapes_defined op i i2 o s1 s2 so :
  ifm op = Some i -> ifm2 op = Some i2 -> ofm op = Some o ->
  shape i = defined s1 -> shape i2 = defined s2 -> shape o = defined so ->
  (Nat.min (List.length s1) (List.length s2) <= List.length so)%nat ->
  constraint_broadcast_shapes op = Some true <-> broadcast_trailing s1 s2 so.
Proof.
  intros Hi Hi2 Ho Hs1 Hs2 Hso Hlen.
  unfold constraint_broadcast_shapes, broadcast_trailing.
  rewrite Hi, Hi2, Ho, Hs1, Hs2, Hso. unfold defined.
  rewrite !length_map, !last_n_map, zip3_map, broadcast_loop_defined.
  apply (zip3_last_n (P := fun t => let '(i, i2, o) := t in broadcast_dim i i2 o)).
  exact Hlen.
Qed.

Lemma specific_add_mul_sub
      is_maxpool_op is_avgpool_op is_unary_elementwise_op is_relu_op
      attribute_constraints t :
  In t [Add; Mul; Sub] ->
  In constraint_matching_either_shapes
     (specific_constraints is_maxpool_op is_avgpool_op
        is_unary_elementwise_op is_relu_op attribute_constraints t)
  /\ In constraint_broadcast_shapes
       (specific_constraints is_maxpool_op is_avgpool_op
          is_unary_elementwise_op is_relu_op attribute_constraints t).
Proof.
  intros Ht. unfold specific_constraints. rewrite !in_app_iff.
  simpl in Ht. destruct Ht as [<- | [<- | [<- | []]]];
    (split; repeat (first [left; solve [simpl; auto] | right])).
Qed.

Import SupportedExamples.

(** C7: for a binary Add, Mul or Sub whose IFM, IFM2 and OFM shapes are
    present, the two element-wise shape constraints are among the
    operator's constraints, and they both pass if and only if one of
    the input shapes equals the OFM shape and, along every aligned
    trailing dimension, the input dimensions are equal or one of them
    is 1 and the OFM dimension is the larger of the two.  Add of
    [1,4] and [4,4] into [4,4] passes; Add of [1,1,4,1] and
    [1,4,1,16] into [1,4,4,16] fails. *)
Theorem add_mul_sub_shape_constraints :
  (forall is_maxpool_op is_avgpool_op is_unary_elementwise_op is_relu_op
          attribute_constraints op i i2 o s1 s2 so,
      In (type op) [Add; Mul; Sub] ->
      ifm op = Some i -> ifm2 op = Some i2 -> ofm op = Some o ->
      shape i = defined s1 -> shape i2 = defined s2 -> shape o = defined so ->
      (In constraint_matching_either_shapes
          (specific_constraints is_maxpool_op is_avgpool_op
             is_unary_elementwise_op is_relu_op attribute_constraints (type op))
       /\ In constraint_broadcast_shapes
            (specific_constraints is_maxpool_op is_avgpool_op
               is_unary_elementwise_op is_relu_op attribute_constraints (type op)))
      /\ ((constraint_matching_either_shapes op = Some true
           /\ constraint_broadcast_shapes op = Some true)
          <-> ((s1 = so \/ s2 = so) /\ broadcast_trailing s1 s2 so)))
  /\ (constraint_matching_either_shapes (elemwise_op Add [1; 4] [4; 4] [4; 4])
      = Some true
      /\ constraint_broadcast_shapes (elemwise_op Add [1; 4] [4; 4] [4; 4])
         = Some true
      /\ supported (elemwise_op Add [1; 4] [4; 4] [4; 4]) = Some true)
  /\ (constraint_matching_either_shapes
        (elemwise_op Add [1; 1; 4; 1] [1; 4; 1; 16] [1; 4; 4; 16])
      = Some false
      /\ supported (elemwise_op Add [1; 1; 4; 1] [1; 4; 1; 16] [1; 4; 4; 16])
         = Some false).
Proof.
  split; [| split; repeat split; vm_compute; reflexivity].
  intros is_maxpool_op is_avgpool_op is_unary_elementwise_op is_relu_op
         attribute_constraints op i i2 o s1 s2 so Ht Hi Hi2 Ho Hs1 Hs2 Hso.
  split; [now apply specific_add_mul_sub |].
  assert (Heither : constraint_matching_either_shapes op = Some true
                    <-> s1 = so \/ s2 = so).
  { unfold constraint_matching_either_shapes.
    rewrite Hi, Hi2, Ho. cbv beta iota zeta. rewrite Hs1, Hs2, Hso.
    split.
    - intros [= H]. apply orb_true_iff in H.
      now rewrite !dims_eqb_defined in H.
    - intros H. f_equal. apply orb_true_iff.
      now rewrite !shape_eqb_defined. }
  assert (Hlen : s1 = so \/ s2 = so ->
                 (Nat.min (List.length s1) (List.length s2)
                  <= List.length so)%nat).
  { intros [-> | ->]; lia. }
  rewrite Heither. split; intros [He Hb]; split; auto;
    eapply broadcast_shapes_defined; eauto.
Qed.

Lemma add_mul_sub_shape_constraints_witness :
  (constraint_matching_either_shapes (elemwise_op Mul [1; 1; 4] [1; 2; 4] [1; 2; 4])
   = Some true
   /\ constraint_broadcast_shapes (elemwise_op Mul [1; 1; 4] [1; 2; 4] [1; 2; 4])
      = Some true)
  <-> (([1; 1; 4] = [1; 2; 4] \/ [1; 2; 4] = [1; 2; 4])
       /\ broadcast_trailing [1; 1; 4] [1; 2; 4] [1; 2; 4]).
Proof.
  apply (proj1 add_mul_sub_shape_constraints
           is_maxpool_op is_avgpool_op is_unary_elementwise_op is_relu_op
           attribute_constraints
           (elemwise_op Mul [1; 1; 4] [1; 2; 4] [1; 2; 4])
           (feature_map [1; 1; 4] uint8) (feature_map [1; 2; 4] uint8)
           (feature_map [1; 2; 4] uint8));
    [simpl; auto | reflexivity ..].
Defined.

(** C1 fails beyond the four tensors, and on "finite": the fully
    connected layer [fc_op] is accepted with an [int64] bias among its
    inputs, and the addition [nan_add] is accepted although the
    quantization scale of its IFM is NaN. *)
Lemma supported_int64_bias_nan_scale :
  (supported fc_op = Some true
   /\ In (Some fc_bias) (inputs fc_op ++ outputs fc_op)
   /\ ~ dtype_supported fc_bias)
  /\ (supported nan_add = Some true
      /\ In (Some nan_ifm) (inputs nan_add ++ outputs nan_add)
      /\ ~ finite_scale nan_ifm).
Proof.
  split; (split; [vm_compute; reflexivity | split; [simpl; tauto |]]).
  - unfold dtype_supported. simpl. intuition discriminate.
  - intros (q & scale & Hq & Hs & Hfin). simpl in Hq. injection Hq as <-.
    simpl in Hs. injection Hs as <-.
    inversion Hfin as [| ? ? (m & e & Hnan) _]. discriminate.
Qed.

Lemma supported_tensors_witness :
  supported fc_op = Some true
  /\ (forall tens, In (Some tens) (inputs fc_op ++ outputs fc_op) ->
                   rank_at_most_4 tens)
  /\ (forall tens, In (Some tens) (get_ifm_ifm2_weights_ofm fc_op) ->
                   dtype_supported tens
                   /\ no_infinite_scale tens
                   /\ dims_in_range tens).
Proof.
  split; [vm_compute; reflexivity |].
  apply (supported_tensors is_maxpool_op is_avgpool_op
           is_unary_elementwise_op is_relu_op attribute_constraints fc_op).
  vm_compute. reflexivity.
Defined.

End SupportedFacts.

(** ** supported_operators.py, continued *)

Module SupportedMore.
Import SupportedOperators SupportedFacts.

Lemma bin_digits_40 q :
  (bin_digits q <=? 40) = true <-> - 2 ^ 39 < q < 2 ^ 40.
Proof.
  unfold bin_digits. rewrite Z.leb_le.
  destruct (Z.ltb_spec q 0) as [Hneg | Hnonneg].
  - assert (H : Z.log2 (- q) < 39 <-> - q < 2 ^ 39)
      by (symmetry; apply Z.log2_lt_pow2; lia).
    lia.
  - destruct (Z.eqb_spec q 0) as [-> | Hne]; [lia |].
    assert (H : Z.log2 q < 40 <-> q < 2 ^ 40)
      by (symmetry; apply Z.log2_lt_pow2; lia).
    lia.
Qed.

Lemma dim_eqb_eq a b : dim_eqb a b = true -> a = b.
Proof.
  destruct a, b; simpl; try discriminate; auto.
  intros H. apply Z.eqb_eq in H. now subst.
Qed.

Lemma dims_eqb_eq a : forall b, dims_eqb a b = true -> a = b.
Proof.
  induction a as [| x a IH]; destruct b as [| y b]; simpl; try discriminate;
    auto.
  intros H. apply andb_true_iff in H. destruct H as [Hxy Hab].
  apply dim_eqb_eq in Hxy. apply IH in Hab. now subst.
Qed.

Lemma shape_eqb_eq a b : shape_eqb a b = true -> a = b.
Proof.
  destruct a, b; simpl; try discriminate; auto.
  intros H. apply dims_eqb_eq in H. now subst.
Qed.

Lemma dtype_eqb_eq a b : dtype_eqb a b = true -> a = b.
Proof. unfold dtype_eqb. destruct (DataType_eq_dec a b); auto; discriminate. Qed.

Section Checker.
Variable is_maxpool_op is_avgpool_op : Op -> bool.
Variable is_unary_elementwise_op is_relu_op : Op -> bool.
Variable attribute_constraints : AttributeConstraints.

Local Notation is_operator_supported :=
  (SupportedOperators.is_operator_supported
     is_maxpool_op is_avgpool_op is_unary_elementwise_op is_relu_op
     attribute_constraints).
Local Notation specific_constraints :=
  (SupportedOperators.specific_constraints
     is_maxpool_op is_avgpool_op is_unary_elementwise_op is_relu_op
     attribute_constraints).
Local Notation supported_specific :=
  (SupportedFacts.supported_specific
     is_maxpool_op is_avgpool_op is_unary_elementwise_op is_relu_op
     attribute_constraints).
Local Notation supported_generic :=
  (SupportedFacts.supported_generic
     is_maxpool_op is_avgpool_op is_unary_elementwise_op is_relu_op
     attribute_constraints).
Local Notation avg_pooling_ops := (SupportedOperators.avg_pooling_ops is_avgpool_op).
Local Notation max_pooling_ops := (SupportedOperators.max_pooling_ops is_maxpool_op).
Local Notation pooling_ops :=
  (SupportedOperators.pooling_ops is_maxpool_op is_avgpool_op).
Local Notation unary_elem_wise_main_ops :=
  (SupportedOperators.unary_elem_wise_main_ops is_unary_elementwise_op).
Local Notation elem_wise_main_ops :=
  (SupportedOperators.elem_wise_main_ops is_unary_elementwise_op).
Local Notation supported_operators :=
  (SupportedOperators.supported_operators
     is_maxpool_op is_avgpool_op is_unary_elementwise_op is_relu_op).
Local Notation supported_fused_activations :=
  (SupportedOperators.supported_fused_activations is_relu_op).

(** A constraint of a block of [__init__] is among the specific
    constraints of the operator types the block ranges over. *)
Ltac specific Hsup Hty :=
  apply supported_specific; [exact Hsup |];
  unfold SupportedOperators.specific_constraints;
  rewrite !in_app_iff; rewrite Hty; simpl; tauto.

(** An accepted convolution-like or fully-connected operator has
    constant weights with 8-bit elements; its bias, if any, is INT32 or
    INT64, and the values of an INT64 bias lie strictly between
    [-2^39] and [2^40]. *)
Theorem supported_weights_bias op :
  is_operator_supported op = Some true ->
  convolution_like_ops (type op) || fc_vector_products (type op) = true ->
  (exists w, weights op = Some w /\ element_size_bits w = 8
             /\ values w <> None)
  /\ forall b, bias op = Some b ->
       (dtype b = int32 \/ dtype b = int64)
       /\ forall qv, dtype b = int64 -> quant_values b = Some qv ->
            Forall (fun q => - 2 ^ 39 < q < 2 ^ 40) qv.
Proof.
  intros Hsup Hty.
  assert (Hwt : constraint_weights_type op = Some true)
    by (apply orb_true_iff in Hty; destruct Hty as [Hty | Hty];
        specific Hsup Hty).
  assert (Hwc : constraint_weights_const op = Some true)
    by (apply orb_true_iff in Hty; destruct Hty as [Hty | Hty];
        specific Hsup Hty).
  assert (Hbt : constraint_bias_type op = Some true)
    by (apply orb_true_iff in Hty; destruct Hty as [Hty | Hty];
        specific Hsup Hty).
  assert (Hb40 : constraint_bias_40bit op = Some true)
    by (apply orb_true_iff in Hty; destruct Hty as [Hty | Hty];
        specific Hsup Hty).
  unfold constraint_weights_type, constraint_weights_const,
    constraint_bias_type, constraint_bias_40bit in *.
  split.
  - destruct (weights op) as [w |]; [| discriminate]. exists w.
    injection Hwt as Hwt. injection Hwc as Hwc. apply Z.eqb_eq in Hwt.
    repeat split; auto. destruct (values w); [discriminate | discriminate].
  - intros b Hb. rewrite Hb in Hbt, Hb40. injection Hbt as Hbt. split.
    + unfold dtype_in, supported_bias_dtypes in Hbt.
      destruct (dtype b); simpl in Hbt; try discriminate; auto.
    + intros qv Hd Hqv. rewrite Hqv in Hb40.
      destruct (DataType_eq_dec (dtype b) int64); [| contradiction].
      injection Hb40 as Hb40. apply Forall_forall. intros q Hq.
      apply bin_digits_40. rewrite forallb_forall in Hb40. auto.
Qed.

(** In an accepted pooling, unary element-wise, Minimum, Maximum or
    Softmax operator the IFM and the OFM have the same data type; in an
    accepted Softmax they have the same shape as well. *)
Theorem supported_in_out_types op :
  is_operator_supported op = Some true ->
  avg_pooling_ops (type op) || max_pooling_ops (type op)
  || unary_elem_wise_main_ops (type op)
  || binary_elem_wise_min_max_ops (type op)
  || op_is (type op) Softmax = true ->
  exists i o,
    ifm op = Some i /\ ofm op = Some o /\ dtype i = dtype o
    /\ (type op = Softmax -> shape i = shape o).
Proof.
  intros Hsup Hty.
  assert (Htypes : constraint_matching_in_out_types op = Some true).
  { apply orb_true_iff in Hty. destruct Hty as [Hty | Hty];
      [| specific Hsup Hty].
    apply orb_true_iff in Hty. destruct Hty as [Hty | Hty];
      [| specific Hsup Hty].
    apply orb_true_iff in Hty. destruct Hty as [Hty | Hty];
      [| specific Hsup Hty].
    apply orb_true_iff in Hty. destruct Hty as [Hty | Hty];
      specific Hsup Hty. }
  unfold constraint_matching_in_out_types in Htypes.
  destruct (ifm op) as [i |] eqn:Hi; [| discriminate].
  destruct (ofm op) as [o |] eqn:Ho; [| discriminate].
  injection Htypes as Htypes. apply dtype_eqb_eq in Htypes.
  exists i, o. repeat split; auto. intros Hsoft.
  assert (Hop : op_is (type op) Softmax = true).
  { rewrite Hsoft. reflexivity. }
  assert (Hshapes : constraint_matching_shapes op = Some true)
    by specific Hsup Hop.
  unfold constraint_matching_shapes in Hshapes. rewrite Hi, Ho in Hshapes.
  injection Hshapes as Hshapes. now apply shape_eqb_eq.
Qed.

(** The data types of accepted binary element-wise operators: the
    inputs of Add, Mul and Sub have one data type; the inputs of SHL
    and SHR are INT32; the output of SHL and of CLZ is INT32. *)
Theorem supported_binary_types op :
  is_operator_supported op = Some true ->
  (binary_elem_wise_add_mul_sub (type op) = true ->
   exists i i2, ifm op = Some i /\ ifm2 op = Some i2 /\ dtype i = dtype i2)
  /\ (binary_elem_wise_shift_ops (type op) = true ->
      exists i i2, ifm op = Some i /\ ifm2 op = Some i2
                   /\ dtype i = int32 /\ dtype i2 = int32)
  /\ (type op = SHL \/ type op = CLZ ->
      exists o, ofm op = Some o /\ dtype o = int32).
Proof.
  intros Hsup. split; [| split].
  - intros Hty.
    assert (Hc : constraint_matching_inputs_types op = Some true)
      by specific Hsup Hty.
    unfold constraint_matching_inputs_types in Hc.
    destruct (ifm op) as [i |]; [| discriminate].
    destruct (ifm2 op) as [i2 |]; [| discriminate].
    injection Hc as Hc. apply dtype_eqb_eq in Hc. exists i, i2. auto.
  - intros Hty.
    assert (Hc : constraint_inputs_int32 op = Some true)
      by specific Hsup Hty.
    unfold constraint_inputs_int32 in Hc.
    destruct (ifm op) as [i |]; [| discriminate].
    destruct (ifm2 op) as [i2 |]; [| discriminate].
    injection Hc as Hc. apply andb_true_iff in Hc. destruct Hc as [H1 H2].
    apply dtype_eqb_eq in H1, H2. exists i, i2. auto.
  - intros Hty.
    assert (Hc : constraint_output_int32 op = Some true).
    { destruct Hty as [Hty | Hty].
      - assert (Hop : op_is (type op) SHL = true) by (now rewrite Hty).
        specific Hsup Hop.
      - assert (Hop : op_is (type op) CLZ = true) by (now rewrite Hty).
        specific Hsup Hop. }
    unfold constraint_output_int32 in Hc.
    destruct (ofm op) as [o |]; [| discriminate].
    injection Hc as Hc. apply dtype_eqb_eq in Hc. exists o. auto.
Qed.

(** Batch sizes of accepted operators: the IFM of a convolution-like
    or pooling operator has batch size 1, and so has every input of an
    element-wise operator that has more than two dimensions. *)
Theorem supported_batch_size op :
  is_operator_supported op = Some true ->
  (convolution_like_ops (type op) || pooling_ops (type op) = true ->
   exists i rest, ifm op = Some i /\ shape i = Some (Some 1 :: rest))
  /\ (elem_wise_main_ops (type op) = true ->
      forall tens shp,
        In (Some tens) [ifm op; ifm2 op] -> shape tens = Some shp ->
        (2 < List.length shp)%nat -> hd None shp = Some 1).
Proof.
  intros Hsup. split.
  - intros Hty.
    assert (Hc : constraint_batch_size op = Some true)
      by (apply orb_true_iff in Hty; destruct Hty as [Hty | Hty];
          specific Hsup Hty).
    unfold constraint_batch_size, shape_0 in Hc.
    destruct (ifm op) as [i |]; [| discriminate].
    destruct (shape i) as [[| d rest] |] eqn:Hshape; try discriminate.
    injection Hc as Hc. apply dim_eqb_eq in Hc. subst d. exists i, rest. auto.
  - intros Hty tens shp Hin Hshape Hrank.
    assert (Hc : constraint_elemwise_batch_size op = Some true)
      by specific Hsup Hty.
    unfold constraint_elemwise_batch_size in Hc.
    apply present_In in Hin. apply (for_all_true _ _ Hc) in Hin.
    rewrite Hshape in Hin. injection Hin as Hin.
    apply Nat.ltb_lt in Hrank. rewrite Hrank in Hin. simpl in Hin.
    apply negb_true_iff, negb_false_iff in Hin. now apply dim_eqb_eq.
Qed.

(** Shapes of an accepted operator: its type is a supported one; every
    input and output tensor has a fully defined shape, and values if
    its shape is empty; the OFM is not a scalar, and a scalar input
    needs an operator type that takes shapeless inputs. *)
Theorem supported_shapes op :
  is_operator_supported op = Some true ->
  supported_operators (type op) = true
  /\ (forall tens, In (Some tens) (inputs op ++ outputs op) ->
        has_fully_defined_shape tens = true
        /\ (shape tens = Some [] -> values tens <> None))
  /\ (exists o, ofm op = Some o /\ shape o <> Some [])
  /\ (forall tens, In (Some tens) (inputs op) -> shape tens = Some [] ->
        shapeless_input_ops (type op) = true).
Proof.
  intros Hsup.
  pose proof (fun c => supported_generic op c Hsup) as Hgen.
  split; [| split; [| split]].
  - unfold SupportedOperators.is_operator_supported in Hsup.
    destruct (supported_operators (type op)); [reflexivity | discriminate].
  - intros tens Hin. apply present_In in Hin. split.
    + assert (Hc : constraint_tens_defined_shape op = Some true)
        by (apply Hgen; simpl; tauto).
      apply (for_all_true _ _ Hc) in Hin. now injection Hin.
    + assert (Hc : constraint_tens_no_dynamic op = Some true)
        by (apply Hgen; simpl; tauto).
      apply (for_all_true _ _ Hc) in Hin. injection Hin as Hin.
      intros Hshape. unfold shape_is_empty in Hin. rewrite Hshape in Hin.
      destruct (values tens); [discriminate | discriminate].
  - assert (Hc : constraint_tens_output_scalar op = Some true)
      by (apply Hgen; simpl; tauto).
    unfold constraint_tens_output_scalar in Hc.
    destruct (ofm op) as [o |]; [| discriminate]. exists o. split; auto.
    injection Hc as Hc. unfold shape_is_empty in Hc. intros Hshape.
    rewrite Hshape in Hc. discriminate.
  - intros tens Hin Hshape. apply present_In in Hin.
    assert (Hc : constraint_tens_input_scalar op = Some true)
      by (apply Hgen; simpl; tauto).
    apply (for_all_true _ _ Hc) in Hin. injection Hin as Hin.
    unfold shape_is_empty in Hin. rewrite Hshape in Hin. simpl in Hin.
    apply negb_true_iff, negb_false_iff in Hin. exact Hin.
Qed.


End Checker.

Import SupportedExamples.

Local Notation minimum_op := (elemwise_op Minimum [1; 2] [1; 2] [1; 2]).
Local Notation add_op := (elemwise_op Add [1; 2; 3] [1; 1; 3] [1; 2; 3]).

Lemma supported_weights_bias_witness :
  (supported fc_op = Some true
   /\ convolution_like_ops (type fc_op) || fc_vector_products (type fc_op)
      = true)
  /\ (exists w, weights fc_op = Some w /\ element_size_bits w = 8
                /\ values w <> None)
  /\ forall b, bias fc_op = Some b ->
       (dtype b = int32 \/ dtype b = int64)
       /\ forall qv, dtype b = int64 -> quant_values b = Some qv ->
            Forall (fun q => - 2 ^ 39 < q < 2 ^ 40) qv.
Proof.
  split; [split; reflexivity |].
  apply (supported_weights_bias is_maxpool_op is_avgpool_op
           is_unary_elementwise_op is_relu_op attribute_constraints fc_op);
    reflexivity.
Defined.

Lemma supported_in_out_types_witness :
  (supported minimum_op = Some true
   /\ is_avgpool_op (type minimum_op) || is_maxpool_op (type minimum_op)
      || is_unary_elementwise_op (type minimum_op)
      || binary_elem_wise_min_max_ops (type minimum_op)
      || op_is (type minimum_op) Softmax = true)
  /\ exists i o,
       ifm minimum_op = Some i /\ ofm minimum_op = Some o
       /\ dtype i = dtype o
       /\ (type minimum_op = Softmax -> shape i = shape o).
Proof.
  split; [split; reflexivity |].
  apply (supported_in_out_types is_maxpool_op is_avgpool_op
           is_unary_elementwise_op is_relu_op attribute_constraints
           minimum_op); reflexivity.
Defined.

Lemma supported_binary_types_witness :
  supported add_op = Some true
  /\ (binary_elem_wise_add_mul_sub (type add_op) = true ->
      exists i i2, ifm add_op = Some i /\ ifm2 add_op = Some i2
                   /\ dtype i = dtype i2)
  /\ (binary_elem_wise_shift_ops (type add_op) = true ->
      exists i i2, ifm add_op = Some i /\ ifm2 add_op = Some i2
                   /\ dtype i = int32 /\ dtype i2 = int32)
  /\ (type add_op = SHL \/ type add_op = CLZ ->
      exists o, ofm add_op = Some o /\ dtype o = int32).
Proof.
  split; [reflexivity |].
  apply (supported_binary_types is_maxpool_op is_avgpool_op
           is_unary_elementwise_op is_relu_op attribute_constraints add_op).
  reflexivity.
Defined.

Lemma supported_batch_size_witness :
  supported add_op = Some true
  /\ (convolution_like_ops (type add_op)
      || pooling_ops is_maxpool_op is_avgpool_op (type add_op) = true ->
      exists i rest, ifm add_op = Some i /\ shape i = Some (Some 1 :: rest))
  /\ (elem_wise_main_ops is_unary_elementwise_op (type add_op) = true ->
      forall tens shp,
        In (Some tens) [ifm add_op; ifm2 add_op] -> shape tens = Some shp ->
        (2 < List.length shp)%nat -> hd None shp = Some 1).
Proof.
  split; [reflexivity |].
  apply (supported_batch_size is_maxpool_op is_avgpool_op
           is_unary_elementwise_op is_relu_op attribute_constraints add_op).
  reflexivity.
Defined.

Lemma supported_shapes_witness :
  supported fc_op = Some true
  /\ SupportedOperators.supported_operators
       is_maxpool_op is_avgpool_op is_unary_elementwise_op is_relu_op
       (type fc_op) = true
  /\ (forall tens, In (Some tens) (inputs fc_op ++ outputs fc_op) ->
        has_fully_defined_shape tens = true
        /\ (shape tens = Some [] -> values tens <> None))
  /\ (exists o, ofm fc_op = Some o /\ shape o <> Some [])
  /\ (forall tens, In (Some tens) (inputs fc_op) -> shape tens = Some [] ->
        shapeless_input_ops (type fc_op) = true).
Proof.
  split; [reflexivity |].
  apply (supported_shapes is_maxpool_op is_avgpool_op
           is_unary_elementwise_op is_relu_op attribute_constraints fc_op).
  reflexivity.
Defined.


End SupportedMore.

(** ** pass_packing.py *)

Module PassFacts.
Import OpNames PassPacking.

(** *** The heap *)

Lemma upd_eq {A} (h : ObjId -> A) k v : upd h k v k = v.
Proof. unfold upd. now rewrite Nat.eqb_refl. Qed.

Lemma upd_neq {A} (h : ObjId -> A) k v k' : k' <> k -> upd h k v k' = h k'.
Proof. unfold upd. intros H. apply Nat.eqb_neq in H. now rewrite H. Qed.

Lemma id_in_In x l : id_in x l = true <-> In x l.
Proof.
  unfold id_in. rewrite existsb_exists. split.
  - intros (y & Hy & Heq). apply Nat.eqb_eq in Heq. now subst.
  - intros H. exists x. split; auto. apply Nat.eqb_refl.
Qed.

Lemma set_add_In x s y : In y (set_add x s) <-> y = x \/ In y s.
Proof.
  unfold set_add. destruct (id_in x s) eqn:Hx.
  - apply id_in_In in Hx. split; [auto | intros [-> | H]; auto].
  - rewrite in_app_iff. simpl. intuition.
Qed.

(** *** Primary-op synthesis as a step on graphs *)

Section Splice.
Variable g : Graph.
Variables op_ inp : ObjId.
Hypothesis Hop : (op_ < n_ops g)%nat.

Lemma splice_old_op o :
  (o < n_ops g)%nat ->
  let o' := op (splice_avgpool g op_ inp) o in
  type o' = type (op g o)
  /\ run_on_npu o' = run_on_npu (op g o)
  /\ attr_npu_block_type o' = attr_npu_block_type (op g o)
  /\ outputs o' = outputs (op g o)
  /\ inputs o' = if Nat.eqb o op_ then n_tensors g :: tl (inputs (op g o))
                 else inputs (op g o).
Proof.
  intros Ho. simpl. destruct (Nat.eqb_spec o op_) as [-> | Hne].
  - rewrite upd_eq. simpl. rewrite upd_neq by lia. auto.
  - rewrite upd_neq by auto. rewrite upd_neq by lia. auto.
Qed.

Lemma splice_new_op :
  op (splice_avgpool g op_ inp) (n_ops g)
  = mkOperation "AvgPool"%string true (Some Pooling) [inp] [n_tensors g].
Proof. simpl. rewrite upd_neq by lia. apply upd_eq. Qed.

Lemma splice_tens t :
  tens (splice_avgpool g op_ inp) t
  = if Nat.eqb t (n_tensors g)
    then mkTensor (purpose (tens g inp)) [n_ops g] [Some op_]
    else if Nat.eqb t inp
         then mkTensor (purpose (tens g inp)) (ops (tens g inp))
                       (consumer_list (tens g inp) ++ [Some (n_ops g)])
         else tens g t.
Proof. reflexivity. Qed.

Lemma splice_n_ops : n_ops (splice_avgpool g op_ inp) = S (n_ops g).
Proof. reflexivity. Qed.

Lemma splice_n_tensors : n_tensors (splice_avgpool g op_ inp) = S (n_tensors g).
Proof. reflexivity. Qed.

Lemma splice_wf rest :
  wf_graph g -> inputs (op g op_) = inp :: rest ->
  wf_graph (splice_avgpool g op_ inp).
Proof.
  intros [Hprod Hin] Hinputs.
  assert (Hinp : (inp < n_tensors g)%nat).
  { apply (Hin op_); auto. rewrite Hinputs. now left. }
  split.
  - intros t o. rewrite splice_tens.
    destruct (Nat.eqb t (n_tensors g)); simpl.
    + intros [<- | []]. lia.
    + destruct (Nat.eqb_spec t inp) as [-> | _]; simpl;
        intros H; apply Hprod in H; lia.
  - intros o t Ho. rewrite splice_n_ops in Ho. rewrite splice_n_tensors.
    destruct (Nat.eq_dec o (n_ops g)) as [-> | Hne].
    + rewrite splice_new_op. simpl. intros [<- | []]. lia.
    + destruct (splice_old_op o ltac:(lia)) as (_ & _ & _ & _ & ->).
      destruct (Nat.eqb_spec o op_) as [-> | _].
      * rewrite Hinputs. simpl. intros [<- | H]; [lia |].
        assert (t < n_tensors g)%nat; [| lia].
        apply (Hin op_); auto. rewrite Hinputs. now right.
      * intros H. assert (t < n_tensors g)%nat; [| lia].
        apply (Hin o); auto. lia.
Qed.

End Splice.

Lemma startup_evolves g0 g :
  evolves g0 g -> startup_ops_have_no_inputs g0 -> startup_ops_have_no_inputs g.
Proof.
  intros Hev H0. induction Hev as [| g op_ inp rest Hev IH Hop Hin]; auto.
  intros o Hty. unfold splice_avgpool in *. cbn [op] in *. unfold upd in *.
  destruct (Nat.eqb o op_) eqn:Ho.
  - apply Nat.eqb_eq in Ho. subst o.
    destruct (Nat.eqb op_ (n_ops g)) eqn:Hnew.
    + apply Nat.eqb_eq in Hnew. lia.
    + cbn [type] in Hty. apply IH in Hty. congruence.
  - destruct (Nat.eqb o (n_ops g)); [discriminate Hty | auto].
Qed.

(** *** Counting the operations that list a tensor *)

Lemma filter_length_ext {A} (f f' : A -> bool) l :
  (forall x, In x l -> f' x = f x) ->
  List.length (filter f' l) = List.length (filter f l).
Proof. intros H. now rewrite (filter_ext_in _ _ _ H). Qed.

Lemma count_change (f f' : nat -> bool) n k :
  (k < n)%nat ->
  (forall o, (o < n)%nat -> o <> k -> f' o = f o) ->
  (List.length (filter f' (seq 0 n)) + Nat.b2n (f k)
   = List.length (filter f (seq 0 n)) + Nat.b2n (f' k))%nat.
Proof.
  intros Hk Hsame.
  assert (Hn : n = (k + S (n - S k))%nat) by lia.
  revert Hsame. generalize (n - S k)%nat as m, Hn. intros m -> Hsame.
  rewrite seq_app, !filter_app, !length_app. simpl seq. simpl filter.
  assert (H1 : List.length (filter f' (seq 0 k))
               = List.length (filter f (seq 0 k))).
  { apply filter_length_ext. intros x Hx. apply in_seq in Hx.
    apply Hsame; lia. }
  assert (H2 : List.length (filter f' (seq (S k) m))
               = List.length (filter f (seq (S k) m))).
  { apply filter_length_ext. intros x Hx. apply in_seq in Hx.
    apply Hsame; lia. }
  destruct (f k), (f' k); simpl; lia.
Qed.

Lemma filter_single {A} (f : A -> bool) x :
  List.length (filter f [x]) = Nat.b2n (f x).
Proof. simpl. now destruct (f x). Qed.

Lemma count_none (f : nat -> bool) l :
  (forall o, In o l -> f o = false) -> List.length (filter f l) = 0%nat.
Proof.
  induction l as [| a l IH]; simpl; auto. intros H.
  rewrite (H a) by auto. apply IH. auto.
Qed.

Lemma id_in_false x l : ~ In x l -> id_in x l = false.
Proof.
  intros H. destruct (id_in x l) eqn:E; auto. apply id_in_In in E. tauto.
Qed.

Local Opaque splice_avgpool.

Section SpliceCount.
Variable g : Graph.
Variables op_ inp : ObjId.
Variable rest : list ObjId.
Hypothesis Hop : (op_ < n_ops g)%nat.
Hypothesis Hwf : wf_graph g.
Hypothesis Hinputs : inputs (op g op_) = inp :: rest.

Local Notation g' := (splice_avgpool g op_ inp).

Lemma splice_inp_allocated : (inp < n_tensors g)%nat.
Proof.
  destruct Hwf as [_ Hin]. apply (Hin op_); auto. rewrite Hinputs. now left.
Qed.

Lemma listing_count_splice t :
  listing_count g' t
  = (List.length
       (filter (fun o => id_in t (inputs (op g' o))) (seq 0 (n_ops g)))
     + Nat.b2n (Nat.eqb t inp))%nat.
Proof.
  unfold listing_count. rewrite splice_n_ops.
  rewrite seq_S, filter_app, length_app. f_equal.
  rewrite filter_single. change (0 + n_ops g)%nat with (n_ops g).
  rewrite splice_new_op by auto. unfold id_in, inputs, existsb.
  now rewrite orb_false_r.
Qed.

Lemma listing_count_new : listing_count g' (n_tensors g) = 1%nat.
Proof.
  pose proof splice_inp_allocated as Hinp.
  rewrite listing_count_splice.
  replace (Nat.eqb (n_tensors g) inp) with false
    by (symmetry; apply Nat.eqb_neq; lia).
  pose proof (count_change
                (fun o => id_in (n_tensors g) (inputs (op g o)))
                (fun o => id_in (n_tensors g) (inputs (op g' o)))
                (n_ops g) op_ Hop) as Hc.
  cbv beta in Hc.
  rewrite (count_none (fun o => id_in (n_tensors g) (inputs (op g o)))) in Hc.
  2: { intros o Ho. apply in_seq in Ho. apply id_in_false. intros Hin.
       destruct Hwf as [_ Hall]. apply (Hall o) in Hin; lia. }
  destruct (splice_old_op g op_ inp Hop op_ Hop) as (_ & _ & _ & _ & Hi).
  rewrite Nat.eqb_refl in Hi.
  replace (id_in (n_tensors g) (inputs (op g' op_))) with true in Hc
    by (rewrite Hi; simpl; now rewrite Nat.eqb_refl).
  replace (id_in (n_tensors g) (inputs (op g op_))) with false in Hc.
  2: { symmetry. apply id_in_false. intros Hin.
       destruct Hwf as [_ Hall]. apply (Hall op_) in Hin; lia. }
  simpl in Hc. simpl. rewrite Nat.add_0_r in *. apply Hc.
  intros o Ho Hne.
  destruct (splice_old_op g op_ inp Hop o Ho) as (_ & _ & _ & _ & ->).
  apply Nat.eqb_neq in Hne. now rewrite Hne.
Qed.

Lemma listing_count_other t :
  (t < n_tensors g)%nat -> t <> inp ->
  listing_count g' t = listing_count g t.
Proof.
  intros Ht Hne. rewrite listing_count_splice.
  replace (Nat.eqb t inp) with false by (symmetry; now apply Nat.eqb_neq).
  simpl. rewrite Nat.add_0_r. unfold listing_count.
  apply filter_length_ext. intros o Ho. apply in_seq in Ho.
  destruct (splice_old_op g op_ inp Hop o ltac:(lia)) as (_ & _ & _ & _ & ->).
  destruct (Nat.eqb_spec o op_) as [-> | _]; auto.
  rewrite Hinputs. simpl.
  replace (Nat.eqb t (n_tensors g)) with false
    by (symmetry; apply Nat.eqb_neq; lia).
  replace (Nat.eqb t inp) with false by (symmetry; now apply Nat.eqb_neq).
  reflexivity.
Qed.

Lemma listing_count_inp :
  listing_count g' inp
  = (listing_count g inp + Nat.b2n (id_in inp rest))%nat.
Proof.
  pose proof splice_inp_allocated as Hinp.
  rewrite listing_count_splice. rewrite Nat.eqb_refl. simpl Nat.b2n.
  pose proof (count_change
                (fun o => id_in inp (inputs (op g o)))
                (fun o => id_in inp (inputs (op g' o)))
                (n_ops g) op_ Hop) as Hc.
  cbv beta in Hc.
  destruct (splice_old_op g op_ inp Hop op_ Hop) as (_ & _ & _ & _ & Hi).
  rewrite Nat.eqb_refl in Hi. rewrite Hi, Hinputs in Hc. simpl in Hc.
  rewrite Nat.eqb_refl in Hc.
  replace (Nat.eqb inp (n_tensors g)) with false in Hc
    by (symmetry; apply Nat.eqb_neq; lia).
  simpl in Hc. unfold listing_count.
  assert (Hsame : forall o, (o < n_ops g)%nat -> o <> op_ ->
                    id_in inp (inputs (op g' o)) = id_in inp (inputs (op g o))).
  { intros o Ho Hne.
    destruct (splice_old_op g op_ inp Hop o Ho) as (_ & _ & _ & _ & ->).
    apply Nat.eqb_neq in Hne. now rewrite Hne. }
  exact (Hc Hsame).
Qed.

Lemma consumer_count_splice t :
  consumer_count g' t
  = if Nat.eqb t (n_tensors g) then 1%nat
    else if Nat.eqb t inp then S (consumer_count g t)
         else consumer_count g t.
Proof.
  unfold consumer_count. rewrite splice_tens.
  destruct (Nat.eqb t (n_tensors g)); simpl; auto.
  destruct (Nat.eqb_spec t inp) as [-> | _]; simpl; auto.
  rewrite length_app. simpl. lia.
Qed.

End SpliceCount.

(** *** Graphs reached by syntheses *)

Lemma synthesized_splice g0 g op_ inp a :
  (op_ < n_ops g)%nat -> synthesized g0 g a ->
  synthesized g0 (splice_avgpool g op_ inp) a.
Proof.
  intros Hop [Ha Hty]. split; [rewrite splice_n_ops; lia |].
  destruct (splice_old_op g op_ inp Hop a ltac:(lia)) as (-> & _). exact Hty.
Qed.

Lemma synthesized_new g0 g op_ inp :
  (op_ < n_ops g)%nat -> (n_ops g0 <= n_ops g)%nat ->
  synthesized g0 (splice_avgpool g op_ inp) (n_ops g).
Proof.
  intros Hop Hn. split; [rewrite splice_n_ops; lia |].
  now rewrite splice_new_op.
Qed.

(** One synthesis, seen from a tensor that was there before it. *)
Lemma splice_consumers g op_ inp rest t :
  (op_ < n_ops g)%nat -> wf_graph g -> inputs (op g op_) = inp :: rest ->
  (t < n_tensors g)%nat ->
  exists extra,
    consumer_list (tens (splice_avgpool g op_ inp) t)
    = consumer_list (tens g t) ++ map Some extra
    /\ (extra = [] \/ extra = [n_ops g])
    /\ (listing_count g t <= listing_count (splice_avgpool g op_ inp) t
        <= listing_count g t + List.length extra)%nat.
Proof.
  intros Hop Hwf Hin Ht. rewrite splice_tens.
  destruct (Nat.eqb_spec t (n_tensors g)) as [-> | _]; [lia |].
  destruct (Nat.eqb_spec t inp) as [-> | Hne].
  - exists [n_ops g]. split; [reflexivity |]. split; [now right |].
    rewrite (listing_count_inp g op_ inp rest) by auto.
    destruct (id_in inp rest); simpl; lia.
  - exists []. split; [now rewrite app_nil_r |]. split; [now left |].
    rewrite (listing_count_other g op_ inp rest) by auto. simpl. lia.
Qed.

Lemma evolves_consumers g0 g :
  wf_graph g0 -> evolves g0 g ->
  wf_graph g
  /\ (n_ops g0 <= n_ops g)%nat /\ (n_tensors g0 <= n_tensors g)%nat
  /\ consumers_kept g0 g.
Proof.
  intros Hwf0 Hev.
  induction Hev as [| g op_ inp rest Hev IH Hop Hinputs].
  - split; auto. split; auto. split; auto. split.
    + intros t Ht. exists []. split; [now rewrite app_nil_r |].
      split; [constructor | simpl; lia].
    + intros t Ht. lia.
  - destruct IH as (Hwf & Hn & Hnt & Hold & Hnew).
    split; [eapply splice_wf; eauto |].
    split; [rewrite splice_n_ops; lia |].
    split; [rewrite splice_n_tensors; lia |].
    assert (Hstep : forall added extra,
              Forall (synthesized g0 g) added ->
              extra = [] \/ extra = [n_ops g] ->
              Forall (synthesized g0 (splice_avgpool g op_ inp))
                     (added ++ extra)).
    { intros added extra Hadded Hextra. apply Forall_app. split.
      - eapply Forall_impl; [| exact Hadded].
        intros a. now apply synthesized_splice.
      - destruct Hextra as [-> | ->]; constructor; [| constructor].
        now apply synthesized_new. }
    split.
    + intros t Ht. destruct (Hold t Ht) as (added & Heq & Hadded & Hcount).
      destruct (splice_consumers g op_ inp rest t Hop Hwf Hinputs ltac:(lia))
        as (extra & Heq' & Hextra & Hcount').
      exists (added ++ extra). rewrite Heq', Heq, map_app, <- app_assoc.
      split; [reflexivity |]. split; [now apply Hstep |].
      rewrite length_app. lia.
    + intros t Ht. rewrite splice_n_tensors in Ht.
      destruct (Nat.eq_dec t (n_tensors g)) as [-> | Hne].
      * exists op_, []. rewrite splice_tens, Nat.eqb_refl. simpl.
        split; [reflexivity |]. split; [constructor |].
        rewrite (listing_count_new g op_ inp rest) by auto. lia.
      * destruct (Hnew t ltac:(lia)) as (o & added & Heq & Hadded & Hcount).
        destruct (splice_consumers g op_ inp rest t Hop Hwf Hinputs ltac:(lia))
          as (extra & Heq' & Hextra & Hcount').
        exists o, (added ++ extra). rewrite Heq', Heq, map_app. simpl.
        split; [reflexivity |]. split; [now apply Hstep |].
        rewrite length_app. lia.
Qed.

(** *** The loop of [build_pass] *)

Lemma can_pack_allocated g curr_op inp next_op :
  wf_graph g -> can_pack g curr_op inp = Some next_op ->
  (next_op < n_ops g)%nat.
Proof.
  intros [Hprod _]. unfold can_pack.
  destruct (ops (tens g inp)) as [| o [| ? ?]] eqn:Hops; try discriminate.
  destruct (forallb _ _); [| discriminate].
  intros [= <-]. apply (Hprod inp). rewrite Hops. now left.
Qed.

Lemma pack_inputs_allocated g curr_op inps :
  wf_graph g -> forall to_proc in_set,
  Forall (fun e => (fst e < n_ops g)%nat) to_proc ->
  Forall (fun e => (fst e < n_ops g)%nat)
         (fst (pack_inputs g curr_op inps to_proc in_set)).
Proof.
  intros Hwf. induction inps as [| inp inps IH]; simpl; auto.
  intros to_proc in_set Hall.
  destruct (can_pack g curr_op inp) as [next_op |] eqn:Hcan; auto.
  apply IH. apply Forall_app. split; auto. constructor; auto. simpl.
  eapply can_pack_allocated; eauto.
Qed.

Lemma carries_default g o :
  NpuBlockType_eqb
    match attr_npu_block_type (op g o) with Some b => b | None => Default end
    Default = true ->
  carries_block_typeb g o = false.
Proof.
  unfold carries_block_typeb. destruct (attr_npu_block_type (op g o)); auto.
  intros ->. reflexivity.
Qed.

Lemma NpuBlockType_eqb_eq a b : NpuBlockType_eqb a b = true <-> a = b.
Proof. destruct a, b; simpl; split; congruence. Qed.

Lemma process_ok g curr_op tens_ ls ls' :
  wf_graph g -> (curr_op < n_ops g)%nat -> loop_ok g ls ->
  process g curr_op tens_ ls = Ok ls' -> loop_ok g ls'.
Proof.
  intros Hwf Hcurr (Hq & Hops & Hprim). unfold process.
  destruct (id_in curr_op (reverse_ops_list ls)) eqn:Hseen.
  { intros [= <-]. repeat split; auto. }
  destruct (find_row _ _ _) as [r |].
  2: { destruct tens_; [| discriminate]. intros [= <-].
       repeat split; auto. }
  assert (Hops1 : Forall (fun o => (o < n_ops g)%nat)
                         (reverse_ops_list ls ++ [curr_op])).
  { apply Forall_app. split; auto. }
  assert (Hnew : ~ In curr_op (reverse_ops_list ls)).
  { intros Hin. apply id_in_In in Hin. congruence. }
  destruct (NpuBlockType_eqb
              match attr_npu_block_type (op g curr_op) with
              | Some b => b | None => Default end Default) eqn:Hblock.
  - (* the operation carries no block type *)
    apply carries_default in Hblock. simpl.
    destruct (_ && _).
    + destruct (pick_ifm g curr_op); simpl; try discriminate.
      destruct (pack_inputs _ _ _ _ _) as [tp ins] eqn:Hpack.
      intros [= <-]. unfold loop_ok. simpl.
      split; [| split; auto].
      * change tp with (fst (tp, ins)). rewrite <- Hpack.
        now apply pack_inputs_allocated.
      * destruct (loop_primary_op ls) as [p |].
        -- destruct Hprim as (Hin & Hattr & Hne & Huniq).
           repeat split; auto.
           ++ apply in_or_app. now left.
           ++ intros o Ho Hop. apply in_app_or in Ho.
              destruct Ho as [Ho | [<- | []]]; auto.
        -- destruct Hprim as (Hdef & Hnone). split; auto.
           intros o Ho. apply in_app_or in Ho.
           destruct Ho as [Ho | [<- | []]]; auto.
    + destruct (pack_inputs _ _ _ _ _) as [tp ins] eqn:Hpack.
      intros [= <-]. unfold loop_ok. simpl.
      split; [| split; auto].
      * change tp with (fst (tp, ins)). rewrite <- Hpack.
        now apply pack_inputs_allocated.
      * destruct (loop_primary_op ls) as [p |].
        -- destruct Hprim as (Hin & Hattr & Hne & Huniq).
           repeat split; auto.
           ++ apply in_or_app. now left.
           ++ intros o Ho Hop. apply in_app_or in Ho.
              destruct Ho as [Ho | [<- | []]]; auto.
        -- destruct Hprim as (Hdef & Hnone). split; auto.
           intros o Ho. apply in_app_or in Ho.
           destruct Ho as [Ho | [<- | []]]; auto.
  - (* the operation carries a block type: it becomes the primary op *)
    destruct (negb (NpuBlockType_eqb (loop_npu_block_type ls) Default));
      [discriminate |].
    destruct (loop_primary_op ls) as [p |]; [discriminate |].
    destruct Hprim as (Hdef & Hnone).
    assert (Hattr : attr_npu_block_type (op g curr_op)
                    = Some match attr_npu_block_type (op g curr_op) with
                           | Some b => b | None => Default end).
    { destruct (attr_npu_block_type (op g curr_op)); auto. discriminate. }
    assert (Hne : match attr_npu_block_type (op g curr_op) with
                  | Some b => b | None => Default end <> Default).
    { intros Heq. rewrite Heq in Hblock. discriminate. }
    simpl.
    destruct (_ && _).
    + destruct (pick_ifm g curr_op); simpl; try discriminate.
      destruct (pack_inputs _ _ _ _ _) as [tp ins] eqn:Hpack.
      intros [= <-]. unfold loop_ok. simpl.
      split; [| split; auto].
      * change tp with (fst (tp, ins)). rewrite <- Hpack.
        now apply pack_inputs_allocated.
      * repeat split; auto.
        -- apply in_or_app. right. now left.
        -- intros o Ho Hop. apply in_app_or in Ho.
           destruct Ho as [Ho | [<- | []]]; auto. congruence.
    + destruct (pack_inputs _ _ _ _ _) as [tp ins] eqn:Hpack.
      intros [= <-]. unfold loop_ok. simpl.
      split; [| split; auto].
      * change tp with (fst (tp, ins)). rewrite <- Hpack.
        now apply pack_inputs_allocated.
      * repeat split; auto.
        -- apply in_or_app. right. now left.
        -- intros o Ho Hop. apply in_app_or in Ho.
           destruct Ho as [Ho | [<- | []]]; auto. congruence.
Qed.

Lemma build_pass_loop_ok g fuel : forall ls ls',
  wf_graph g -> loop_ok g ls ->
  build_pass_loop fuel g ls = Ok ls' ->
  loop_ok g ls' /\ to_process ls' = [].
Proof.
  induction fuel as [| fuel IH]; intros ls ls' Hwf Hok; simpl.
  - destruct (to_process ls) as [| [curr_op tens_] rest] eqn:Hq;
      [| discriminate].
    intros [= <-]. auto.
  - destruct (to_process ls) as [| [curr_op tens_] rest] eqn:Hq.
    { intros [= <-]. auto. }
    destruct (process g curr_op tens_ (pop ls rest)) as [ls1 | |] eqn:Hp;
      try discriminate.
    intros Hloop. apply (IH ls1 ls'); auto.
    destruct Hok as (Hall & Hops & Hprim). rewrite Hq in Hall.
    inversion Hall as [| ? ? Hc Hrest]; subst.
    eapply process_ok; eauto. repeat split; auto.
Qed.

Lemma start_loop_ok g start_ops :
  Forall (fun o => (o < n_ops g)%nat) start_ops ->
  loop_ok g (start_loop start_ops).
Proof.
  intros H. unfold loop_ok, start_loop. simpl. repeat split; auto.
  - apply Forall_forall. intros e He. apply in_map_iff in He.
    destruct He as (o & <- & Ho). simpl.
    rewrite Forall_forall in H. auto.
  - intros o [].
Qed.

(** *** [build_pass] *)

Lemma existsb_false_forall {A} (f : A -> bool) l :
  existsb f l = false <-> forall x, In x l -> f x = false.
Proof.
  induction l as [| a l IH]; simpl; [intuition |].
  rewrite orb_false_iff, IH. intuition (subst; auto).
Qed.

Lemma carries_splice g op_ inp o :
  (op_ < n_ops g)%nat -> (o < n_ops g)%nat ->
  carries_block_typeb (splice_avgpool g op_ inp) o = carries_block_typeb g o.
Proof.
  intros Hop Ho. unfold carries_block_typeb.
  destruct (splice_old_op g op_ inp Hop o Ho) as (_ & _ & -> & _). reflexivity.
Qed.

Lemma make_pass_fields g1 rc1 ls pl ew ops_list1 primary block in_set ofm b :
  make_pass g1 rc1 ls pl ew ops_list1 primary block in_set ofm = Ok b ->
  built_graph b = g1 /\ built_refcount b = rc1
  /\ placement (built_pass b) = pl
  /\ ps_ops (built_pass b) = ops_list1
  /\ primary_op (built_pass b) = primary
  /\ npu_block_type (built_pass b) = block.
Proof.
  unfold make_pass. destruct ops_list1; [discriminate |].
  destruct (match primary with Some _ => _ | None => _ end) as [ifms | |];
    simpl; try discriminate.
  destruct pl, ofm; try discriminate; intros [= <-]; simpl; auto 10.
Qed.

(** What [synthesize_primary] returns: either the primary op found by
    the loop, in the same graph; or a new average pool at the head of
    the list, in the spliced graph; or nothing, when no operation of
    the pass has a pre, post or post-fusing-limited type. *)
Lemma synthesize_primary_cases g rc ls ops_list g1 ops_list1 primary rc1 block ins :
  synthesize_primary g rc ls ops_list
  = Ok (g1, ops_list1, primary, rc1, block, ins) ->
  (exists p, loop_primary_op ls = Some p /\ primary = Some p
             /\ g1 = g /\ ops_list1 = ops_list
             /\ block = loop_npu_block_type ls)
  \/ (loop_primary_op ls = None
      /\ existsb (fun o => is_synthesis_trigger (type (op g o))) ops_list = true
      /\ exists op_ rest_ops inp rest,
           ops_list = op_ :: rest_ops /\ inputs (op g op_) = inp :: rest
           /\ g1 = splice_avgpool g op_ inp
           /\ ops_list1 = n_ops g :: ops_list
           /\ primary = Some (n_ops g)
           /\ (op_ < n_ops g -> block = Pooling)%nat)
  \/ (loop_primary_op ls = None
      /\ existsb (fun o => is_synthesis_trigger (type (op g o))) ops_list = false
      /\ primary = None /\ g1 = g /\ ops_list1 = ops_list
      /\ block = loop_npu_block_type ls).
Proof.
  unfold synthesize_primary, create_primary_op.
  destruct (loop_primary_op ls) as [p |].
  { intros [= <- <- <- <- <- <-]. left. exists p. auto 10. }
  destruct (existsb _ ops_list) eqn:Htrig.
  2: { simpl. intros [= <- <- <- <- <- <-]. right. right. auto 10. }
  destruct ops_list as [| op_ rest_ops]; [discriminate |].
  destruct (inputs (op g op_)) as [| inp rest] eqn:Hin; [discriminate |].
  simpl bind. cbv beta iota.
  destruct (inputs (op (splice_avgpool g op_ inp) (n_ops g))) as [| i0 ?] eqn:Hi;
    [discriminate |].
  destruct (attr_npu_block_type (op (splice_avgpool g op_ inp) (n_ops g)))
    as [bt |] eqn:Hattr; [| discriminate].
  intros [= <- <- <- <- <- <-]. right. left.
  split; auto. split; auto.
  exists op_, rest_ops, inp, rest. repeat split; auto.
  intros Hop. rewrite splice_new_op in Hattr by auto. simpl in Hattr. congruence.
Qed.

Lemma build_pass_body_ok fuel g rc start_ops ofm b :
  wf_graph g -> Forall (fun o => (o < n_ops g)%nat) start_ops ->
  build_pass_body fuel g rc start_ops ofm = Ok b ->
  (built_graph b = g
   \/ exists op_ inp rest,
        (op_ < n_ops g)%nat /\ inputs (op g op_) = inp :: rest
        /\ built_graph b = splice_avgpool g op_ inp)
  /\ pass_ok (built_graph b) (built_pass b).
Proof.
  intros Hwf Hstart. unfold build_pass_body.
  destruct (build_pass_loop fuel g (start_loop start_ops)) as [ls | |] eqn:Hloop;
    simpl; try discriminate.
  apply build_pass_loop_ok in Hloop; auto using start_loop_ok.
  destruct Hloop as ((_ & Hops & Hprim) & _).
  destruct (choose_placement _) as [pl | |]; simpl; try discriminate.
  destruct (synthesize_primary g rc ls (rev (reverse_ops_list ls)))
    as [[[[[[g1 ops_list1] primary] rc1] block] ins] | |] eqn:Hsyn;
    simpl; try discriminate.
  intros Hmake. apply make_pass_fields in Hmake.
  destruct Hmake as (Hg & _ & _ & Hpsops & Hpsprim & Hpsblock).
  assert (Hrev : Forall (fun o => (o < n_ops g)%nat) (rev (reverse_ops_list ls))).
  { apply Forall_forall. intros o Ho. apply in_rev in Ho.
    rewrite Forall_forall in Hops. auto. }
  unfold pass_ok, primary_op_spec. rewrite Hg, Hpsops, Hpsprim, Hpsblock.
  apply synthesize_primary_cases in Hsyn.
  destruct Hsyn as [(p & Hp & -> & -> & -> & ->)
                   | [(Hp & Htrig & op_ & rest_ops & inp & rest & Hl & Hin
                       & -> & -> & -> & Hblock)
                     | (Hp & Htrig & -> & -> & -> & ->)]];
    rewrite Hp in Hprim.
  - (* the loop found the primary op *)
    destruct Hprim as (Hin & Hattr & Hne & Huniq).
    split; [now left |]. split; auto.
    replace (existsb _ _) with true.
    + exists p. repeat split; auto.
      * now apply -> in_rev.
      * intros o Ho. apply in_rev in Ho. auto.
    + symmetry. apply existsb_exists. exists p. split; [now apply -> in_rev |].
      unfold carries_block_typeb. rewrite Hattr.
      destruct (loop_npu_block_type ls); simpl; auto; congruence.
  - (* an average pool is synthesized *)
    destruct Hprim as (Hdef & Hnone).
    assert (Hop : (op_ < n_ops g)%nat).
    { rewrite Forall_forall in Hrev. apply Hrev. rewrite Hl. now left. }
    specialize (Hblock Hop). subst block.
    split; [right; eauto 10 |]. split.
    + constructor; [rewrite splice_n_ops; lia |].
      apply Forall_forall. intros o Ho. rewrite splice_n_ops.
      rewrite Forall_forall in Hrev. specialize (Hrev o Ho). lia.
    + simpl existsb. unfold carries_block_typeb at 1.
      rewrite splice_new_op by auto. simpl.
      exists (n_ops g). repeat split; auto; try discriminate.
      * now rewrite splice_new_op.
      * intros o [<- | Ho] Hne; [congruence |].
        rewrite Forall_forall in Hrev.
        rewrite carries_splice by auto. apply Hnone. now apply in_rev.
  - (* no primary op *)
    destruct Hprim as (Hdef & Hnone).
    split; [now left |]. split; auto.
    replace (existsb _ _) with false; auto.
    symmetry. apply existsb_false_forall. intros o Ho.
    rewrite existsb_false_forall in Htrig.
    rewrite (Htrig o Ho), orb_false_r. apply Hnone. now apply in_rev.
Qed.

(** *** The traversal *)

Lemma existsb_ext_in {A} (f f' : A -> bool) l :
  (forall x, In x l -> f x = f' x) -> existsb f l = existsb f' l.
Proof.
  induction l as [| a l IH]; simpl; auto. intros H.
  rewrite (H a), IH; auto.
Qed.

Lemma pass_ok_splice g op_ inp ps :
  (op_ < n_ops g)%nat -> pass_ok g ps -> pass_ok (splice_avgpool g op_ inp) ps.
Proof.
  intros Hop [Hall Hspec]. split.
  - apply Forall_forall. intros o Ho. rewrite splice_n_ops.
    rewrite Forall_forall in Hall. specialize (Hall o Ho). lia.
  - unfold primary_op_spec in *. rewrite Forall_forall in Hall.
    assert (Hsame : existsb (fun o => carries_block_typeb (splice_avgpool g op_ inp) o
                                      || is_synthesis_trigger
                                           (type (op (splice_avgpool g op_ inp) o)))
                            (ps_ops ps)
                    = existsb (fun o => carries_block_typeb g o
                                        || is_synthesis_trigger (type (op g o)))
                              (ps_ops ps)).
    { apply existsb_ext_in. intros o Ho. rewrite carries_splice by auto.
      destruct (splice_old_op g op_ inp Hop o (Hall o Ho)) as (-> & _). reflexivity. }
    rewrite Hsame. destruct (existsb _ _); auto.
    destruct Hspec as (p & Hp & Hin & Hattr & Hne & Huniq).
    exists p. repeat split; auto.
    + destruct (splice_old_op g op_ inp Hop p (Hall p Hin)) as (_ & _ & -> & _).
      exact Hattr.
    + intros o Ho Hop'. rewrite carries_splice by auto. auto.
Qed.

Lemma pass_ok_evolves g g' ps :
  evolves g g' -> pass_ok g ps -> pass_ok g' ps.
Proof.
  intros Hev Hok. induction Hev; auto. apply pass_ok_splice; auto.
Qed.

Lemma evolves_trans g0 g1 g2 :
  evolves g0 g1 -> evolves g1 g2 -> evolves g0 g2.
Proof.
  intros H01 H12. induction H12; auto. econstructor; eauto.
Qed.

Lemma evolves_n_ops g g' : evolves g g' -> (n_ops g <= n_ops g')%nat.
Proof.
  induction 1; auto. rewrite splice_n_ops. lia.
Qed.

Lemma for_each_inv {A S} (body : A -> S -> Result S) (I : S -> Prop) l :
  (forall x s s', In x l -> I s -> body x s = Ok s' -> I s') ->
  forall s s', I s -> for_each body l s = Ok s' -> I s'.
Proof.
  induction l as [| x l IH]; simpl; intros Hbody s s' Hs.
  - now intros [= <-].
  - destruct (body x s) as [s1 | |] eqn:Hx; simpl; try discriminate.
    apply IH; eauto.
Qed.

Lemma pack_inv_step g0 g op_ inp rest vo vt sl pl :
  (op_ < n_ops g)%nat -> inputs (op g op_) = inp :: rest ->
  pack_inv g0 (mkPackState g vo vt sl pl) ->
  forall vo' vt',
    pack_inv g0 (mkPackState (splice_avgpool g op_ inp) vo' vt' sl pl).
Proof.
  intros Hop Hin (Hwf & Hev & Hsl & Hpl) vo' vt'. simpl in *.
  unfold pack_inv. simpl. split; [eapply splice_wf; eauto |].
  split; [econstructor; eauto |]. split.
  - apply Forall_forall. intros o Ho. rewrite Forall_forall in Hsl.
    destruct (Hsl o Ho) as [Halloc Hty]. rewrite splice_n_ops.
    split; [lia |].
    destruct (splice_old_op g op_ inp Hop o Halloc) as (-> & _). exact Hty.
  - apply Forall_forall. intros ps Hps. rewrite Forall_forall in Hpl.
    apply pass_ok_splice; auto.
Qed.

Lemma build_pass_body_inv g0 fuel g vo vt sl pl start_ops ofm b :
  pack_inv g0 (mkPackState g vo vt sl pl) ->
  Forall (fun o => (o < n_ops g)%nat) start_ops ->
  build_pass_body fuel g vt start_ops ofm = Ok b ->
  pack_inv g0 (mkPackState (built_graph b) vo (built_refcount b) sl
                           (pl ++ [built_pass b]))
  /\ (n_ops g <= n_ops (built_graph b))%nat.
Proof.
  intros Hinv Hcall Hbody.
  pose proof Hinv as (Hwf & _). simpl in Hwf.
  apply build_pass_body_ok in Hbody; auto.
  destruct Hbody as [Hgraph Hpass].
  destruct Hgraph as [Hg | (o & inp & rest & Ho & Hin & Hg)]; rewrite Hg in *.
  - split; auto. destruct Hinv as (? & ? & ? & Hpl). unfold pack_inv. simpl in *.
    repeat split; auto; try apply Hwf. apply Forall_app. split; auto.
  - split; [| rewrite splice_n_ops; lia].
    pose proof (pack_inv_step g0 g o inp rest vo vt sl pl Ho Hin Hinv
                              vo (built_refcount b)) as (H1 & H2 & H3 & H4).
    unfold pack_inv. simpl in *. repeat split; auto; try apply H1.
    apply Forall_app. split; auto.
Qed.

Section Traversal.
Variable get_ofm : Graph -> ObjId -> option ObjId.
Variable g0 : Graph.

Local Notation run := (PassPacking.run get_ofm).
Local Arguments Nat.eqb : simpl never.
Local Arguments Nat.ltb : simpl never.
Local Arguments Nat.leb : simpl never.
Local Arguments mem : simpl never.

Lemma run_inv fuel : forall c st st',
  run fuel c st = Ok st' -> pack_inv g0 st -> call_ok (graph st) c ->
  pack_inv g0 st' /\ (n_ops (graph st) <= n_ops (graph st'))%nat.
Proof.
  induction fuel as [| fuel IH]; intros c st st'; [discriminate |].
  destruct st as [g vo vt sl pl]. simpl graph.
  intros Hrun Hinv Hcall. destruct c as [tens_ | op_ | start_ops ofm];
    simpl in Hrun.
  - (* visit_tensor *)
    destruct (_ <? _)%nat; [discriminate |].
    destruct (_ =? _)%nat.
    2: { injection Hrun as <-. split; auto. }
    revert Hrun.
    apply (for_each_inv _ (fun s => pack_inv g0 s
                                    /\ (n_ops g <= n_ops (graph s))%nat)).
    + intros o s s' Ho [Hs Hn] Hbody.
      apply IH in Hbody; auto.
      * destruct Hbody. split; auto. lia.
      * simpl. apply in_rev in Ho.
        destruct Hinv as ((Hprod & _) & _). simpl in Hprod.
        specialize (Hprod _ _ Ho). lia.
    + split; auto.
  - (* visit_op *)
    simpl in Hcall.
    destruct (_ <? _)%nat; [discriminate |].
    destruct (_ =? List.length (outputs (op g op_)))%nat.
    2: { injection Hrun as <-. split; auto. }
    destruct (mem (type (op g op_)) startup_init_ops) eqn:Hstartup.
    + injection Hrun as <-. split; auto.
      destruct Hinv as (Hwf & Hev & Hsl & Hpl). unfold pack_inv. simpl in *.
      repeat split; auto; try apply Hwf.
      apply Forall_app. split; auto.
    + destruct (match get_ofm g op_ with Some t => Some t | None => _ end);
        [| discriminate].
      apply IH in Hrun; auto. simpl. auto.
  - (* build_pass *)
    simpl in Hcall.
    destruct (build_pass_body fuel g vt start_ops ofm) as [b | |] eqn:Hbody;
      simpl in Hrun; try discriminate.
    pose proof (build_pass_body_inv g0 fuel g vo vt sl pl start_ops ofm b
                                    Hinv Hcall Hbody) as Hinv1.
    revert Hrun.
    apply (for_each_inv _ (fun s => pack_inv g0 s
                                    /\ (n_ops g <= n_ops (graph s))%nat)); auto.
    intros t s s' _ [Hs Hn] Hrun.
    apply IH in Hrun; simpl; auto.
    destruct Hrun. split; auto. lia.
Qed.

End Traversal.

(** *** Flags *)

Lemma flags_closed_true : flags_closed = true.
Proof. vm_compute. reflexivity. Qed.

Lemma forallb_zrange (P : Z -> bool) n : forall a f,
  forallb P (zrange n a) = true -> a <= f < a + Z.of_nat n -> P f = true.
Proof.
  induction n as [| n IH]; intros a f H Hf; [lia |].
  simpl zrange in H. simpl forallb in H. apply andb_true_iff in H.
  destruct H as [Ha Hrest].
  destruct (Z.eq_dec f a) as [-> | Hne]; auto.
  apply (IH (a + 1)); auto. lia.
Qed.

Lemma flags_check_at f : 0 <= f < flags_bound -> flags_check f = true.
Proof.
  intros Hf. pose proof flags_closed_true as H. unfold flags_closed in H.
  revert H. generalize (Z.to_nat flags_bound) (Z2Nat.id flags_bound).
  intros n Hn H. apply (forallb_zrange _ _ _ _ H).
  rewrite Hn by discriminate. lia.
Qed.

Lemma flags_closed_at f :
  0 <= f < flags_bound ->
  (forall r, In r test_sequence -> placed_flags f = true ->
             has f (incompatible_pack_flags r) = false ->
             placed_flags (apply_row f r) = true
             /\ 0 <= apply_row f r < flags_bound)
  /\ (one_placement_flag f = true -> one_placement_flag (final_flags f) = true).
Proof.
  intros Hf. pose proof (flags_check_at f Hf) as H. unfold flags_check in H.
  apply andb_true_iff in H. destruct H as [Hrows Hfinal]. split.
  - intros r Hr Hplaced Hcompat.
    pose proof (proj1 (forallb_forall _ _) Hrows r Hr) as Hrow.
    cbv beta in Hrow. rewrite Hplaced, Hcompat in Hrow.
    change (implb (true && negb false)) with (fun b : bool => b) in Hrow.
    cbv beta in Hrow.
    apply andb_true_iff in Hrow. destruct Hrow as [Hrow Hhi].
    apply andb_true_iff in Hrow. destruct Hrow as [Hp Hlo].
    split; [exact Hp |].
    apply Z.leb_le in Hlo. apply Z.ltb_lt in Hhi. split; assumption.
  - intros Hone. rewrite Hone in Hfinal. exact Hfinal.
Qed.

Lemma find_row_some ty on_npu flags r :
  find_row ty on_npu flags = Some r ->
  In r test_sequence /\ row_applies ty on_npu flags r = true.
Proof. apply find_some. Qed.

Lemma row_applies_compatible ty on_npu flags r :
  row_applies ty on_npu flags r = true ->
  has flags (incompatible_pack_flags r) = false.
Proof.
  unfold row_applies. intros H. apply andb_true_iff in H. destruct H as [H _].
  apply andb_true_iff in H. destruct H as [_ H]. now apply negb_true_iff in H.
Qed.

Lemma find_row_empty ty on_npu :
  exists r, find_row ty on_npu PassFlags.Empty = Some r.
Proof.
  destruct (find_row ty on_npu PassFlags.Empty) as [r |] eqn:H; eauto.
  exfalso. unfold find_row in H.
  pose proof (find_none _ _ H (mkRow None
     (Z.lor (Z.lor PassFlags.Npu PassFlags.MemoryOnly) PassFlags.Main)
     (Z.lor PassFlags.Cpu PassFlags.Main) PassFlags.Empty)) as Hnone.
  simpl in Hnone. discriminate Hnone. intuition.
Qed.

(** What one iteration does to the flags and the lists. *)
Lemma process_cases g curr_op tens_ ls ls' :
  process g curr_op tens_ ls = Ok ls' ->
  (id_in curr_op (reverse_ops_list ls) = true /\ ls' = ls)
  \/ (id_in curr_op (reverse_ops_list ls) = false
      /\ find_row (type (op g curr_op)) (run_on_npu (op g curr_op))
                  (curr_flags ls) = None
      /\ curr_flags ls' = curr_flags ls
      /\ to_process ls' = to_process ls
      /\ reverse_ops_list ls' = reverse_ops_list ls)
  \/ (id_in curr_op (reverse_ops_list ls) = false
      /\ exists r,
           find_row (type (op g curr_op)) (run_on_npu (op g curr_op))
                    (curr_flags ls) = Some r
           /\ curr_flags ls' = apply_row (curr_flags ls) r
           /\ reverse_ops_list ls' = reverse_ops_list ls ++ [curr_op]
           /\ to_process ls'
              = fst (pack_inputs g curr_op (inputs (op g curr_op))
                                 (to_process ls) (input_set ls))).
Proof.
  unfold process. destruct (id_in curr_op (reverse_ops_list ls)).
  { intros [= <-]. auto. }
  destruct (find_row _ _ _) as [r |].
  2: { destruct tens_; [| discriminate]. intros [= <-]. right. left. auto 10. }
  intros H. right. right. split; auto. exists r. split; auto. revert H.
  destruct (if NpuBlockType_eqb _ Default then _ else _) as [[bt pr] | |];
    try discriminate.
  destruct (if _ && _ then _ else _) as [ifm1 | |]; try discriminate.
  destruct (pack_inputs _ _ _ _ _) as [tp ins].
  intros [= <-]. simpl. auto.
Qed.

Lemma startup_type_cases ty :
  mem ty startup_init_ops = true ->
  ty = "Const"%string \/ ty = "VariableV2"%string
  \/ ty = "Placeholder"%string \/ ty = "SubgraphInput"%string.
Proof.
  unfold mem, startup_init_ops. simpl. rewrite !orb_true_iff.
  rewrite !String.eqb_eq. intuition discriminate.
Qed.

Lemma find_row_startup ty on_npu flags :
  mem ty startup_init_ops = true ->
  flags = PassFlags.Empty \/ flags = startup_flags ->
  exists r, find_row ty on_npu flags = Some r
            /\ apply_row flags r = startup_flags.
Proof.
  intros Hty Hf. apply startup_type_cases in Hty.
  destruct Hty as [-> | [-> | [-> | ->]]]; destruct Hf as [-> | ->];
    destruct on_npu; eexists; split; vm_compute; reflexivity.
Qed.

Lemma first_row_not_startup ty on_npu r :
  mem ty startup_init_ops = false ->
  find_row ty on_npu PassFlags.Empty = Some r ->
  placed_flags (apply_row PassFlags.Empty r) = true
  /\ 0 <= apply_row PassFlags.Empty r < flags_bound.
Proof.
  intros Hty Hfind. apply find_row_some in Hfind. destruct Hfind as [Hin Happ].
  unfold test_sequence in Hin. cbn [In] in Hin.
  repeat (destruct Hin as [<- | Hin];
          [first [ split; [reflexivity | split; [discriminate | reflexivity]]
                 | unfold row_applies in Happ; cbn [operation_set] in Happ;
                   rewrite Hty in Happ; discriminate Happ ] |]).
  destruct Hin.
Qed.


(** *** The flags of a pass *)

Lemma process_single g curr_op tens_ rest ls ls' :
  to_process ls = (curr_op, tens_) :: rest ->
  single_inv g ls ->
  process g curr_op tens_ (pop ls rest) = Ok ls' ->
  placed_flags (curr_flags ls') = true /\ 0 <= curr_flags ls' < flags_bound.
Proof.
  intros Hq Hinv Hp. apply process_cases in Hp. simpl in Hp.
  destruct Hinv as [[Hplaced Hb] | (Hempty & Hnil & o & t & rest' & Hq' & Hty)].
  - destruct Hp as [[_ ->] | [(_ & _ & -> & _) | (_ & r & Hr & -> & _)]];
      simpl; auto.
    apply find_row_some in Hr. destruct Hr as [Hin Happ].
    apply row_applies_compatible in Happ.
    destruct (flags_closed_at _ Hb) as [Hrows _]. apply Hrows; auto.
  - rewrite Hq in Hq'. injection Hq' as -> -> ->.
    rewrite Hnil, Hempty in Hp.
    destruct Hp as [[Hp _] | [(_ & Hnone & _) | (_ & r & Hr & -> & _)]].
    + discriminate Hp.
    + destruct (find_row_empty (type (op g o)) (run_on_npu (op g o))) as [r Hr].
      congruence.
    + eapply first_row_not_startup; eauto.
Qed.

Lemma build_pass_loop_placed g fuel : forall ls ls',
  placed_flags (curr_flags ls) = true /\ 0 <= curr_flags ls < flags_bound ->
  build_pass_loop fuel g ls = Ok ls' ->
  placed_flags (curr_flags ls') = true /\ 0 <= curr_flags ls' < flags_bound.
Proof.
  induction fuel as [| fuel IH]; intros ls ls' Hinv; simpl;
    destruct (to_process ls) as [| [curr_op tens_] rest] eqn:Hq;
    try discriminate; try (intros [= <-]; exact Hinv).
  destruct (process g curr_op tens_ (pop ls rest)) as [ls1 | |] eqn:Hp;
    try discriminate.
  apply IH. eapply process_single; eauto. now left.
Qed.

Lemma build_pass_loop_single g fuel o ls' :
  mem (type (op g o)) startup_init_ops = false ->
  build_pass_loop fuel g (start_loop [o]) = Ok ls' ->
  placed_flags (curr_flags ls') = true /\ 0 <= curr_flags ls' < flags_bound.
Proof.
  intros Hty. destruct fuel as [| fuel]; simpl; [discriminate |].
  destruct (process g o None _) as [ls1 | |] eqn:Hp; try discriminate.
  apply build_pass_loop_placed.
  eapply process_single; [| | exact Hp]; [reflexivity |].
  right. simpl. repeat split; auto. exists o, None, []. auto.
Qed.

Lemma process_startup g curr_op tens_ rest ls ls' :
  to_process ls = (curr_op, tens_) :: rest ->
  startup_inv g ls ->
  process g curr_op tens_ (pop ls rest) = Ok ls' ->
  startup_inv g ls' /\ curr_flags ls' = startup_flags.
Proof.
  intros Hq [Hall Hflags] Hp. rewrite Hq in Hall.
  inversion Hall as [| ? ? [Hty Hin] Hrest]; subst. simpl in Hty, Hin.
  apply process_cases in Hp. simpl in Hp.
  assert (Hf : curr_flags ls = PassFlags.Empty \/ curr_flags ls = startup_flags).
  { destruct Hflags as [(? & _) | ?]; auto. }
  destruct (find_row_startup _ (run_on_npu (op g curr_op)) _ Hty Hf)
    as (r & Hr & Hset).
  destruct Hp as [[Hdone ->] | [(_ & Hnone & _) | (_ & r' & Hr' & Hfl & _ & Htp)]].
  - destruct Hflags as [(_ & Hnil & _) | Hs].
    + rewrite Hnil in Hdone. discriminate Hdone.
    + unfold startup_inv. simpl. auto.
  - congruence.
  - rewrite Hr in Hr'. injection Hr' as <-. rewrite Hin in Htp. simpl in Htp.
    rewrite Hset in Hfl. split; auto. unfold startup_inv.
    rewrite Htp, Hfl. auto.
Qed.

Lemma build_pass_loop_startup g fuel : forall ls ls',
  startup_inv g ls ->
  build_pass_loop fuel g ls = Ok ls' ->
  curr_flags ls' = startup_flags.
Proof.
  induction fuel as [| fuel IH]; intros ls ls' Hinv; simpl;
    destruct (to_process ls) as [| [curr_op tens_] rest] eqn:Hq;
    try discriminate;
    try (intros [= <-]; destruct Hinv as [_ [(_ & _ & Hne) | Hs]];
         [congruence | exact Hs]).
  destruct (process g curr_op tens_ (pop ls rest)) as [ls1 | |] eqn:Hp;
    try discriminate.
  apply IH. eapply process_startup; eauto.
Qed.

Lemma start_loop_startup g start_ops :
  startup_start g start_ops -> startup_inv g (start_loop start_ops).
Proof.
  intros [Hne Hall]. unfold startup_inv, start_loop. simpl. split.
  - apply Forall_forall. intros e He. apply in_map_iff in He.
    destruct He as (o & <- & Ho). cbn [fst].
    rewrite Forall_forall in Hall. exact (Hall o Ho).
  - left. repeat split; auto. destruct start_ops; [congruence | discriminate].
Qed.

Lemma one_placement_flag_choose flags :
  one_placement_flag flags = true -> exists p, choose_placement flags = Ok p.
Proof.
  unfold one_placement_flag, choose_placement, assign_placement.
  destruct (has flags PassFlags.Npu), (has flags PassFlags.Cpu),
    (has flags PassFlags.MemoryOnly), (has flags PassFlags.StartupInit);
    try discriminate; simpl; eauto.
Qed.

(** The flags at the end of the loop, in the two ways [build_pass] is
    called. *)
Lemma build_pass_loop_flags g fuel start_ops ls :
  single_start g start_ops \/ startup_start g start_ops ->
  build_pass_loop fuel g (start_loop start_ops) = Ok ls ->
  one_placement_flag (final_flags (curr_flags ls)) = true.
Proof.
  intros [(o & -> & Hty) | Hstart] Hloop.
  - destruct (build_pass_loop_single g fuel o ls Hty Hloop) as [Hplaced Hb].
    destruct (flags_closed_at _ Hb) as [_ Hfinal]. apply Hfinal.
    unfold placed_flags in Hplaced. apply andb_true_iff in Hplaced. tauto.
  - apply build_pass_loop_startup in Hloop; auto using start_loop_startup.
    rewrite Hloop. reflexivity.
Qed.

(** *** The assertions on [placement] *)

Lemma bind_no_placement {A B} (c : Result A) (k : A -> Result B) :
  no_placement_failure c ->
  (forall a, c = Ok a -> no_placement_failure (k a)) ->
  no_placement_failure (bind c k).
Proof.
  destruct c; simpl; auto.
Qed.

Lemma pick_ifm_no_placement g curr_op : no_placement_failure (pick_ifm g curr_op).
Proof.
  unfold pick_ifm. destruct (_ <? _)%nat; [reflexivity |].
  destruct (nth_error _ _); [| reflexivity].
  destruct (Lut.TensorPurpose_eqb _ _); [exact I | reflexivity].
Qed.

Lemma process_no_placement g curr_op tens_ ls :
  no_placement_failure (process g curr_op tens_ ls).
Proof.
  unfold process. destruct (id_in _ _); [exact I |].
  destruct (find_row _ _ _) as [r |].
  2: { destruct tens_; [exact I | reflexivity]. }
  destruct (NpuBlockType_eqb _ Default).
  2: { destruct (negb _); [reflexivity |].
       destruct (loop_primary_op ls); [reflexivity |].
       destruct (_ && _).
       - pose proof (pick_ifm_no_placement g curr_op) as H.
         destruct (pick_ifm g curr_op); auto.
         destruct (pack_inputs _ _ _ _ _); exact I.
       - destruct (pack_inputs _ _ _ _ _); exact I. }
  destruct (_ && _).
  - pose proof (pick_ifm_no_placement g curr_op) as H.
    destruct (pick_ifm g curr_op); auto.
    destruct (pack_inputs _ _ _ _ _); exact I.
  - destruct (pack_inputs _ _ _ _ _); exact I.
Qed.

Lemma build_pass_loop_no_placement g fuel : forall ls,
  no_placement_failure (build_pass_loop fuel g ls).
Proof.
  induction fuel as [| fuel IH]; intros ls; simpl;
    destruct (to_process ls) as [| [curr_op tens_] rest]; try exact I.
  pose proof (process_no_placement g curr_op tens_ (pop ls rest)) as H.
  destruct (process g curr_op tens_ (pop ls rest)); auto.
Qed.

Lemma synthesize_primary_no_placement g rc ls ops_list :
  no_placement_failure (synthesize_primary g rc ls ops_list).
Proof.
  unfold synthesize_primary, create_primary_op.
  destruct (loop_primary_op ls); [exact I |].
  destruct (existsb _ _); [| exact I].
  destruct ops_list as [| op_ ops_list]; [reflexivity |].
  destruct (inputs (op g op_)) as [| inp rest]; [reflexivity |].
  cbn [bind].
  destruct (inputs (op (splice_avgpool g op_ inp) (n_ops g))); [reflexivity |].
  destruct (attr_npu_block_type _); [exact I | reflexivity].
Qed.

Lemma make_pass_no_placement g1 rc1 ls pl ew ops_list1 primary block in_set ofm :
  no_placement_failure
    (make_pass g1 rc1 ls pl ew ops_list1 primary block in_set ofm).
Proof.
  unfold make_pass. destruct ops_list1; [reflexivity |].
  apply bind_no_placement.
  - destruct primary; [| exact I]. destruct (mem _ _); [| exact I].
    destruct (map fst _) as [| ? [| ? ?]]; try exact I. reflexivity.
  - intros ifms _. destruct pl, ofm; try exact I; reflexivity.
Qed.

Lemma build_pass_body_no_placement fuel g rc start_ops ofm :
  single_start g start_ops \/ startup_start g start_ops ->
  no_placement_failure (build_pass_body fuel g rc start_ops ofm).
Proof.
  intros Hstart. unfold build_pass_body.
  apply bind_no_placement; [apply build_pass_loop_no_placement |].
  intros ls Hloop.
  destruct (one_placement_flag_choose _
              (build_pass_loop_flags g fuel start_ops ls Hstart Hloop))
    as [pl ->].
  cbn [bind]. apply bind_no_placement;
    [apply synthesize_primary_no_placement |].
  intros [[[[[g1 ops_list1] primary] rc1] block] ins] _.
  apply make_pass_no_placement.
Qed.

Lemma for_each_no_placement {A S} (body : A -> S -> Result S) (Inv : S -> Prop) l :
  (forall x s, In x l -> Inv s ->
               no_placement_failure (body x s)
               /\ forall s', body x s = Ok s' -> Inv s') ->
  forall s, Inv s -> no_placement_failure (for_each body l s).
Proof.
  induction l as [| x l IH]; simpl; intros Hbody s Hs; [exact I |].
  destruct (Hbody x s (or_introl eq_refl) Hs) as [Hsafe Hnext].
  destruct (body x s) as [s1 | |]; simpl; auto.
Qed.

Section TraversalSafe.
Variable get_ofm : Graph -> ObjId -> option ObjId.
Variable g0 : Graph.

Local Notation run := (PassPacking.run get_ofm).
Local Arguments Nat.eqb : simpl never.
Local Arguments Nat.ltb : simpl never.
Local Arguments Nat.leb : simpl never.
Local Arguments mem : simpl never.

Lemma run_no_placement fuel : forall c st,
  pack_inv g0 st -> call_ok (graph st) c -> call_start (graph st) c ->
  no_placement_failure (run fuel c st).
Proof.
  induction fuel as [| fuel IH]; intros c st; [intros; exact I |].
  destruct st as [g vo vt sl pl]. cbn [graph].
  intros Hinv Hcall Hstart. destruct c as [tens_ | op_ | start_ops ofm]; simpl.
  - (* visit_tensor *)
    destruct (_ <? _)%nat; [reflexivity |].
    destruct (_ =? _)%nat; [| exact I].
    apply (for_each_no_placement _ (fun s => pack_inv g0 s
                                    /\ (n_ops g <= n_ops (graph s))%nat));
      [| split; auto].
    intros o s Ho [Hs Hn].
    assert (Hcall' : call_ok (graph s) (VisitOp o)).
    { simpl. apply in_rev in Ho.
      destruct Hinv as ((Hprod & _) & _). simpl in Hprod.
      specialize (Hprod _ _ Ho). lia. }
    split; [apply IH; simpl; auto |].
    intros s' Hrun. apply run_inv with (g0 := g0) in Hrun; auto.
    destruct Hrun. split; auto. lia.
  - (* visit_op *)
    simpl in Hcall.
    destruct (_ <? _)%nat; [reflexivity |].
    destruct (_ =? List.length (outputs (op g op_)))%nat; [| exact I].
    destruct (mem (type (op g op_)) startup_init_ops) eqn:Hstartup; [exact I |].
    destruct (match get_ofm g op_ with Some t => Some t | None => _ end);
      [| reflexivity].
    apply IH; simpl; auto. left. exists op_. auto.
  - (* build_pass *)
    simpl in Hcall, Hstart.
    apply bind_no_placement; [now apply build_pass_body_no_placement |].
    intros b Hbody.
    pose proof (build_pass_body_inv g0 fuel g vo vt sl pl start_ops ofm b
                                    Hinv Hcall Hbody) as Hinv1.
    apply (for_each_no_placement _ (fun s => pack_inv g0 s
                                    /\ (n_ops g <= n_ops (graph s))%nat)); auto.
    intros t s _ [Hs Hn]. split; [apply IH; simpl; auto |].
    intros s' Hrun. apply run_inv with (g0 := g0) in Hrun; simpl; auto.
    destruct Hrun. split; auto. lia.
Qed.

End TraversalSafe.

(** *** A subgraph, and the network *)

Lemma Forall_update_nth {A} (P : A -> Prop) (f : A -> A) l : forall n,
  (forall x, P x -> P (f x)) -> Forall P l -> Forall P (update_nth n f l).
Proof.
  induction l as [| x l IH]; intros n Hf Hl; destruct n; simpl; auto;
    inversion Hl; subst; constructor; auto.
Qed.

Lemma first_outputs_no_placement g ops_ :
  no_placement_failure (first_outputs g ops_).
Proof.
  induction ops_ as [| o ops_ IH]; simpl; [exact I |].
  destruct (outputs (op g o)); [reflexivity |].
  destruct (first_outputs g ops_); simpl; auto.
Qed.

Lemma pack_inv_start g : wf_graph g -> pack_inv g (mkPackState g (fun _ => O) (fun _ => O) [] []).
Proof.
  intros Hwf. unfold pack_inv. simpl. repeat split; try apply Hwf; auto.
  constructor.
Qed.

Section Subgraphs.
Variable get_ofm : Graph -> ObjId -> option ObjId.

Local Notation run := (PassPacking.run get_ofm).
Local Notation pack_subgraph := (PassPacking.pack_subgraph get_ofm).
Local Notation pack_into_passes := (PassPacking.pack_into_passes get_ofm).

Lemma visit_outputs_inv fuel g outs st st' :
  pack_inv g st ->
  for_each (fun t => run fuel (VisitTensor t)) outs st = Ok st' ->
  pack_inv g st'.
Proof.
  intros Hinv. revert st st' Hinv. apply for_each_inv.
  intros t s s' _ Hs Hrun. apply run_inv with (g0 := g) in Hrun; simpl; tauto.
Qed.

Lemma startup_list_allocated g st :
  pack_inv g st -> Forall (fun o => (o < n_ops (graph st))%nat) (startup_list st).
Proof.
  intros (_ & _ & Hsl & _). eapply Forall_impl; [| exact Hsl].
  simpl. tauto.
Qed.

Lemma pack_subgraph_inv fuel g outs g' passes :
  wf_graph g -> pack_subgraph fuel g outs = Ok (g', passes) ->
  wf_graph g' /\ evolves g g' /\ Forall (pass_ok g') passes.
Proof.
  intros Hwf. unfold PassPacking.pack_subgraph.
  destruct (for_each _ outs _) as [st | |] eqn:Hvisit; simpl; try discriminate.
  apply visit_outputs_inv with (g := g) in Hvisit; [| now apply pack_inv_start].
  assert (Hend : forall st', pack_inv g st' ->
            Ok (graph st', rev (reverse_pass_list st')) = Ok (g', passes) ->
            wf_graph g' /\ evolves g g' /\ Forall (pass_ok g') passes).
  { intros st' (Hwf' & Hev & _ & Hpl) [= <- <-].
    repeat split; try apply Hwf'; auto. now apply Forall_rev. }
  destruct (startup_list st) as [| o sl] eqn:Hsl; cbn [bind]; [now apply Hend |].
  destruct (run fuel _ st) as [st2 | |] eqn:Hrun; cbn [bind]; try discriminate.
  apply run_inv with (g0 := g) in Hrun; auto.
  2: { simpl. rewrite <- Hsl. now apply startup_list_allocated with (g := g). }
  destruct Hrun as [(Hwf2 & Hev2 & Hsl2 & Hpl2) _].
  destruct (first_outputs _ _) as [outs' | |]; cbn [bind]; try discriminate.
  apply Hend. unfold pack_inv. simpl. repeat split; try apply Hwf2; auto.
  apply Forall_update_nth; auto.
Qed.

Lemma pack_subgraph_no_placement fuel g outs :
  wf_graph g -> startup_ops_have_no_inputs g ->
  no_placement_failure (pack_subgraph fuel g outs).
Proof.
  intros Hwf Hstartup. unfold PassPacking.pack_subgraph.
  apply bind_no_placement.
  { apply (for_each_no_placement _ (pack_inv g)); [| now apply pack_inv_start].
    intros t s _ Hs. split; [now apply run_no_placement with (g0 := g) |].
    intros s' Hrun. apply run_inv with (g0 := g) in Hrun; simpl; tauto. }
  intros st Hvisit.
  apply visit_outputs_inv with (g := g) in Hvisit; [| now apply pack_inv_start].
  apply bind_no_placement; [| intros; exact I].
  destruct (startup_list st) as [| o sl] eqn:Hsl; [exact I |].
  rewrite <- Hsl.
  apply bind_no_placement.
  - apply run_no_placement with (g0 := g); auto.
    + simpl. now apply startup_list_allocated with (g := g).
    + simpl. right. split; [rewrite Hsl; discriminate |].
      pose proof Hvisit as (_ & Hev & Hall & _).
      eapply Forall_impl; [| exact Hall].
      intros a [_ Hty]. split; auto.
      apply (startup_evolves g (graph st) Hev Hstartup). exact Hty.
  - intros st2 _. apply bind_no_placement; [apply first_outputs_no_placement |].
    intros; exact I.
Qed.

Lemma pack_into_passes_inv fuel subgraphs : forall g g' passes,
  wf_graph g -> pack_into_passes fuel g subgraphs = Ok (g', passes) ->
  wf_graph g' /\ evolves g g' /\ Forall (Forall (pass_ok g')) passes.
Proof.
  induction subgraphs as [| outs subgraphs IH]; intros g g' passes Hwf; simpl.
  { intros [= <- <-]. repeat split; try apply Hwf; auto. constructor. }
  destruct (pack_subgraph fuel g outs) as [[g1 passes1] | |] eqn:Hsub;
    simpl; try discriminate.
  apply pack_subgraph_inv in Hsub; auto. destruct Hsub as (Hwf1 & Hev1 & Hp1).
  destruct (pack_into_passes fuel g1 subgraphs) as [[g2 passes2] | |] eqn:Hrest;
    simpl; try discriminate.
  apply IH in Hrest; auto. destruct Hrest as (Hwf2 & Hev2 & Hp2).
  intros [= <- <-]. split; auto. split; [eapply evolves_trans; eauto |].
  constructor; auto.
  eapply Forall_impl; [| exact Hp1]. intros ps. now apply pass_ok_evolves.
Qed.

Lemma pack_into_passes_no_placement fuel subgraphs : forall g,
  wf_graph g -> startup_ops_have_no_inputs g ->
  no_placement_failure (pack_into_passes fuel g subgraphs).
Proof.
  induction subgraphs as [| outs subgraphs IH]; intros g Hwf Hstartup; simpl;
    [exact I |].
  apply bind_no_placement; [now apply pack_subgraph_no_placement |].
  intros [g1 passes1] Hsub. apply pack_subgraph_inv in Hsub; auto.
  destruct Hsub as (Hwf1 & Hev1 & _).
  apply bind_no_placement; [| intros; exact I].
  apply IH; auto. eapply startup_evolves; eauto.
Qed.

End Subgraphs.

(** *** What [pack_into_passes] guarantees *)

(** C3, as the code has it: in a well-formed graph, every pass that
    [pack_into_passes] produces satisfies [primary_op_spec] in the
    packed graph.  If an operation of the pass carries a non-default
    [npu_block_type] or has a pre, post or post-fusing-limited type
    (the case in which an average pool is synthesized), the primary op
    is an operation of the pass that carries the block type of the
    pass, not [Default], and no other operation of the pass carries
    one; otherwise the pass has no primary op. *)
Theorem pack_into_passes_primary_op get_ofm fuel g subgraphs g' passes :
  wf_graph g ->
  pack_into_passes get_ofm fuel g subgraphs = Ok (g', passes) ->
  forall sg ps, In sg passes -> In ps sg -> primary_op_spec g' ps.
Proof.
  intros Hwf Hpack sg ps Hsg Hps.
  apply pack_into_passes_inv in Hpack; auto.
  destruct Hpack as (_ & _ & Hall).
  rewrite Forall_forall in Hall. specialize (Hall sg Hsg).
  rewrite Forall_forall in Hall. apply (Hall ps Hps).
Qed.

(** C4, as the code has it: after [pack_into_passes] on a well-formed
    graph, consumer lists are kept and extended ([consumers_kept]): the
    consumer list of a tensor of the input graph is the list it had
    followed by the average pools synthesized on it, so an operation
    re-routed to the output of an average pool stays in the consumer
    list of the tensor it read; the operations listing the tensor are
    at least as many as before and at most as many more as average
    pools were appended; a tensor added by a synthesis has the
    re-routed operation and then average pools as consumers, and is
    listed by at least one operation.  So the length of the consumer
    list minus the number of listing operations never decreases, and a
    tensor whose consumer list has kept its length is listed as often
    as before. *)
Theorem pack_into_passes_consumers get_ofm fuel g subgraphs g' passes :
  wf_graph g ->
  pack_into_passes get_ofm fuel g subgraphs = Ok (g', passes) ->
  consumers_kept g g'
  /\ forall t, (t < n_tensors g)%nat ->
       (listing_count g' t + consumer_count g t
        <= consumer_count g' t + listing_count g t)%nat
       /\ (consumer_count g' t = consumer_count g t ->
           listing_count g' t = listing_count g t).
Proof.
  intros Hwf Hpack.
  apply pack_into_passes_inv in Hpack; auto.
  destruct Hpack as (_ & Hev & _).
  destruct (evolves_consumers g g' Hwf Hev) as (_ & _ & _ & Hkept).
  split; [exact Hkept |].
  intros t Ht. destruct Hkept as [Hold _].
  destruct (Hold t Ht) as (added & Heq & _ & Hcount).
  unfold consumer_count. rewrite Heq, length_app, length_map. lia.
Qed.

(** C8: in a well-formed graph whose startup operators ([Const],
    [VariableV2], [Placeholder], [SubgraphInput]) have no inputs, as
    the sources of a graph they are, [pack_into_passes] never fails an
    assertion on [placement]; and in the two ways it calls
    [build_pass], on one operator that is not a startup operator or on
    the startup operators, the loop ends with exactly one of [Npu],
    [Cpu], [MemoryOnly], [StartupInit] in the flags, from which the
    placement is chosen. *)
Theorem pack_into_passes_placement get_ofm fuel g subgraphs :
  wf_graph g -> startup_ops_have_no_inputs g ->
  no_placement_failure (pack_into_passes get_ofm fuel g subgraphs)
  /\ forall fuel' g' start_ops ls,
       single_start g' start_ops \/ startup_start g' start_ops ->
       build_pass_loop fuel' g' (start_loop start_ops) = Ok ls ->
       one_placement_flag (final_flags (curr_flags ls)) = true
       /\ exists p, choose_placement (final_flags (curr_flags ls)) = Ok p.
Proof.
  intros Hwf Hstartup. split; [now apply pack_into_passes_no_placement |].
  intros fuel' g' start_ops ls Hstart Hloop.
  pose proof (build_pass_loop_flags g' fuel' start_ops ls Hstart Hloop) as Hone.
  split; [exact Hone | now apply one_placement_flag_choose].
Qed.

(** **** The example graphs *)

Lemma relu_graph_wf : wf_graph PassExamples.relu_graph.
Proof.
  split.
  - intros t o. destruct t as [| [| [| [| t]]]]; simpl; intuition lia.
  - intros o t Ho. destruct o as [| [| [| o]]]; simpl in *; intuition lia.
Qed.

Lemma relu_graph_consumers : consumers_match PassExamples.relu_graph.
Proof.
  intros t Ht. destruct t as [| [| [| t]]]; try reflexivity.
  simpl in Ht. lia.
Qed.

Lemma relu_graph_startup : startup_ops_have_no_inputs PassExamples.relu_graph.
Proof.
  intros o. destruct o as [| [| [| [| o]]]]; vm_compute; congruence.
Qed.

Lemma dma_graph_wf : wf_graph PassExamples.dma_graph.
Proof.
  split.
  - intros t o. destruct t as [| [| [| [| [| t]]]]]; simpl; intuition lia.
  - intros o t Ho. destruct o as [| [| [| [| o]]]]; simpl in *; intuition lia.
Qed.

(** C3 fails on [dma_graph]: the DMA feeds two convolutions, so it is
    packed alone, in a pass placed on the NPU whose primary op is
    [None]: no operation carries a block type and [create_primary_op]
    synthesizes nothing for a DMA. *)
Lemma dma_pass_without_primary_op :
  wf_graph PassExamples.dma_graph
  /\ exists g' ps0 ps1 rest,
       pack_into_passes PassExamples.get_ofm 10 PassExamples.dma_graph
                        [[2; 3]]%nat
       = Ok (g', [ps0 :: ps1 :: rest])
       /\ placement ps1 = Npu /\ ps_ops ps1 = [1%nat]
       /\ primary_op ps1 = None.
Proof.
  split; [exact dma_graph_wf |].
  do 4 eexists. split; [vm_compute; reflexivity |].
  repeat split.
Qed.

(** C4 fails on [relu_graph]: the equation holds before packing; the
    pass of the Relu gets a synthesized average pool, after which the
    Relu reads the clone but is still in the consumer list of tensor 0,
    next to the average pool: two consumers, one listing operation. *)
Lemma relu_graph_consumers_mismatch :
  wf_graph PassExamples.relu_graph
  /\ consumers_match PassExamples.relu_graph
  /\ exists g' passes,
       pack_into_passes PassExamples.get_ofm 10 PassExamples.relu_graph
                        [[1]]%nat
       = Ok (g', passes)
       /\ consumer_count g' 0%nat = 2%nat /\ listing_count g' 0%nat = 1%nat.
Proof.
  split; [exact relu_graph_wf |]. split; [exact relu_graph_consumers |].
  do 2 eexists. split; [vm_compute; reflexivity |].
  split; vm_compute; reflexivity.
Qed.

(** The hypothesis on the startup operators is used: in
    [fed_placeholder_graph], which is not a graph the packer is given,
    a Reshape feeds a Placeholder, is packed into the startup pass and
    sets [MemoryOnly] next to [StartupInit]. *)
Lemma fed_placeholder_fails_placement :
  wf_graph PassExamples.fed_placeholder_graph
  /\ pack_into_passes PassExamples.get_ofm 10
                      PassExamples.fed_placeholder_graph [[1]]%nat
     = Raise assert_placement_unknown
  /\ exists ls,
       build_pass_loop 10 PassExamples.fed_placeholder_graph
                       (start_loop [0%nat]) = Ok ls
       /\ one_placement_flag (final_flags (curr_flags ls)) = false.
Proof.
  split.
  { split.
    - intros t o. destruct t as [| [| [| t]]]; simpl; intuition lia.
    - intros o t Ho. destruct o as [| [| o]]; simpl in *; intuition lia. }
  split; [vm_compute; reflexivity |].
  eexists. split; vm_compute; reflexivity.
Qed.

Lemma pack_into_passes_primary_op_witness :
  wf_graph PassExamples.relu_graph
  /\ exists g' passes,
       pack_into_passes PassExamples.get_ofm 10 PassExamples.relu_graph
                        [[1]]%nat
       = Ok (g', passes)
       /\ forall sg ps, In sg passes -> In ps sg -> primary_op_spec g' ps.
Proof.
  split; [exact relu_graph_wf |].
  do 2 eexists. split; [vm_compute; reflexivity |].
  apply (pack_into_passes_primary_op PassExamples.get_ofm 10
           PassExamples.relu_graph [[1]]%nat);
    [exact relu_graph_wf | vm_compute; reflexivity].
Defined.

Lemma relu_output_graph_wf : wf_graph PassExamples.relu_output_graph.
Proof.
  split.
  - intros t o. destruct t as [| [| [| t]]]; simpl; intuition lia.
  - intros o t Ho. destruct o as [| [| o]]; simpl in *; intuition lia.
Qed.

Lemma pack_into_passes_consumers_witness :
  wf_graph PassExamples.relu_output_graph
  /\ exists g' passes,
       pack_into_passes PassExamples.get_ofm 10 PassExamples.relu_output_graph
                        [[1]]%nat
       = Ok (g', passes)
       /\ consumers_kept PassExamples.relu_output_graph g'
       /\ forall t, (t < n_tensors PassExamples.relu_output_graph)%nat ->
            (listing_count g' t + consumer_count PassExamples.relu_output_graph t
             <= consumer_count g' t
                + listing_count PassExamples.relu_output_graph t)%nat
            /\ (consumer_count g' t
                = consumer_count PassExamples.relu_output_graph t ->
                listing_count g' t
                = listing_count PassExamples.relu_output_graph t).
Proof.
  split; [exact relu_output_graph_wf |].
  do 2 eexists. split; [vm_compute; reflexivity |].
  eapply (pack_into_passes_consumers PassExamples.get_ofm 10
            PassExamples.relu_output_graph [[1]]%nat);
    [exact relu_output_graph_wf | vm_compute; reflexivity].
Defined.

Lemma pack_into_passes_placement_witness :
  (wf_graph PassExamples.relu_graph
   /\ startup_ops_have_no_inputs PassExamples.relu_graph)
  /\ no_placement_failure
       (pack_into_passes PassExamples.get_ofm 10 PassExamples.relu_graph
                         [[1]]%nat)
  /\ forall fuel' g' start_ops ls,
       single_start g' start_ops \/ startup_start g' start_ops ->
       build_pass_loop fuel' g' (start_loop start_ops) = Ok ls ->
       one_placement_flag (final_flags (curr_flags ls)) = true
       /\ exists p, choose_placement (final_flags (curr_flags ls)) = Ok p.
Proof.
  split; [split; [exact relu_graph_wf | exact relu_graph_startup] |].
  apply (pack_into_passes_placement PassExamples.get_ofm 10
           PassExamples.relu_graph [[1]]%nat);
    [exact relu_graph_wf | exact relu_graph_startup].
Defined.

(** *** What packing leaves of the graph *)

Lemma extends_refl g : extends g g.
Proof.
  unfold extends. repeat split; auto.
  - exists []. now rewrite app_nil_r.
  - lia.
  - lia.
  - lia.
  - lia.
Qed.

Lemma extends_splice g op_ inp rest :
  wf_graph g -> (op_ < n_ops g)%nat -> inputs (op g op_) = inp :: rest ->
  extends g (splice_avgpool g op_ inp).
Proof.
  intros Hwf Hop Hin. unfold extends.
  rewrite splice_n_ops, splice_n_tensors.
  split; [lia |]. split; [lia |]. split; [| split].
  - intros o Ho.
    destruct (splice_old_op g op_ inp Hop o Ho) as (-> & -> & -> & -> & ->).
    repeat split; auto; destruct (Nat.eqb_spec o op_) as [-> | _]; auto.
    rewrite Hin. reflexivity.
  - intros t Ht. rewrite splice_tens.
    destruct (Nat.eqb_spec t (n_tensors g)) as [-> | _]; [lia |].
    destruct (Nat.eqb_spec t inp) as [-> | _]; simpl.
    + repeat split; auto. eauto.
    + repeat split; auto. exists []. now rewrite app_nil_r.
  - intros o Ho. assert (o = n_ops g) as -> by lia.
    rewrite splice_new_op by auto. simpl. auto.
Qed.

Lemma extends_trans g1 g2 g3 : extends g1 g2 -> extends g2 g3 -> extends g1 g3.
Proof.
  intros (Hn & Ht & Hop & Htens & Hnew) (Hn' & Ht' & Hop' & Htens' & Hnew').
  unfold extends. split; [lia |]. split; [lia |]. split; [| split].
  - intros o Ho.
    destruct (Hop o Ho) as (H1 & H2 & H3 & H4 & H5 & H6).
    destruct (Hop' o ltac:(lia)) as (-> & -> & -> & -> & -> & ->). auto 10.
  - intros t Hlt.
    destruct (Htens t Hlt) as (H1 & H2 & added & H3).
    destruct (Htens' t ltac:(lia)) as (-> & -> & added' & ->).
    repeat split; auto. exists (added ++ added'). rewrite H3. symmetry. apply app_assoc.
  - intros o Ho. destruct (Nat.lt_ge_cases o (n_ops g2)) as [Hlt | Hge].
    + destruct (Hnew o ltac:(lia)) as (H1 & H2 & H3 & H4).
      destruct (Hop' o Hlt) as (-> & _ & -> & -> & -> & _). auto.
    + apply Hnew'. lia.
Qed.

Lemma evolves_extends g0 g :
  wf_graph g0 -> evolves g0 g -> wf_graph g /\ extends g0 g.
Proof.
  intros Hwf Hev. induction Hev as [| g op_ inp rest Hev [IHwf IH] Hop Hin].
  - split; [exact Hwf | apply extends_refl].
  - split; [eapply splice_wf; eauto |].
    eapply extends_trans; [exact IH | eapply extends_splice; eauto].
Qed.

(** In a well-formed graph, [pack_into_passes] leaves a well-formed
    graph that extends the one it was given: nothing is removed or
    retyped, consumer lists only grow, and what is added are average
    pools. *)
Theorem pack_into_passes_extends get_ofm fuel g subgraphs g' passes :
  wf_graph g ->
  pack_into_passes get_ofm fuel g subgraphs = Ok (g', passes) ->
  wf_graph g' /\ extends g g'.
Proof.
  intros Hwf Hpack. apply pack_into_passes_inv in Hpack; auto.
  destruct Hpack as (_ & Hev & _). now apply evolves_extends.
Qed.

Lemma pack_into_passes_extends_witness :
  wf_graph PassExamples.relu_graph
  /\ exists g' passes,
       pack_into_passes PassExamples.get_ofm 10 PassExamples.relu_graph
                        [[1]]%nat
       = Ok (g', passes)
       /\ wf_graph g' /\ extends PassExamples.relu_graph g'.
Proof.
  split; [exact relu_graph_wf |].
  do 2 eexists. split; [vm_compute; reflexivity |].
  eapply (pack_into_passes_extends PassExamples.get_ofm 10
            PassExamples.relu_graph [[1]]%nat);
    [exact relu_graph_wf | vm_compute; reflexivity].
Defined.

(** *** Properties of every pass *)

Section PassProperty.
Variable get_ofm : Graph -> ObjId -> option ObjId.
Variable g0 : Graph.
Variable Q : Pass -> Prop.
Hypothesis Q_built : forall fuel g rc start_ops ofm b,
  evolves g0 g -> wf_graph g ->
  Forall (fun o => (o < n_ops g)%nat) start_ops ->
  build_pass_body fuel g rc start_ops ofm = Ok b -> Q (built_pass b).
Hypothesis Q_outputs : forall ps outs, Q ps -> Q (set_outputs ps outs).

Local Notation run := (PassPacking.run get_ofm).
Local Notation pack_subgraph := (PassPacking.pack_subgraph get_ofm).
Local Notation pack_into_passes := (PassPacking.pack_into_passes get_ofm).
Local Arguments Nat.eqb : simpl never.
Local Arguments Nat.ltb : simpl never.
Local Arguments Nat.leb : simpl never.
Local Arguments mem : simpl never.

Lemma run_passes g1 fuel : forall c st st',
  evolves g0 g1 ->
  run fuel c st = Ok st' -> pack_inv g1 st -> call_ok (graph st) c ->
  Forall Q (reverse_pass_list st) -> Forall Q (reverse_pass_list st').
Proof.
  induction fuel as [| fuel IH]; intros c st st' Hev01; [discriminate |].
  destruct st as [g vo vt sl pl]. cbn [graph reverse_pass_list].
  intros Hrun Hinv Hcall HQ.
  assert (Hloop : forall A (call : A -> Call) l s,
            (forall x s1, In x l -> (n_ops g <= n_ops (graph s1))%nat ->
                          call_ok (graph s1) (call x)) ->
            pack_inv g1 s -> (n_ops g <= n_ops (graph s))%nat ->
            Forall Q (reverse_pass_list s) ->
            for_each (fun x => run fuel (call x)) l s = Ok st' ->
            Forall Q (reverse_pass_list st')).
  { intros A call l s Hcalls Hs Hn HQs Hfor.
    assert (Hgoal : pack_inv g1 st' /\ (n_ops g <= n_ops (graph st'))%nat
                    /\ Forall Q (reverse_pass_list st')); [| tauto].
    revert Hfor.
    apply (for_each_inv _ (fun s => pack_inv g1 s
                                    /\ (n_ops g <= n_ops (graph s))%nat
                                    /\ Forall Q (reverse_pass_list s)));
      [| auto].
    intros x s1 s2 Hx (Hs1 & Hn1 & HQ1) Hbody.
    pose proof (run_inv get_ofm g1 fuel _ _ _ Hbody Hs1 (Hcalls x s1 Hx Hn1))
      as [Hs2 Hn2].
    split; auto. split; [lia |]. eapply IH; eauto. }
  destruct c as [tens_ | op_ | start_ops ofm]; simpl in Hrun.
  - (* visit_tensor *)
    destruct (_ <? _)%nat; [discriminate |].
    destruct (_ =? _)%nat; [| injection Hrun as <-; exact HQ].
    eapply (Hloop _ VisitOp); [| | | | exact Hrun]; simpl; auto.
    intros o s1 Ho Hn. apply in_rev in Ho.
    destruct Hinv as ((Hprod & _) & _). simpl in Hprod.
    specialize (Hprod _ _ Ho). lia.
  - (* visit_op *)
    simpl in Hcall.
    destruct (_ <? _)%nat; [discriminate |].
    destruct (_ =? List.length (outputs (op g op_)))%nat;
      [| injection Hrun as <-; exact HQ].
    destruct (mem (type (op g op_)) startup_init_ops);
      [injection Hrun as <-; exact HQ |].
    destruct (match get_ofm g op_ with Some t => Some t | None => _ end);
      [| discriminate].
    eapply IH; [exact Hev01 | exact Hrun | exact Hinv | | exact HQ].
    simpl. auto.
  - (* build_pass *)
    simpl in Hcall.
    destruct (build_pass_body fuel g vt start_ops ofm) as [b | |] eqn:Hbody;
      simpl in Hrun; try discriminate.
    pose proof (build_pass_body_inv g1 fuel g vo vt sl pl start_ops ofm b
                                    Hinv Hcall Hbody) as [Hinv1 Hn1].
    pose proof Hinv as (Hwf & Hev & _). simpl in Hwf, Hev.
    eapply (Hloop _ VisitTensor); [| exact Hinv1 | exact Hn1 | | exact Hrun];
      simpl; auto.
    apply Forall_app. split; [exact HQ |]. constructor; [| constructor].
    eapply Q_built; [| exact Hwf | exact Hcall | exact Hbody].
    eapply evolves_trans; eauto.
Qed.

Lemma pack_subgraph_passes fuel g1 outs g' passes :
  evolves g0 g1 -> wf_graph g1 ->
  pack_subgraph fuel g1 outs = Ok (g', passes) -> Forall Q passes.
Proof.
  intros Hev01 Hwf. unfold PassPacking.pack_subgraph.
  destruct (for_each _ outs _) as [st | |] eqn:Hvisit; cbn [bind];
    try discriminate.
  assert (Hst : pack_inv g1 st /\ Forall Q (reverse_pass_list st)).
  { revert Hvisit.
    apply (for_each_inv _ (fun s => pack_inv g1 s
                                    /\ Forall Q (reverse_pass_list s))).
    - intros t s s' _ [Hs HQs] Hrun. split.
      + apply run_inv with (g0 := g1) in Hrun; simpl; tauto.
      + eapply run_passes; eauto. exact I.
    - split; [now apply pack_inv_start | constructor]. }
  destruct Hst as [Hinv HQ].
  destruct (startup_list st) as [| o sl] eqn:Hsl; cbn [bind].
  { intros [= <- <-]. now apply Forall_rev. }
  destruct (run fuel _ st) as [st2 | |] eqn:Hrun; cbn [bind]; try discriminate.
  eapply run_passes in Hrun; eauto.
  2: { simpl. rewrite <- Hsl. now apply startup_list_allocated with (g := g1). }
  destruct (first_outputs _ _) as [outs' | |]; cbn [bind]; try discriminate.
  intros [= <- <-]. simpl. apply Forall_rev. apply Forall_update_nth; auto.
Qed.

Lemma pack_into_passes_passes fuel subgraphs : forall g1 g' passes,
  evolves g0 g1 -> wf_graph g1 ->
  pack_into_passes fuel g1 subgraphs = Ok (g', passes) ->
  Forall (Forall Q) passes.
Proof.
  induction subgraphs as [| outs subgraphs IH]; intros g1 g' passes Hev Hwf;
    simpl.
  { intros [= <- <-]. constructor. }
  destruct (pack_subgraph fuel g1 outs) as [[g2 passes1] | |] eqn:Hsub;
    simpl; try discriminate.
  pose proof (pack_subgraph_passes _ _ _ _ _ Hev Hwf Hsub) as HQ1.
  apply pack_subgraph_inv in Hsub; auto. destruct Hsub as (Hwf2 & Hev2 & _).
  destruct (pack_into_passes fuel g2 subgraphs) as [[g3 passes2] | |] eqn:Hrest;
    simpl; try discriminate.
  apply IH in Hrest; auto; [| eapply evolves_trans; eauto].
  intros [= <- <-]. constructor; auto.
Qed.

End PassProperty.

(** **** The operations of a pass *)

Lemma build_pass_loop_nodup g fuel : forall ls ls',
  NoDup (reverse_ops_list ls) ->
  build_pass_loop fuel g ls = Ok ls' -> NoDup (reverse_ops_list ls').
Proof.
  induction fuel as [| fuel IH]; intros ls ls' Hnd; simpl;
    destruct (to_process ls) as [| [curr_op tens_] rest] eqn:Hq;
    try discriminate; try (intros [= <-]; exact Hnd).
  destruct (process g curr_op tens_ (pop ls rest)) as [ls1 | |] eqn:Hp;
    try discriminate.
  apply IH. apply process_cases in Hp. simpl in Hp.
  destruct Hp as [[_ ->] | [(_ & _ & _ & _ & ->) | (Hnew & _ & _ & _ & -> & _)]];
    auto.
  apply NoDup_app; auto.
  - constructor; [intros [] | constructor].
  - intros o Ho [<- | []]. apply id_in_In in Ho. congruence.
Qed.

Lemma make_pass_nonempty g1 rc1 ls pl ew ops_list1 primary block in_set ofm b :
  make_pass g1 rc1 ls pl ew ops_list1 primary block in_set ofm = Ok b ->
  ops_list1 <> []
  /\ ps_inputs (built_pass b) = map fst (count_inputs g1 ops_list1 in_set).
Proof.
  unfold make_pass. destruct ops_list1; [discriminate |].
  destruct (match primary with Some _ => _ | None => _ end) as [ifms | |];
    simpl; try discriminate.
  destruct pl, ofm; try discriminate; intros [= <-]; simpl; split;
    auto; discriminate.
Qed.

Lemma build_pass_body_ops fuel g rc start_ops ofm b :
  wf_graph g -> Forall (fun o => (o < n_ops g)%nat) start_ops ->
  build_pass_body fuel g rc start_ops ofm = Ok b ->
  ps_ops (built_pass b) <> [] /\ NoDup (ps_ops (built_pass b)).
Proof.
  intros Hwf Hstart. unfold build_pass_body.
  destruct (build_pass_loop fuel g (start_loop start_ops)) as [ls | |] eqn:Hloop;
    simpl; try discriminate.
  pose proof Hloop as Hnd. apply build_pass_loop_nodup in Hnd; [| constructor].
  apply build_pass_loop_ok in Hloop; auto using start_loop_ok.
  destruct Hloop as ((_ & Hops & _) & _).
  destruct (choose_placement _) as [pl | |]; simpl; try discriminate.
  destruct (synthesize_primary g rc ls (rev (reverse_ops_list ls)))
    as [[[[[[g1 ops_list1] primary] rc1] block] ins] | |] eqn:Hsyn;
    simpl; try discriminate.
  intros Hmake. pose proof Hmake as Hne. apply make_pass_nonempty in Hne.
  apply make_pass_fields in Hmake.
  destruct Hmake as (_ & _ & _ & -> & _). split; [tauto |].
  assert (Hrev : NoDup (rev (reverse_ops_list ls))) by now apply NoDup_rev.
  apply synthesize_primary_cases in Hsyn.
  destruct Hsyn as [(p & _ & _ & _ & -> & _)
                   | [(_ & _ & op_ & rest_ops & inp & rest & _ & _ & _ & -> & _)
                     | (_ & _ & _ & _ & -> & _)]]; auto.
  constructor; auto. intros Hin. apply in_rev in Hin.
  rewrite Forall_forall in Hops. specialize (Hops _ Hin). lia.
Qed.

(** In a well-formed graph, every pass made by [pack_into_passes] has
    at least one operation, and no operation twice. *)
Theorem pass_ops_distinct get_ofm fuel g subgraphs g' passes :
  wf_graph g ->
  pack_into_passes get_ofm fuel g subgraphs = Ok (g', passes) ->
  forall sg ps, In sg passes -> In ps sg ->
    ps_ops ps <> [] /\ NoDup (ps_ops ps).
Proof.
  intros Hwf Hpack sg ps Hsg Hps.
  pose proof (pack_into_passes_passes get_ofm g
                (fun ps => ps_ops ps <> [] /\ NoDup (ps_ops ps))) as H.
  eapply H in Hpack; auto.
  - rewrite Forall_forall in Hpack. specialize (Hpack sg Hsg).
    rewrite Forall_forall in Hpack. exact (Hpack ps Hps).
  - intros fuel' g1 rc start_ops ofm b _. apply build_pass_body_ops.
  - constructor.
Qed.

Lemma pass_ops_distinct_witness :
  wf_graph PassExamples.dma_graph
  /\ exists g' passes,
       pack_into_passes PassExamples.get_ofm 10 PassExamples.dma_graph
                        [[2; 3]]%nat
       = Ok (g', passes)
       /\ forall sg ps, In sg passes -> In ps sg ->
            ps_ops ps <> [] /\ NoDup (ps_ops ps).
Proof.
  split; [exact dma_graph_wf |].
  do 2 eexists. split; [vm_compute; reflexivity |].
  eapply (pass_ops_distinct PassExamples.get_ofm 10
            PassExamples.dma_graph [[2; 3]]%nat);
    [exact dma_graph_wf | vm_compute; reflexivity].
Defined.

(** **** The inputs of a pass *)

Lemma refcount_incr_keys inp d :
  map fst (refcount_incr inp d)
  = if id_in inp (map fst d) then map fst d else map fst d ++ [inp].
Proof.
  induction d as [| [k n] d IH]; simpl; auto.
  rewrite (Nat.eqb_sym inp k).
  destruct (Nat.eqb k inp); simpl; auto.
  rewrite IH. destruct (id_in inp (map fst d)); auto.
Qed.

Lemma refcount_incr_nodup inp d :
  NoDup (map fst d) -> NoDup (map fst (refcount_incr inp d)).
Proof.
  intros Hnd. rewrite refcount_incr_keys.
  destruct (id_in inp (map fst d)) eqn:Hin; auto.
  apply NoDup_app; auto.
  - constructor; [intros [] | constructor].
  - intros o Ho [<- | []]. apply id_in_In in Ho. congruence.
Qed.

Lemma count_inputs_nodup g ops_list in_set :
  NoDup (map fst (count_inputs g ops_list in_set)).
Proof.
  unfold count_inputs.
  assert (Hinner : forall inps d,
            NoDup (map fst d) ->
            NoDup (map fst (fold_left
                              (fun d inp => if id_in inp in_set
                                            then refcount_incr inp d else d)
                              inps d))).
  { induction inps as [| inp inps IH]; simpl; auto.
    intros d Hd. apply IH. destruct (id_in inp in_set); auto.
    now apply refcount_incr_nodup. }
  assert (Houter : forall l d,
            NoDup (map fst d) ->
            NoDup (map fst (fold_left
                              (fun d o =>
                                 fold_left
                                   (fun d inp => if id_in inp in_set
                                                 then refcount_incr inp d else d)
                                   (inputs (op g o)) d)
                              l d))).
  { induction l as [| o l IH]; simpl; auto. }
  apply Houter. constructor.
Qed.

Lemma build_pass_body_inputs fuel g rc start_ops ofm b :
  build_pass_body fuel g rc start_ops ofm = Ok b ->
  NoDup (ps_inputs (built_pass b)).
Proof.
  unfold build_pass_body.
  destruct (build_pass_loop fuel g (start_loop start_ops)) as [ls | |];
    simpl; try discriminate.
  destruct (choose_placement _) as [pl | |]; simpl; try discriminate.
  destruct (synthesize_primary g rc ls (rev (reverse_ops_list ls)))
    as [[[[[[g1 ops_list1] primary] rc1] block] ins] | |];
    simpl; try discriminate.
  intros Hmake. apply make_pass_nonempty in Hmake. destruct Hmake as [_ ->].
  apply count_inputs_nodup.
Qed.

(** In a well-formed graph, the input list of every pass made by
    [pack_into_passes] names each tensor once, however many operations
    of the pass read it. *)
Theorem pass_inputs_distinct get_ofm fuel g subgraphs g' passes :
  wf_graph g ->
  pack_into_passes get_ofm fuel g subgraphs = Ok (g', passes) ->
  forall sg ps, In sg passes -> In ps sg -> NoDup (ps_inputs ps).
Proof.
  intros Hwf Hpack sg ps Hsg Hps.
  pose proof (pack_into_passes_passes get_ofm g
                (fun ps => NoDup (ps_inputs ps))) as H.
  eapply H in Hpack; auto.
  - rewrite Forall_forall in Hpack. specialize (Hpack sg Hsg).
    rewrite Forall_forall in Hpack. exact (Hpack ps Hps).
  - intros fuel' g1 rc start_ops ofm b _ _ _. apply build_pass_body_inputs.
  - constructor.
Qed.

Lemma pass_inputs_distinct_witness :
  wf_graph PassExamples.dma_graph
  /\ exists g' passes,
       pack_into_passes PassExamples.get_ofm 10 PassExamples.dma_graph
                        [[2; 3]]%nat
       = Ok (g', passes)
       /\ forall sg ps, In sg passes -> In ps sg -> NoDup (ps_inputs ps).
Proof.
  split; [exact dma_graph_wf |].
  do 2 eexists. split; [vm_compute; reflexivity |].
  eapply (pass_inputs_distinct PassExamples.get_ofm 10
            PassExamples.dma_graph [[2; 3]]%nat);
    [exact dma_graph_wf | vm_compute; reflexivity].
Defined.

(** **** Passes placed on the NPU *)

Lemma has_lor a b m : has (Z.lor a b) m = has a m || has b m.
Proof.
  unfold has. rewrite Z.land_lor_distr_l.
  destruct (Z.eqb_spec (Z.lor (Z.land a m) (Z.land b m)) 0) as [H | H].
  - apply Z.lor_eq_0_iff in H. destruct H as [-> ->]. reflexivity.
  - destruct (Z.eqb_spec (Z.land a m) 0) as [Ha | Ha];
      destruct (Z.eqb_spec (Z.land b m) 0) as [Hb | Hb]; auto.
    rewrite Ha, Hb in H. now elim H.
Qed.

Lemma apply_row_has f r m :
  In r test_sequence ->
  has (apply_row f r) m = has f m || has (flags_to_set r) m.
Proof.
  intros Hin. unfold apply_row. rewrite has_lor.
  replace (flags_to_clear r) with 0.
  - change (Z.lnot 0) with (-1). now rewrite Z.land_m1_r.
  - unfold test_sequence in Hin. cbn [In] in Hin.
    repeat (destruct Hin as [<- | Hin]; [reflexivity |]). destruct Hin.
Qed.

Lemma row_sets_placement r :
  In r test_sequence ->
  has (flags_to_set r) PassFlags.Npu = false ->
  has (flags_to_set r) PassFlags.Cpu
  || has (flags_to_set r) PassFlags.MemoryOnly
  || has (flags_to_set r) PassFlags.StartupInit = true.
Proof.
  intros Hin. unfold test_sequence in Hin. cbn [In] in Hin.
  repeat (destruct Hin as [<- | Hin];
          [vm_compute; intros; congruence |]).
  destruct Hin.
Qed.

Lemma build_pass_loop_npu g fuel : forall ls ls',
  (has (curr_flags ls) PassFlags.Cpu = false ->
   has (curr_flags ls) PassFlags.MemoryOnly = false ->
   has (curr_flags ls) PassFlags.StartupInit = false ->
   Forall (fun o => run_on_npu (op g o) = true) (reverse_ops_list ls)) ->
  build_pass_loop fuel g ls = Ok ls' ->
  has (curr_flags ls') PassFlags.Cpu = false ->
  has (curr_flags ls') PassFlags.MemoryOnly = false ->
  has (curr_flags ls') PassFlags.StartupInit = false ->
  Forall (fun o => run_on_npu (op g o) = true) (reverse_ops_list ls').
Proof.
  induction fuel as [| fuel IH]; intros ls ls' Hinv; simpl;
    destruct (to_process ls) as [| [curr_op tens_] rest] eqn:Hq;
    try discriminate; try (intros [= <-]; exact Hinv).
  destruct (process g curr_op tens_ (pop ls rest)) as [ls1 | |] eqn:Hp;
    try discriminate.
  apply IH. apply process_cases in Hp. simpl in Hp.
  destruct Hp as [[_ ->] | [(_ & _ & -> & _ & ->)
                           | (_ & r & Hr & -> & -> & _)]]; auto.
  apply find_row_some in Hr. destruct Hr as [Hin Happ].
  rewrite !apply_row_has by auto. intros Hc Hm Hs.
  apply orb_false_iff in Hc, Hm, Hs.
  destruct Hc as [Hc Hc'], Hm as [Hm Hm'], Hs as [Hs Hs'].
  apply Forall_app. split; auto. constructor; [| constructor].
  unfold row_applies in Happ. apply andb_true_iff in Happ.
  destruct Happ as [_ Hnpu].
  destruct (has (flags_to_set r) PassFlags.Npu) eqn:Hset; auto.
  pose proof (row_sets_placement r Hin Hset) as Hplace.
  rewrite Hc', Hm', Hs' in Hplace. discriminate Hplace.
Qed.

Lemma choose_placement_npu flags :
  choose_placement (final_flags flags) = Ok Npu ->
  has flags PassFlags.Cpu = false
  /\ has flags PassFlags.MemoryOnly = false
  /\ has flags PassFlags.StartupInit = false.
Proof.
  assert (Hfinal : forall m, has PassFlags.ElementWise m = false ->
                             has (final_flags flags) m = has flags m).
  { intros m Hm. unfold final_flags. destruct (_ && _); auto.
    rewrite has_lor, Hm. apply orb_false_r. }
  rewrite <- !Hfinal by reflexivity.
  unfold choose_placement, assign_placement.
  destruct (has (final_flags flags) PassFlags.Npu),
    (has (final_flags flags) PassFlags.Cpu),
    (has (final_flags flags) PassFlags.MemoryOnly),
    (has (final_flags flags) PassFlags.StartupInit);
    simpl; intros H; try discriminate; auto.
Qed.

Lemma build_pass_body_npu fuel g rc start_ops ofm b :
  build_pass_body fuel g rc start_ops ofm = Ok b ->
  placement (built_pass b) = Npu ->
  forall o, In o (ps_ops (built_pass b)) -> (o < n_ops g)%nat ->
            run_on_npu (op g o) = true.
Proof.
  unfold build_pass_body.
  destruct (build_pass_loop fuel g (start_loop start_ops)) as [ls | |] eqn:Hloop;
    simpl; try discriminate.
  destruct (choose_placement _) as [pl | |] eqn:Hpl; simpl; try discriminate.
  destruct (synthesize_primary g rc ls (rev (reverse_ops_list ls)))
    as [[[[[[g1 ops_list1] primary] rc1] block] ins] | |] eqn:Hsyn;
    simpl; try discriminate.
  intros Hmake. apply make_pass_fields in Hmake.
  destruct Hmake as (_ & _ & -> & -> & _). intros ->.
  apply choose_placement_npu in Hpl. destruct Hpl as (Hc & Hm & Hs).
  pose proof (build_pass_loop_npu g fuel (start_loop start_ops) ls
                                  (fun _ _ _ => Forall_nil _)
                                  Hloop Hc Hm Hs) as Hall.
  rewrite Forall_forall in Hall.
  apply synthesize_primary_cases in Hsyn.
  destruct Hsyn as [(p & _ & _ & _ & -> & _)
                   | [(_ & _ & op_ & rest_ops & inp & rest & _ & _ & _ & -> & _)
                     | (_ & _ & _ & _ & -> & _)]];
    intros o Ho Hlt.
  - apply Hall. now apply in_rev.
  - destruct Ho as [<- | Ho]; [lia |]. apply Hall. now apply in_rev.
  - apply Hall. now apply in_rev.
Qed.

(** In a well-formed graph, every operation of the input graph that
    [pack_into_passes] puts in a pass placed on the NPU has
    [run_on_npu] set: an operation that does not run on the NPU is
    never packed into an NPU pass. *)
Theorem npu_pass_runs_on_npu get_ofm fuel g subgraphs g' passes :
  wf_graph g ->
  pack_into_passes get_ofm fuel g subgraphs = Ok (g', passes) ->
  forall sg ps o, In sg passes -> In ps sg -> placement ps = Npu ->
    In o (ps_ops ps) -> (o < n_ops g)%nat -> run_on_npu (op g o) = true.
Proof.
  intros Hwf Hpack sg ps o Hsg Hps Hnpu Ho Hlt.
  pose proof (pack_into_passes_passes get_ofm g
                (fun ps => placement ps = Npu ->
                           forall o, In o (ps_ops ps) -> (o < n_ops g)%nat ->
                                     run_on_npu (op g o) = true)) as H.
  eapply H in Hpack; auto.
  - rewrite Forall_forall in Hpack. specialize (Hpack sg Hsg).
    rewrite Forall_forall in Hpack. exact (Hpack ps Hps Hnpu o Ho Hlt).
  - intros fuel' g1 rc start_ops ofm b Hev _ _ Hbody Hpl o' Ho' Hlt'.
    destruct (evolves_extends g g1 Hwf Hev) as (_ & Hn & _ & Hold & _).
    destruct (Hold o' Hlt') as (_ & <- & _).
    eapply build_pass_body_npu; eauto. lia.
  - constructor.
Qed.

Lemma npu_pass_runs_on_npu_witness :
  wf_graph PassExamples.dma_graph
  /\ exists g' passes,
       pack_into_passes PassExamples.get_ofm 10 PassExamples.dma_graph
                        [[2; 3]]%nat
       = Ok (g', passes)
       /\ forall sg ps o, In sg passes -> In ps sg -> placement ps = Npu ->
            In o (ps_ops ps) -> (o < n_ops PassExamples.dma_graph)%nat ->
            run_on_npu (op PassExamples.dma_graph o) = true.
Proof.
  split; [exact dma_graph_wf |].
  do 2 eexists. split; [vm_compute; reflexivity |].
  eapply (npu_pass_runs_on_npu PassExamples.get_ofm 10
            PassExamples.dma_graph [[2; 3]]%nat);
    [exact dma_graph_wf | vm_compute; reflexivity].
Defined.
End PassFacts.

(** ** tensor.py: shapes *)

Module TensorFacts.
Import TensorShapes.

Lemma num_elements_loop_defined dims : forall elems,
  num_elements_loop elems (map Some dims)
  = Some (elems * fold_right Z.mul 1 dims).
Proof.
  induction dims as [| d dims IH]; intros elems; simpl.
  - now rewrite Z.mul_1_r.
  - rewrite IH. now rewrite Z.mul_assoc.
Qed.

Lemma num_elements_loop_some dims : forall elems n,
  num_elements_loop elems dims = Some n ->
  exists ds, dims = map Some ds.
Proof.
  induction dims as [| [d |] dims IH]; intros elems n; simpl.
  - exists []. reflexivity.
  - intros H. apply IH in H. destruct H as [ds ->]. now exists (d :: ds).
  - discriminate.
Qed.

Lemma num_elements_loop_none dims : forall elems,
  num_elements_loop elems dims = None ->
  forallb (fun d : option Z => match d with None => false | Some _ => true end)
          dims = false.
Proof.
  induction dims as [| [d |] dims IH]; intros elems; simpl;
    try discriminate; eauto.
Qed.

(** [shape_num_elements] returns a number exactly for the shapes that
    [shape_fully_defined] accepts, and the number is the product of the
    dimensions. *)
Theorem shape_num_elements_defined shp :
  match shape_num_elements shp with
  | Some n =>
      shape_fully_defined shp = true
      /\ exists dims, shp = Some (map Some dims)
                      /\ n = fold_right Z.mul 1 dims
  | None => shape_fully_defined shp = false /\ elements shp = 0
  end.
Proof.
  destruct shp as [dims |]; simpl; [| auto].
  destruct (num_elements_loop 1 dims) as [n |] eqn:Hloop.
  - destruct (num_elements_loop_some _ _ _ Hloop) as [ds ->].
    rewrite num_elements_loop_defined in Hloop. injection Hloop as <-.
    split.
    + rewrite forallb_forall. intros d Hd. apply in_map_iff in Hd.
      destruct Hd as (x & <- & _). reflexivity.
    + exists ds. split; auto. apply Z.mul_1_l.
  - split; [eapply num_elements_loop_none; eauto |].
    unfold elements. simpl. now rewrite Hloop.
Qed.

Section RoundToQuantum.
Variable round_up : Z -> Z -> Z.

(** A dimension rounded to its quantum; [None] stays [None]. *)
Local Notation round_dim :=
  (fun dq : option Z * Z => option_map (fun d => round_up d (snd dq)) (fst dq)).

Lemma round_from_end_combine shp_rev : forall quantum_rev,
  (List.length shp_rev <= List.length quantum_rev)%nat ->
  round_from_end round_up shp_rev quantum_rev
  = Some (map round_dim (combine shp_rev quantum_rev)).
Proof.
  induction shp_rev as [| [d |] rest IH]; intros [| q qs] Hlen; simpl in *;
    try lia; auto; rewrite IH by lia; reflexivity.
Qed.

Lemma combine_app_l {A B} (a : list A) (b1 b2 : list B) :
  List.length a = List.length b1 -> combine a (b1 ++ b2) = combine a b1.
Proof.
  revert b1. induction a as [| x a IH]; intros [| y b1] Hlen; simpl in *;
    try lia; auto.
  f_equal. apply IH. lia.
Qed.

Lemma combine_rev_eq {A B} (a : list A) : forall (b : list B),
  List.length a = List.length b ->
  combine (rev a) (rev b) = rev (combine a b).
Proof.
  induction a as [| x a IH]; intros [| y b] Hlen; simpl in *; try lia; auto.
  rewrite <- IH by lia.
  assert (Hl : List.length (rev a) = List.length (rev b))
    by (rewrite !length_rev; lia).
  clear IH. revert Hl. generalize (rev a) (rev b). intros l.
  induction l as [| u l IHl]; intros [| v m] Hl; simpl in *; try lia; auto.
  f_equal. apply IHl. lia.
Qed.

(** When [quantum] is at least as long as the shape,
    [shape_round_to_quantum] keeps the rank and the [None] dimensions,
    and rounds each other dimension to the quantum at the same
    distance from the end: leading entries of a longer [quantum] are
    not used. *)
Theorem shape_round_to_quantum_aligned shp quantum :
  (List.length shp <= List.length quantum)%nat ->
  shape_round_to_quantum round_up shp quantum
  = Some (map round_dim
              (combine shp (skipn (List.length quantum - List.length shp)
                                  quantum))).
Proof.
  intros Hlen. unfold shape_round_to_quantum.
  rewrite round_from_end_combine by (rewrite !length_rev; lia).
  simpl. f_equal. rewrite <- map_rev. f_equal.
  set (k := (List.length quantum - List.length shp)%nat).
  assert (Hskip : List.length (skipn k quantum) = List.length shp)
    by (rewrite length_skipn; lia).
  rewrite <- (firstn_skipn k quantum) at 1.
  rewrite rev_app_distr, combine_app_l by (rewrite !length_rev; lia).
  rewrite combine_rev_eq by lia. apply rev_involutive.
Qed.

End RoundToQuantum.

Lemma Forall2_le_refl dims : Forall2 Z.le dims dims.
Proof. induction dims; constructor; auto; lia. Qed.

(** [storage_shape_for_sub_purpose] never grows a storage shape whose
    dimensions are positive integers: the shape it returns has the same
    rank, positive integer dimensions or not, and no dimension larger
    than before. *)
Theorem storage_shape_for_sub_purpose_bounded dims sub_purpose param_a param_b shp :
  Forall (fun d => 1 <= d) dims ->
  storage_shape_for_sub_purpose (map Some dims) sub_purpose param_a param_b
  = Value shp ->
  exists dims', shp = map Some dims' /\ Forall2 Z.le dims' dims.
Proof.
  intros Hpos. destruct sub_purpose; simpl.
  - intros [= <-]. exists dims. split; auto. apply Forall2_le_refl.
  - destruct (_ <? 2)%nat; [discriminate |].
    rewrite <- map_rev. destruct (rev dims) as [| last_dim front] eqn:Hrev;
      simpl; [discriminate |].
    destruct param_a as [a |]; simpl; [| discriminate].
    intros [= <-]. exists (rev (Z.min last_dim (a * 2) :: front)). split.
    + rewrite map_rev. reflexivity.
    + rewrite <- (rev_involutive dims), Hrev. simpl.
      apply Forall2_app; [apply Forall2_le_refl |].
      constructor; [lia | constructor].
  - destruct dims as [| n [| h [| w [| c [| ? ?]]]]]; simpl; try discriminate.
    destruct param_a as [a |]; simpl; [| discriminate].
    intros [= <-]. exists [1; h; Z.min w a; c]. split; auto.
    inversion Hpos; subst. repeat constructor; lia.
  - destruct dims as [| n [| h [| w [| c [| ? ?]]]]]; simpl; try discriminate.
    destruct param_a as [a |]; simpl; [| discriminate].
    intros [= <-]. exists [1; Z.min h a; w; c]. split; auto.
    inversion Hpos; subst. repeat constructor; lia.
  - destruct dims as [| n [| h [| w [| c [| ? ?]]]]]; simpl; try discriminate.
    destruct param_a as [a |]; simpl; [| discriminate].
    destruct param_b as [b |]; simpl; [| discriminate].
    intros [= <-]. exists [1; Z.min h b; Z.min w a; c]. split; auto.
    inversion Hpos; subst. repeat constructor; lia.
Qed.

Lemma py_min_idempotent d a d' :
  py_min d a = Value d' -> py_min d' a = Value d'.
Proof.
  destruct d as [x |], a as [y |]; simpl; try discriminate.
  intros [= <-]. simpl. do 2 f_equal. lia.
Qed.

(** Applying a sub-purpose a second time, with the same parameters,
    changes nothing: [storage_shape_for_sub_purpose] is idempotent. *)
Theorem storage_shape_for_sub_purpose_idempotent
        storage_shape sub_purpose param_a param_b shp :
  storage_shape_for_sub_purpose storage_shape sub_purpose param_a param_b
  = Value shp ->
  storage_shape_for_sub_purpose shp sub_purpose param_a param_b = Value shp.
Proof.
  destruct sub_purpose; unfold storage_shape_for_sub_purpose.
  - intros [= <-]. reflexivity.
  - destruct (Nat.ltb_spec (List.length storage_shape) 2) as [| Hlen];
      [discriminate |].
    destruct (rev storage_shape) as [| last_dim front] eqn:Hrev;
      [discriminate |].
    destruct (py_min last_dim (double param_a)) as [d | |] eqn:Hmin;
      try discriminate.
    intros [= <-]. change (rev front ++ [d]) with (rev (d :: front)).
    assert (Hlen' : List.length (rev (d :: front)) = List.length storage_shape).
    { rewrite length_rev. simpl.
      rewrite <- (length_rev storage_shape), Hrev. reflexivity. }
    rewrite Hlen'. destruct (Nat.ltb_spec (List.length storage_shape) 2);
      [lia |].
    rewrite rev_involutive.
    now rewrite (py_min_idempotent _ _ _ Hmin).
  - destruct storage_shape as [| n [| h [| w [| c [| ? ?]]]]];
      try discriminate.
    destruct (py_min w param_a) as [w' | |] eqn:Hmin; try discriminate.
    intros [= <-]. now rewrite (py_min_idempotent _ _ _ Hmin).
  - destruct storage_shape as [| n [| h [| w [| c [| ? ?]]]]];
      try discriminate.
    destruct (py_min h param_a) as [h' | |] eqn:Hmin; try discriminate.
    intros [= <-]. now rewrite (py_min_idempotent _ _ _ Hmin).
  - destruct storage_shape as [| n [| h [| w [| c [| ? ?]]]]];
      try discriminate.
    destruct (py_min w param_a) as [w' | |] eqn:Hw; try discriminate.
    destruct (py_min h param_b) as [h' | |] eqn:Hh; try discriminate.
    intros [= <-].
    now rewrite (py_min_idempotent _ _ _ Hw), (py_min_idempotent _ _ _ Hh).
Qed.

Lemma shape_round_to_quantum_aligned_witness :
  (List.length [Some 3; None; Some 5] <= List.length [1; 1; 8; 16])%nat
  /\ shape_round_to_quantum Z.max [Some 3; None; Some 5] [1; 1; 8; 16]
     = Some [Some (Z.max 3 1); None; Some (Z.max 5 16)].
Proof.
  split; [simpl; lia |].
  apply (shape_round_to_quantum_aligned Z.max [Some 3; None; Some 5]
                                        [1; 1; 8; 16]).
  simpl. lia.
Defined.

Lemma storage_shape_for_sub_purpose_bounded_witness :
  (Forall (fun d => 1 <= d) [2; 8; 8; 16]
   /\ storage_shape_for_sub_purpose (map Some [2; 8; 8; 16]) RollingBufferXY
                                    (Some 4) (Some 2)
      = Value [Some 1; Some 2; Some 4; Some 16])
  /\ exists dims',
       [Some 1; Some 2; Some 4; Some 16] = map Some dims'
       /\ Forall2 Z.le dims' [2; 8; 8; 16].
Proof.
  assert (Hpos : Forall (fun d => 1 <= d) [2; 8; 8; 16])
    by (repeat constructor; lia).
  split; [split; [exact Hpos | reflexivity] |].
  apply (storage_shape_for_sub_purpose_bounded
           [2; 8; 8; 16] RollingBufferXY (Some 4) (Some 2));
    [exact Hpos | reflexivity].
Defined.

Lemma storage_shape_for_sub_purpose_idempotent_witness :
  storage_shape_for_sub_purpose [Some 1; Some 8; Some 8; Some 16]
                                DoubleBuffer (Some 4) None
  = Value [Some 1; Some 8; Some 8; Some 8]
  /\ storage_shape_for_sub_purpose [Some 1; Some 8; Some 8; Some 8]
                                   DoubleBuffer (Some 4) None
     = Value [Some 1; Some 8; Some 8; Some 8].
Proof.
  split; [reflexivity |].
  apply (storage_shape_for_sub_purpose_idempotent
           [Some 1; Some 8; Some 8; Some 16] DoubleBuffer (Some 4) None).
  reflexivity.
Defined.

End TensorFacts.

(** ** api.py, continued *)

Module ApiFacts.
Import NpuDataTypes.

(** The range of an [NpuDataType]: [min_value] and [max_value] bound
    exactly [2 ^ size_in_bits] values, [min_value] is 0 for the unsigned
    types and [- 2 ^ (size_in_bits - 1)] for the signed ones, and
    [size_in_bytes] is an eighth of [size_in_bits]. *)
Theorem npu_data_type_range d :
  max_value d - min_value d + 1 = 2 ^ size_in_bits d
  /\ min_value d = (if is_signed d then - 2 ^ (size_in_bits d - 1) else 0)
  /\ min_value d <= 0 < max_value d
  /\ 8 * size_in_bytes d = size_in_bits d.
Proof. destruct d; vm_compute; repeat split; congruence. Qed.

(** The version word is decoded as [test_npu_get_API_version] does,
    for every major version and every minor version: the major version
    comes back as it is, the minor version modulo [2 ^ 16]. *)
Theorem encode_version_round_trip major minor :
  Api.version_major (Api.encode_version major minor) = major
  /\ Api.version_minor (Api.encode_version major minor) = minor mod 2 ^ 16.
Proof.
  split; [apply encode_version_major |].
  unfold Api.version_minor, Api.encode_version.
  rewrite Z.land_comm, Z.land_lor_distr_l.
  change 65535 with (Z.ones 16).
  rewrite !Z.land_ones by lia.
  rewrite Z.shiftl_mul_pow2 by lia.
  rewrite Z.mod_mul by lia.
  rewrite Z.mod_mod by lia. apply Z.lor_0_l.
Qed.

End ApiFacts.
